(** * weather-cli: sparkline quantizer, forecast normalizer, adapter, renderer

    A shallow embedding of [weather_cli_spark.py] (the plain variant) and
    [weather_cli_rich.py] (the rich variant).  Python values are modelled as
    follows.

    - An [int] is a [Z].  A [str] made of palette glyphs is a list of Unicode
      code points; other text is a [string] of UTF-8 bytes.
    - A number that takes part in arithmetic lives in an [Arith] structure,
      which packs the operations the source applies to it.  The program
      computes on [binary64] (IEEE 754 double precision, what CPython's
      [float] is); [exact] (rationals, no rounding) is the arithmetic
      the floats approximate.
    - A raised exception is the [Raise] branch of [result].
    - A [dict] read with [.get(key, default)] has three cases per key: the key
      is absent, it is bound to [None], or it is bound to a value. *)

From Stdlib Require Import ZArith QArith Qround Qpower List Bool String Ascii.
From Stdlib Require Import Lia Lqa.
From Stdlib Require Import DecimalString.
From Stdlib Require Import PrimFloat SpecFloat FloatOps FloatAxioms.
From Stdlib Require Import Sorting.Sorted Sorting.Permutation.
From Equations Require Import Equations.
Import ListNotations.
Open Scope Z_scope.

(** ** Exceptions and the error monad *)

Inductive exn_class :=
| ZeroDivisionError
| IndexError
| KeyError
| TypeError
| ValueError
| OverflowError
| OSError
| AttributeError
| MarkupError          (* rich.errors.MarkupError *)
| HTTPError            (* requests.HTTPError, raised by raise_for_status *)
| RequestException.    (* any other requests failure: timeout, connection *)

Inductive exn := Exn (cls : exn_class) (msg : string).

Definition exn_cls (e : exn) : exn_class := let (c, _) := e in c.
Definition exn_msg (e : exn) : string := let (_, m) := e in m.

(** [except requests.RequestException]: HTTPError is a subclass. *)
Definition is_RequestException (c : exn_class) : bool :=
  match c with HTTPError | RequestException => true | _ => false end.

(** [except requests.HTTPError]. *)
Definition is_HTTPError (c : exn_class) : bool :=
  match c with HTTPError => true | _ => false end.

Inductive result (A : Type) :=
| Ok (a : A)
| Raise (e : exn).
Arguments Ok {A} a.
Arguments Raise {A} e.

Definition rbind {A B} (r : result A) (k : A -> result B) : result B :=
  match r with Ok a => k a | Raise e => Raise e end.

Declare Scope result_scope.
Delimit Scope result_scope with result.
Notation "x <- c ;; k" := (rbind c (fun x => k))
  (at level 61, c at next level, right associativity) : result_scope.
Open Scope result_scope.

(** A list comprehension whose element expression may raise: elements are
    evaluated left to right and the first exception ends the loop. *)
Fixpoint mapM {A B} (f : A -> result B) (l : list A) : result (list B) :=
  match l with
  | [] => Ok []
  | a :: l' => b <- f a ;; bs <- mapM f l' ;; Ok (b :: bs)
  end.

(** ** Python built-ins *)

(** [len(l)]. *)
Definition len {A} (l : list A) : Z := Z.of_nat (List.length l).

(** [s[k]] on a sequence: a negative index counts from the end.  [kind]
    is the word IndexError names the sequence type with. *)
Definition getitem {A} (kind : string) (l : list A) (k : Z) : result A :=
  let n := len l in
  let j := if k <? 0 then k + n else k in
  let out_of_range := Exn IndexError (kind ++ " index out of range") in
  if (j <? 0) || (n <=? j) then Raise out_of_range
  else match nth_error l (Z.to_nat j) with
       | Some a => Ok a
       | None => Raise out_of_range
       end.

(** [l[k]] on a list. *)
Definition py_getitem {A} (l : list A) (k : Z) : result A :=
  getitem "list" l k.

(** A [str] of glyphs is a list of code points. *)
Definition char := N.

(** [s[k]] on a [str]. *)
Definition str_getitem (s : list char) (k : Z) : result char :=
  getitem "string" s k.

(** [str(n)] of an int. *)
Definition string_of_Z (z : Z) : string := NilZero.string_of_int (Z.to_int z).

(** [range(n)]. *)
Definition range (n : Z) : list Z := map Z.of_nat (seq 0 (Z.to_nat n)).

(** [min(l)] keeps the first item and replaces it by a later one only when
    that one is strictly smaller; [max(l)] likewise with strictly greater. *)
Definition py_min {A} (less : A -> A -> bool) (l : list A) : result A :=
  match l with
  | [] => Raise (Exn ValueError "min() arg is an empty sequence")
  | x :: l' => Ok (fold_left (fun m y => if less y m then y else m) l' x)
  end.

Definition py_max {A} (less : A -> A -> bool) (l : list A) : result A :=
  match l with
  | [] => Raise (Exn ValueError "max() arg is an empty sequence")
  | x :: l' => Ok (fold_left (fun m y => if less m y then y else m) l' x)
  end.

(** ** Arithmetic *)

(** The operations of a Python number that the program uses.  [num_true_div]
    is [/] between two ints and [num_div] is [/] between two numbers; both
    raise ZeroDivisionError.  [num_to_int] is [int(x)], truncation toward
    zero, which raises on a value that is not finite. *)
Record Arith := {
  num : Type;
  num_of_int : Z -> num;
  num_true_div : Z -> Z -> result num;
  num_add : num -> num -> num;
  num_sub : num -> num -> num;
  num_mul : num -> num -> num;
  num_div : num -> num -> result num;
  num_lt : num -> num -> bool;
  num_eq : num -> num -> bool;
  num_to_int : num -> result Z
}.

Definition Qlt_bool (x y : Q) : bool := negb (Qle_bool y x).

Definition Qtrunc (q : Q) : Z :=
  if Qle_bool 0 q then Qfloor q else Qceiling q.

Definition Qdiv_checked (x y : Q) : result Q :=
  if Qeq_bool y 0 then Raise (Exn ZeroDivisionError "division by zero")
  else Ok (x / y)%Q.

Definition Qtrue_div (n d : Z) : result Q :=
  if d =? 0 then Raise (Exn ZeroDivisionError "division by zero")
  else Ok (inject_Z n / inject_Z d)%Q.

(** Arithmetic without rounding: what the floats of the program
    approximate.  Here the stride [len(values) / width] and the quotient
    [(v - lo) / (hi - lo)] are the rational numbers, where CPython has
    their nearest floats. *)
Definition exact : Arith := {|
  num := Q;
  num_of_int := inject_Z;
  num_true_div := Qtrue_div;
  num_add := Qplus;
  num_sub := Qminus;
  num_mul := Qmult;
  num_div := Qdiv_checked;
  num_lt := Qlt_bool;
  num_eq := Qeq_bool;
  num_to_int := fun q => Ok (Qtrunc q)
|}.

(** [float(z)]: the binary64 value nearest to [z], ties to even. *)
Definition float_of_Z (z : Z) : float :=
  SF2Prim (binary_normalize prec emax z 0 false).

Definition float_div_checked (x y : float) : result float :=
  if PrimFloat.eqb y 0%float
  then Raise (Exn ZeroDivisionError "float division by zero")
  else Ok (PrimFloat.div x y).

(** [n / d] on ints.  CPython rounds the exact quotient once; for operands
    below 2^53 in size that is the quotient of the two floats. *)
Definition float_true_div (n d : Z) : result float :=
  if d =? 0 then Raise (Exn ZeroDivisionError "division by zero")
  else Ok (PrimFloat.div (float_of_Z n) (float_of_Z d)).

(** [int(x)] on a float. *)
Definition float_to_int (x : float) : result Z :=
  match Prim2SF x with
  | S754_zero _ => Ok 0
  | S754_infinity _ =>
      Raise (Exn OverflowError "cannot convert float infinity to integer")
  | S754_nan => Raise (Exn ValueError "cannot convert float NaN to integer")
  | S754_finite s m e =>
      let a := if 0 <=? e then Z.pos m * 2 ^ e else Z.pos m / 2 ^ (- e) in
      Ok (if s then - a else a)
  end.

(** The rational that a float with sign [s], mantissa [m] and exponent [e]
    stands for. *)
Definition finite_value (s : bool) (m : positive) (e : Z) : Q :=
  ((if s then - inject_Z (Z.pos m) else inject_Z (Z.pos m)) * 2 ^ e)%Q.

(** The float that [json.loads] reads a number of the payload as: the
    binary64 value nearest to it, a tie going to the even mantissa.  (A
    number written without fraction or exponent is read as an [int]; below
    2^53 in size it behaves in the arithmetic of this program as its
    float.) *)
Definition float_of_Q (q : Q) : float :=
  match Qnum q with
  | 0 => 0%float
  | Z.pos n =>
      SF2Prim (SFdiv prec emax (S754_finite false n 0)
                 (S754_finite false (Qden q) 0))
  | Z.neg n =>
      SF2Prim (SFdiv prec emax (S754_finite true n 0)
                 (S754_finite false (Qden q) 0))
  end.

(** IEEE 754 double precision, round to nearest even. *)
Definition binary64 : Arith := {|
  num := float;
  num_of_int := float_of_Z;
  num_true_div := float_true_div;
  num_add := PrimFloat.add;
  num_sub := PrimFloat.sub;
  num_mul := PrimFloat.mul;
  num_div := float_div_checked;
  num_lt := PrimFloat.ltb;
  num_eq := PrimFloat.eqb;
  num_to_int := float_to_int
|}.

(** ** Sparkline quantizer *)

(** SPARK: the block elements U+2581 .. U+2588, lowest to highest. *)
Definition SPARK : list char :=
  [0x2581; 0x2582; 0x2583; 0x2584; 0x2585; 0x2586; 0x2587; 0x2588]%N.

Section Sparkline.
Variable A : Arith.

(** Lines 52-56 (plain), 59-63 (rich): fit the samples to [width].
<<
    if len(values) > width:
        step = len(values) / width
        vals = [values[int(i*step)] for i in range(width)]
    else:
        vals = values + [values[-1]]*(width - len(values))
>> *)
Definition resample (values : list (num A)) (width : Z)
  : result (list (num A)) :=
  if width <? len values then
    step <- num_true_div A (len values) width ;;
    mapM (fun i => k <- num_to_int A (num_mul A (num_of_int A i) step) ;;
                   py_getitem values k)
         (range width)
  else
    last <- py_getitem values (-1) ;;
    Ok (values ++ repeat last (Z.to_nat (width - len values))).

(** [int((v - lo) / (hi - lo) * (len(SPARK)-1))] *)
Definition level (lo hi v : num A) : result Z :=
  q <- num_div A (num_sub A v lo) (num_sub A hi lo) ;;
  num_to_int A (num_mul A q (num_of_int A (len SPARK - 1))).

End Sparkline.

(** ** JSON payloads *)

(** One key of a dict: absent, bound to [None], or bound to a value. *)
Inductive field (A : Type) :=
| Absent
| Null
| Val (a : A).
Arguments Absent {A}.
Arguments Null {A}.
Arguments Val {A} a.

(** [d.get(key)]: [None] unless the key is bound to a value. *)
Definition get {A} (f : field A) : option A :=
  match f with Val a => Some a | _ => None end.

(** [d.get(key, default)]: the default stands in only for an absent key. *)
Definition get_or {A} (f : field A) (default : A) : option A :=
  match f with Absent => Some default | Null => None | Val a => Some a end.

(** The value a dict literal binds to a key when it is given [d.get(key)]:
    the key is always present afterwards. *)
Definition nullable {A} (f : field A) : field A :=
  match f with Val a => Val a | _ => Null end.

(** An element of a "weather" array: condition category and description. *)
Record wobj := {
  w_main : field string;
  w_description : field string
}.

(** The empty dict [{}]. *)
Definition empty_wobj : wobj := {| w_main := Absent; w_description := Absent |}.

(** The "main" object of a /weather or /forecast entry. *)
Record main_obj := {
  m_temp : field Q;
  m_feels_like : field Q;
  m_temp_min : field Q;
  m_temp_max : field Q;
  m_humidity : field Z
}.

Definition empty_main : main_obj :=
  {| m_temp := Absent; m_feels_like := Absent; m_temp_min := Absent;
     m_temp_max := Absent; m_humidity := Absent |}.

(** One entry of the /forecast "list": a 3-hour step. *)
Record fitem := {
  f_dt : field Z;
  f_main : option main_obj;           (* None: no "main" key *)
  f_weather : option (list wobj)      (* None: no "weather" key *)
}.

(** The /forecast payload; [None]: no "list" key. *)
Record forecast_payload := { fr_list : option (list fitem) }.

(** The /weather payload. *)
Record weather_payload := {
  c_dt : field Z;
  c_main : option main_obj;
  c_wind_speed : option (field Q);     (* None: no "wind" key *)
  c_weather : option (list wobj)
}.

(** *** The OneCall-shaped dict the renderers read *)

Record current_obj := {
  cur_dt : field Z;
  cur_temp : field Q;
  cur_feels_like : field Q;
  cur_humidity : field Z;
  cur_wind_speed : field Q;
  cur_weather : field (list wobj)
}.

Record hourly_entry := {
  h_dt : option Z;
  h_temp : option Q;
  h_weather : list wobj
}.

Record daily_entry := {
  d_dt : Z;
  d_min : option Q;
  d_max : option Q;
  d_weather : list wobj
}.

Record owm_data := {
  current : field current_obj;
  hourly : field (list hourly_entry);
  daily : field (list daily_entry);
  timezone_offset : field Z
}.

(** ** Forecast normalizer (fetch_weather_and_forecast, after the requests) *)

(** Lines 110-114 (plain), 111-115 (rich). *)
Definition hourly_of_item (item : fitem) : hourly_entry :=
  {| h_dt := get (f_dt item);
     h_temp := get (m_temp (match f_main item with
                            | Some m => m | None => empty_main end));
     h_weather := match f_weather item with Some w => w | None => [] end |}.

(** Lines 107-116: the loop appends and leaves once 24 entries are held. *)
Fixpoint hourly_loop (items : list fitem) (hourly : list hourly_entry)
  : list hourly_entry :=
  match items with
  | [] => hourly
  | item :: rest =>
      let hourly' := hourly ++ [hourly_of_item item] in
      if 24 <=? len hourly' then hourly' else hourly_loop rest hourly'
  end.

(** The number of passes the padding loop has left. *)
Definition pad_measure (hourly : list hourly_entry) : nat :=
  Z.to_nat (24 - len hourly).
Arguments pad_measure : simpl never.

(** Lines 120-121: [while len(hourly) < 24: hourly.append(last)].  Each
    pass brings the length one closer to 24. *)
Equations? pad_loop (hourly : list hourly_entry) (last : hourly_entry)
  : list hourly_entry by wf (pad_measure hourly) lt :=
  pad_loop hourly last with Z_lt_dec (len hourly) 24 => {
    | left _ := pad_loop (hourly ++ [last]) last;
    | right _ := hourly }.
Proof.
  unfold pad_measure, len in *. rewrite length_app, Nat2Z.inj_add.
  change (Z.of_nat (List.length [last])) with 1. lia.
Qed.

(** [fr.get("list", [])]. *)
Definition forecast_items (fr : forecast_payload) : list fitem :=
  match fr_list fr with Some l => l | None => [] end.

(** Lines 105-121. *)
Definition build_hourly (fr : forecast_payload) : list hourly_entry :=
  let hourly := hourly_loop (forecast_items fr) [] in
  match hourly with
  | [] => hourly
  | h :: _ =>
      if len hourly <? 24 then pad_loop hourly (List.last hourly h)
      else hourly
  end.

(** The year of the proleptic Gregorian calendar, with a year 0, in which
    the second [dt] after 1970-01-01 00:00 UTC lies. *)
Definition civil_year (dt : Z) : Z :=
  let z := dt / 86400 + 719468 in
  let era := z / 146097 in
  let doe := z - era * 146097 in
  let yoe := (doe - doe / 1460 + doe / 36524 - doe / 146096) / 365 in
  let doy := doe - (365 * yoe + yoe / 4 - yoe / 100) in
  let mp := (5 * doy + 2) / 153 in
  yoe + era * 400 + (if mp <? 10 then 0 else 1).

(** What [utcfromtimestamp] (and [fromtimestamp] with a time zone) raises on
    a timestamp outside the years 1..9999, as CPython 3.11 does where
    [time_t] has 64 bits and [gmtime] keeps the year, less 1900, in a C
    [int]: OverflowError when [dt] is no [time_t], OSError when [gmtime]
    fails, else ValueError with the year, which CPython computes in a C
    [int], too. *)
Definition timestamp_error (dt : Z) : exn :=
  if (dt <? - 2 ^ 63) || (2 ^ 63 <=? dt)
  then Exn OverflowError "timestamp out of range for platform time_t"
  else if (dt <? -67768040609740800) || (67768036191676799 <? dt)
  then Exn OSError "[Errno 75] Value too large for defined data type"
  else
    let year := (civil_year dt + 2 ^ 31) mod 2 ^ 32 - 2 ^ 31 in
    Exn ValueError ("year " ++ string_of_Z year ++ " is out of range").

(** [datetime.utcfromtimestamp(dt).date()], as the number of days since
    1970-01-01; dates are ordered as these numbers are.  A timestamp outside
    the years 1..9999 raises. *)
Definition utc_date (dt : Z) : result Z :=
  if (-62135596800 <=? dt) && (dt <=? 253402300799)
  then Ok (dt / 86400)
  else Raise (timestamp_error dt).

(** A value of [daily_map]. *)
Record group := {
  temps : list (option Q * option Q);
  weathers : list wobj;
  dts : list Z
}.

Definition empty_group : group := {| temps := []; weathers := []; dts := [] |}.

(** A dict keyed by date, in insertion order. *)
Definition daily_map_t := list (Z * group).

Fixpoint lookup (m : daily_map_t) (day : Z) : option group :=
  match m with
  | [] => None
  | (k, g) :: m' => if k =? day then Some g else lookup m' day
  end.

(** [entry = daily_map.setdefault(day, empty)] followed by the three appends
    to [entry], which update the dict's value in place. *)
Fixpoint daily_map_append (m : daily_map_t) (day : Z)
  (t : option Q * option Q) (w : wobj) (dt : Z) : daily_map_t :=
  let push g := {| temps := temps g ++ [t];
                   weathers := weathers g ++ [w];
                   dts := dts g ++ [dt] |} in
  match m with
  | [] => [(day, push empty_group)]
  | (k, g) :: m' =>
      if k =? day then (k, push g) :: m'
      else (k, g) :: daily_map_append m' day t w dt
  end.

(** Lines 125-133 (plain), 126-135 (rich): one pass over the entries. *)
Fixpoint daily_map_loop (items : list fitem) (m : daily_map_t)
  : result daily_map_t :=
  match items with
  | [] => Ok m
  | item :: rest =>
      dt <- match f_dt item with
            | Val dt => Ok dt
            | _ => Raise (Exn TypeError
                            "'NoneType' object cannot be interpreted as an integer")
            end ;;
      day <- utc_date dt ;;
      let t := match f_main item with Some m => m | None => empty_main end in
      w <- py_getitem (match f_weather item with
                       | Some ws => ws | None => [empty_wobj] end) 0 ;;
      daily_map_loop rest
        (daily_map_append m day (get (m_temp_min t), get (m_temp_max t)) w dt)
  end.

(** [sorted(keys)]. *)
Fixpoint insert_key (k : Z) (l : list Z) : list Z :=
  match l with
  | [] => [k]
  | x :: l' => if k <? x then k :: l else x :: insert_key k l'
  end.

Definition py_sorted (l : list Z) : list Z :=
  fold_left (fun acc k => insert_key k acc) l [].

Definition somes {A} (l : list (option A)) : list A :=
  flat_map (fun o => match o with Some a => [a] | None => [] end) l.

Definition opt_of {A} (r : result A) : option A :=
  match r with Ok a => Some a | Raise _ => None end.

(** Lines 137-152 (plain), 139-151 (rich): the body of the loop over the
    sorted dates.  [now] is [int(time.time())]. *)
Definition daily_of_group (now : Z) (g : group) : result daily_entry :=
  let mins := somes (map fst (temps g)) in
  let maxs := somes (map snd (temps g)) in
  let tmin := match mins with [] => None | _ => opt_of (py_min Qlt_bool mins) end in
  let tmax := match maxs with [] => None | _ => opt_of (py_max Qlt_bool maxs) end in
  let mid_idx := len (weathers g) / 2 in
  w <- match weathers g with
       | [] => Ok empty_wobj
       | _ => py_getitem (weathers g) mid_idx
       end ;;
  dt_val <- match dts g with
            | [] => Ok now
            | _ => py_getitem (dts g) mid_idx
            end ;;
  Ok {| d_dt := dt_val; d_min := tmin; d_max := tmax; d_weather := [w] |}.

(** Lines 124-152. *)
Definition build_daily (now : Z) (fr : forecast_payload)
  : result (list daily_entry) :=
  daily_map <- daily_map_loop (forecast_items fr) [] ;;
  mapM (fun day =>
          match lookup daily_map day with
          | Some g => daily_of_group now g
          | None => Raise (Exn KeyError "day")
          end)
       (py_sorted (map fst daily_map)).

(** Lines 155-168: the dict that is returned. *)
Definition normalize (now : Z) (cur : weather_payload)
  (fr : forecast_payload) : result owm_data :=
  let hourly := build_hourly fr in
  daily <- build_daily now fr ;;
  let main := match c_main cur with Some m => m | None => empty_main end in
  Ok {| current := Val {|
          cur_dt := nullable (c_dt cur);
          cur_temp := nullable (m_temp main);
          cur_feels_like := nullable (m_feels_like main);
          cur_humidity := nullable (m_humidity main);
          cur_wind_speed := match c_wind_speed cur with
                            | Some s => nullable s | None => Null end;
          cur_weather := Val (match c_weather cur with
                              | Some ws => ws | None => [] end) |};
        hourly := Val hourly;
        daily := Val daily;
        timezone_offset := Val 0 |}.

(** ** The network and the terminal *)

(** One candidate of the geocoding response. *)
Record geo_match := {
  g_lat : field Q;
  g_lon : field Q;
  g_name : field string;
  g_country : field string
}.

(** A GET request, with what the URL is built from. *)
Inductive request :=
| GetGeocode (city : string)
| GetOneCall (lat lon : option Q) (units : string)
| GetWeather (lat lon : option Q) (units : string)
| GetForecast (lat lon : option Q) (units : string)
| GetWttr (query : string).

(** A response object: [r.status_code], the text of the HTTPError that
    [r.raise_for_status()] would raise, and [r.json()]. *)
Record response (B : Type) := {
  status_code : Z;
  error_text : string;
  json : B
}.
Arguments status_code {B} r.
Arguments error_text {B} r.
Arguments json {B} r.

(** What [requests.get] does: it returns a response, or raises a
    RequestException that is not an HTTPError (timeout, connection failure). *)
Inductive reply (B : Type) :=
| Responded (r : response B)
| Failed (msg : string).
Arguments Responded {B} r.
Arguments Failed {B} msg.

(** The world outside the program.  Every endpoint answers as a function of
    the requests sent before (so a retry may be answered differently) and of
    the request's own parameters. *)
Record environment := {
  geocode_api : list request -> string -> reply (list geo_match);
  onecall_api : list request -> option Q -> option Q -> string -> reply owm_data;
  weather_api : list request -> option Q -> option Q -> string -> reply weather_payload;
  forecast_api : list request -> option Q -> option Q -> string -> reply forecast_payload;
  wttr_api : list request -> string -> reply string;
  time_now : Z;                                  (* int(time.time()) *)
  markup_error : list string -> option string    (* see [Rich.console_check] *)
}.

(** What the program has done so far: the requests sent and the lines
    printed, oldest first. *)
Record world := {
  sent : list request;
  printed : list string
}.

Definition io (A : Type) : Type := environment -> world -> result A * world.

Definition ret {A} (a : A) : io A := fun _ w => (Ok a, w).

Definition bind {A B} (c : io A) (k : A -> io B) : io B :=
  fun env w =>
    match c env w with
    | (Ok a, w') => k a env w'
    | (Raise e, w') => (Raise e, w')
    end.

Definition raise {A} (e : exn) : io A := fun _ w => (Raise e, w).

Definition lift {A} (r : result A) : io A := fun _ w => (r, w).

(** [try: body except C as e: handler e] where [catches] tells whether an
    exception class is a subclass of [C]. *)
Definition try_except {A} (body : io A) (catches : exn_class -> bool)
  (handler : exn -> io A) : io A :=
  fun env w =>
    match body env w with
    | (Raise e, w') =>
        if catches (exn_cls e) then handler e env w' else (Raise e, w')
    | done => done
    end.

Declare Scope io_scope.
Delimit Scope io_scope with io.
Notation "x <~ c ;; k" := (bind c (fun x => k))
  (at level 61, c at next level, right associativity) : io_scope.
Notation "c ;;; k" := (bind c (fun _ => k))
  (at level 61, right associativity) : io_scope.
Open Scope io_scope.

Definition print (line : string) : io unit :=
  fun _ w => (Ok tt, {| sent := sent w; printed := printed w ++ [line] |}).

(** [requests.get(url, timeout=...)]. *)
Definition http_get {B} (req : request)
  (api : environment -> list request -> reply B) : io (response B) :=
  fun env w =>
    let w' := {| sent := sent w ++ [req]; printed := printed w |} in
    match api env (sent w) with
    | Responded r => (Ok r, w')
    | Failed msg => (Raise (Exn RequestException msg), w')
    end.

(** [r.raise_for_status()]: HTTPError on a 4xx or 5xx status. *)
Definition raise_for_status {B} (r : response B) : io unit :=
  if (400 <=? status_code r) && (status_code r <? 600)
  then raise (Exn HTTPError (error_text r))
  else ret tt.

(** [d[key]]: KeyError when the key is absent; [str] of a KeyError is the
    [repr] of the key, which for the keys of this program is the key in
    single quotes. *)
Definition subscript {A} (f : field A) (key : string) : result (option A) :=
  match f with
  | Absent => Raise (Exn KeyError ("'" ++ key ++ "'"))
  | Null => Ok None
  | Val a => Ok (Some a)
  end.

(** ** Data source adapter *)

(** [geocode_owm]. *)
Definition geocode_owm (city : string)
  : io (option Q * option Q * option string * option string) :=
  r <~ http_get (GetGeocode city) (fun env h => geocode_api env h city) ;;
  raise_for_status r ;;;
  match json r with
  | [] => raise (Exn ValueError "City not found")
  | it :: _ =>
      lat <~ lift (subscript (g_lat it) "lat") ;;
      lon <~ lift (subscript (g_lon it) "lon") ;;
      ret (lat, lon, get_or (g_name it) city, get_or (g_country it) EmptyString)
  end.

(** [fetch_weather_and_forecast]. *)
Definition fetch_weather_and_forecast (lat lon : option Q) (units : string)
  : io owm_data :=
  rcur <~ http_get (GetWeather lat lon units)
                   (fun env h => weather_api env h lat lon units) ;;
  raise_for_status rcur ;;;
  rfr <~ http_get (GetForecast lat lon units)
                  (fun env h => forecast_api env h lat lon units) ;;
  raise_for_status rfr ;;;
  fun env => lift (normalize (time_now env) (json rcur) (json rfr)) env.

(** [fetch_onecall].  Both [return] statements are inside the [try] block. *)
Definition fetch_onecall (lat lon : option Q) (units : string) : io owm_data :=
  try_except
    (r <~ http_get (GetOneCall lat lon units)
                   (fun env h => onecall_api env h lat lon units) ;;
     if status_code r =? 200 then ret (json r)
     else fetch_weather_and_forecast lat lon units)
    is_RequestException
    (fun _ => fetch_weather_and_forecast lat lon units).

(** [fetch_wttr_city]. *)
Definition fetch_wttr_city (query : string) : io string :=
  r <~ http_get (GetWttr query) (fun env h => wttr_api env h query) ;;
  raise_for_status r ;;;
  ret (json r).

(** [str(x)] of a value that may be [None]. *)
Definition str_or_None (o : option string) : string :=
  match o with Some s => s | None => "None" end.

(** Truth value of a [str] or [None]. *)
Definition truthy (o : option string) : bool :=
  match o with Some EmptyString | None => false | Some _ => true end.

(** The two handlers that close the [try] statement of the plain variant's
    [main]; they print with [print]. *)
Definition report_errors (body : io unit) : io unit :=
  try_except
    (try_except body is_HTTPError
       (fun e => print ("Network/API error: " ++ exn_msg e)))
    (fun _ => true)
    (fun e => print ("Error: " ++ exn_msg e)).

(** ** Presentation layer: the current-conditions block *)

(** [round(x)] with one argument: the nearest integer, a tie going to the
    even one. *)
Definition py_round (q : Q) : Z :=
  let f := Qfloor q in
  let r := (q - inject_Z f)%Q in
  match (r ?= 1 # 2)%Q with
  | Lt => f
  | Gt => f + 1
  | Eq => if Z.even f then f else f + 1
  end.

(** [round(x)] of a float. *)
Definition float_round (x : float) : result Z :=
  match Prim2SF x with
  | S754_zero _ => Ok 0
  | S754_infinity _ =>
      Raise (Exn OverflowError "cannot convert float infinity to integer")
  | S754_nan => Raise (Exn ValueError "cannot convert float NaN to integer")
  | S754_finite s m e => Ok (py_round (finite_value s m e))
  end.

(** [round(x)] inside an f-string; [x] is [None] when the dict holds null. *)
Definition round_text (x : option Q) : result string :=
  match x with
  | Some q => Ok (string_of_Z (py_round q))
  | None =>
      Raise (Exn TypeError "type NoneType doesn't define __round__ method")
  end.

(** [icons.get(main, "")]; [main] may be [None], which is no key. *)
Fixpoint icon_get (icons : list (string * string)) (main : option string)
  : string :=
  match icons, main with
  | (k, v) :: rest, Some m => if String.eqb k m then v else icon_get rest main
  | _, _ => EmptyString
  end.

(** The empty dict [{}] that [data.get("current", {})] falls back to. *)
Definition empty_current : current_obj :=
  {| cur_dt := Absent; cur_temp := Absent; cur_feels_like := Absent;
     cur_humidity := Absent; cur_wind_speed := Absent; cur_weather := Absent |}.

(** ["°C" if units=="metric" else "°F"]. *)
Definition unit_sym (units : string) : string :=
  if String.eqb units "metric" then "°C"%string else "°F"%string.

(** ['m/s' if units=='metric' else 'mph']. *)
Definition speed_sym (units : string) : string :=
  if String.eqb units "metric" then "m/s"%string else "mph"%string.

(** [cur.get('humidity','—')] inside an f-string. *)
Definition humidity_text (h : field Z) : string :=
  match h with
  | Absent => "—"%string
  | Null => "None"%string
  | Val z => string_of_Z z
  end.

(** Using [None] where an object is needed. *)
Definition not_None {A} (o : option A) (cls : exn_class) (msg : string)
  : result A :=
  match o with Some a => Ok a | None => Raise (Exn cls msg) end.

Section Cap.
(** [str.capitalize]. *)
Variable capitalize : string -> string.

(** [cap]: a value that is no [str] is returned as it is. *)
Definition cap (s : option string) : string :=
  match s with Some s => capitalize s | None => "None"%string end.

End Cap.

(** What both renderers compute first: lines 188-199 (plain), 178-183
    (rich), with the ICON table of the variant. *)
Definition render_prelude (icons : list (string * string)) (data : owm_data)
  : result (current_obj * option Z * string * option string) :=
  cur <- not_None (get_or (current data) empty_current)
           AttributeError "'NoneType' object has no attribute 'get'" ;;
  let tz_offset := get_or (timezone_offset data) 0 in
  ws <- not_None (get_or (cur_weather cur) [empty_wobj])
          TypeError "'NoneType' object is not subscriptable" ;;
  w <- py_getitem ws 0 ;;
  let desc := get_or (w_description w) EmptyString in
  let main := get_or (w_main w) EmptyString in
  let icon := icon_get icons main in
  _ <- not_None (get_or (hourly data) [])
         TypeError "'NoneType' object is not subscriptable" ;;
  Ok (cur, tz_offset, icon, desc).

(** ** Presentation layer: text, formats and slices *)

(** The UTF-8 bytes of a code point. *)
Definition utf8 (c : char) : string :=
  let byte (n : N) := String (ascii_of_N n) EmptyString in
  (if c <? 0x80 then byte c
   else if c <? 0x800 then byte (0xC0 + c / 0x40) ++ byte (0x80 + c mod 0x40)
   else if c <? 0x10000 then
     byte (0xE0 + c / 0x1000) ++ byte (0x80 + (c / 0x40) mod 0x40)
     ++ byte (0x80 + c mod 0x40)
   else
     byte (0xF0 + c / 0x40000) ++ byte (0x80 + (c / 0x1000) mod 0x40)
     ++ byte (0x80 + (c / 0x40) mod 0x40) ++ byte (0x80 + c mod 0x40))%N%string.

(** A [str] of glyphs as text. *)
Definition text_of (glyphs : list char) : string :=
  String.concat EmptyString (map utf8 glyphs).

(** [len(s)] of a [str]: its code points, that is the bytes that do not
    continue one. *)
Fixpoint str_len (s : string) : nat :=
  match s with
  | EmptyString => 0
  | String b s' =>
      ((if (N_of_ascii b / 0x40 =? 2)%N then 0 else 1) + str_len s')%nat
  end.

(** [" " * n]. *)
Fixpoint spaces (n : nat) : string :=
  match n with O => EmptyString | S n' => String " " (spaces n') end.

Section Format.
Variable capitalize : string -> string.

(** [f"{cap(desc):18}"]: a [str] is padded with spaces on the right to 18
    characters; [None], which [cap] returns as it is, has no such format. *)
Definition format_18 (desc : option string) : result string :=
  match desc with
  | Some s =>
      let c := capitalize s in Ok (c ++ spaces (18 - str_len c))%string
  | None =>
      Raise (Exn TypeError
               "unsupported format string passed to NoneType.__format__")
  end.

End Format.

(** [range(a, b)]. *)
Definition range_from (a b : Z) : list Z := map (Z.add a) (range (b - a)).

(** [[h.get("temp") for h in hourly[:24] if h.get("temp") is not None]]. *)
Definition temps24 (hourly : list hourly_entry) : list Q :=
  somes (map h_temp (firstn 24 hourly)).


(** [len(daily)]. *)
Definition len_daily (daily : option (list daily_entry)) : result Z :=
  match daily with
  | Some l => Ok (len l)
  | None => Raise (Exn TypeError "object of type 'NoneType' has no len()")
  end.

(** ** The two programs

    What weather_cli_spark.py and weather_cli_rich.py each define on their
    own, under the names they have there. *)

Module Spark.

(** [ICON], as UTF-8 text. *)
Definition ICON : list (string * string) :=
  [("Thunderstorm", "⛈️"); ("Drizzle", "🌦️"); ("Rain", "🌧️"); ("Snow", "❄️");
   ("Clear", "☀️"); ("Clouds", "☁️"); ("Mist", "🌫️"); ("Smoke", "🌫️");
   ("Haze", "🌫️"); ("Fog", "🌫️"); ("Dust", "🌫️"); ("Ash", "🌋");
   ("Squall", "🌬️"); ("Tornado", "🌪️")]%string.

(** [sparkline]: the index is clamped. *)
Definition sparkline (A : Arith) (values : list (num A)) (width : Z)
  : result (list char) :=
  match values with
  | [] => Ok []
  | _ =>
      vals <- resample A values width ;;
      lo <- py_min (num_lt A) vals ;;
      hi <- py_max (num_lt A) vals ;;
      if num_eq A hi lo then mapM (fun _ => str_getitem SPARK 0) vals
      else mapM (fun v => idx <- level A lo hi v ;;
                          str_getitem SPARK (Z.max 0 (Z.min (len SPARK - 1) idx)))
                vals
  end.

(** [print_banner]. *)
Definition print_banner : io unit :=
  print "================================================" ;;;
  print " Quick Weather — CLI with hourly sparkline" ;;;
  print "================================================".

Section Render.
(** [str.capitalize], and [strftime("%Y-%m-%d %H:%M")] of the UTC time of a
    timestamp. *)
Variable capitalize : string -> string.
Variable strftime_minutes : Z -> string.
(** [strftime("%a %d %b")] of the UTC time of a timestamp. *)
Variable strftime_day : Z -> string.

(** [human_time]. *)
Definition human_time (ts tz_offset : option Z) : result string :=
  match ts, tz_offset with
  | Some ts, Some tz =>
      _ <- utc_date (ts + tz) ;; Ok (strftime_minutes (ts + tz))
  | Some _, None =>
      Raise (Exn TypeError
               "unsupported operand type(s) for +: 'int' and 'NoneType'")
  | None, Some _ =>
      Raise (Exn TypeError
               "unsupported operand type(s) for +: 'NoneType' and 'int'")
  | None, None =>
      Raise (Exn TypeError
               "unsupported operand type(s) for +: 'NoneType' and 'NoneType'")
  end.

(** [render_owm], lines 188-206: everything up to the hourly block. *)
Definition render_owm_current (data : owm_data) (place_label units : string)
  : io unit :=
  p <~ lift (render_prelude ICON data) ;;
  let '(cur, tz_offset, icon, desc) := p in
  print_banner ;;;
  print ("Location: " ++ place_label) ;;;
  time <~ (fun env =>
             lift (human_time (get_or (cur_dt cur) (time_now env)) tz_offset)
                  env) ;;
  print ("Time: " ++ time) ;;;
  print EmptyString ;;;
  print (icon ++ " " ++ cap capitalize desc) ;;;
  temp <~ lift (round_text (get_or (cur_temp cur) 0%Q)) ;;
  feels <~ lift (round_text (get_or (cur_feels_like cur) 0%Q)) ;;
  print ("Temp: " ++ temp ++ unit_sym units
         ++ "  Feels: " ++ feels ++ unit_sym units) ;;;
  wind <~ lift (round_text (get_or (cur_wind_speed cur) 0%Q)) ;;
  print ("Humidity: " ++ humidity_text (cur_humidity cur) ++ "%  Wind: "
         ++ wind ++ " " ++ speed_sym units).

(** [render_owm], lines 219-223: the line of one forecast day.  A daily
    entry has the keys the fallback gives it ("dt", "temp" with "min" and
    "max", "weather"), so no default stands in. *)
Definition forecast_line (tz_offset : option Z) (units : string)
  (d : daily_entry) : result string :=
  tz <- not_None tz_offset TypeError
          "unsupported operand type(s) for +: 'int' and 'NoneType'" ;;
  _ <- utc_date (d_dt d + tz) ;;
  w <- py_getitem (d_weather d) 0 ;;
  let mdesc := get_or (w_description w) EmptyString in
  tmax <- round_text (d_max d) ;;
  tmin <- round_text (d_min d) ;;
  cell <- format_18 capitalize mdesc ;;
  Ok (strftime_day (d_dt d + tz) ++ ": " ++ cell ++ "  "
      ++ tmax ++ unit_sym units ++ "/" ++ tmin ++ unit_sym units)%string.

(** Lines 217-223: [for i in range(1,4)], left at the first [i] that is
    not an index of [daily]; each pass prints its line. *)
Fixpoint forecast_lines (tz_offset : option Z) (units : string)
  (daily : option (list daily_entry)) (indices : list Z) : io unit :=
  match indices with
  | [] => ret tt
  | i :: rest =>
      n <~ lift (len_daily daily) ;;
      if n <=? i then ret tt
      else
        d <~ lift (py_getitem (match daily with Some l => l | None => [] end) i) ;;
        line <~ lift (forecast_line tz_offset units d) ;;
        print line ;;;
        forecast_lines tz_offset units daily rest
  end.

End Render.

Section Main.
(** The renderers [render_owm] and [render_wttr], and the text of
    [f"{lat},{lon}"]. *)
Variable owm_renderer : owm_data -> string -> string -> io unit.
Variable wttr_renderer : string -> string -> string -> io unit.
Variable coords_text : option Q -> option Q -> string.
(** [USE_OWM]. *)
Variable USE_OWM : bool.

(** [main], lines 281-300: the [try] statement. *)
Definition main_fetch_render (city : option string) (lat lon : option Q)
  (place_label units : string) : io unit :=
  report_errors
    (if USE_OWM && truthy city then
       let city := str_or_None city in
       geo <~ geocode_owm city ;;
       let '(lat, lon, name, country) := geo in
       let place_label :=
         if truthy country
         then (str_or_None name ++ ", " ++ str_or_None country)%string
         else str_or_None name in
       data <~ fetch_onecall lat lon units ;;
       owm_renderer data place_label units
     else if USE_OWM && (match lat with Some _ => true | None => false end) then
       data <~ fetch_onecall lat lon units ;;
       owm_renderer data place_label units
     else
       match lat with
       | Some _ =>
           data <~ fetch_wttr_city (coords_text lat lon) ;;
           wttr_renderer data place_label units
       | None =>
           data <~ fetch_wttr_city (str_or_None city) ;;
           wttr_renderer data place_label units
       end).

End Main.

End Spark.

Module Rich.

(** [ICON]. *)
Definition ICON : list (string * string) :=
  [("Thunderstorm", "⛈️"); ("Drizzle", "🌦️"); ("Rain", "🌧️"); ("Snow", "❄️");
   ("Clear", "☀️"); ("Clouds", "☁️"); ("Mist", "🌫️"); ("Haze", "🌫️")]%string.

(** A text in which rich may find a markup tag: one with a "[". *)
Fixpoint has_tag (s : string) : bool :=
  match s with
  | EmptyString => false
  | String c s' => Ascii.eqb c "[" || has_tag s'
  end.

(** What [console.print] checks of the texts it is handed, a [str] or the
    cells of a table.  Rich reads "[...]" in such a text as a markup tag and
    raises MarkupError on a closing tag that closes nothing.  A text
    without "[" has no tag; which of the others rich rejects, and with what
    message, is [markup_error] of the environment. *)
Definition console_check (texts : list string) : io unit :=
  fun env w =>
    if existsb has_tag texts then
      match markup_error env texts with
      | Some msg => (Raise (Exn MarkupError msg), w)
      | None => (Ok tt, w)
      end
    else (Ok tt, w).

(** [console.print(text, style=...)] of a [str].  The world records the
    text as it is handed over; what the terminal shows of it (tags applied
    and taken out, emoji codes replaced, long lines wrapped) is rich's. *)
Definition console_print (text : string) : io unit :=
  console_check [text] ;;; print text.

(** The two handlers that close [main]'s [try] statement.  They print with
    [console.print]; an exception raised by a handler leaves [main]. *)
Definition report_errors (body : io unit) : io unit :=
  fun env w =>
    match body env w with
    | (Raise e, w') =>
        if is_HTTPError (exn_cls e)
        then console_print ("Network/API error: " ++ exn_msg e) env w'
        else console_print ("Error: " ++ exn_msg e) env w'
    | done => done
    end.

(** [sparkline]: the index is used as computed. *)
Definition sparkline (A : Arith) (values : list (num A)) (width : Z)
  : result (list char) :=
  match values with
  | [] => Ok []
  | _ =>
      vals <- resample A values width ;;
      lo <- py_min (num_lt A) vals ;;
      hi <- py_max (num_lt A) vals ;;
      if num_eq A hi lo then mapM (fun _ => str_getitem SPARK 0) vals
      else mapM (fun v => idx <- level A lo hi v ;; str_getitem SPARK idx) vals
  end.

Section Render.
Variable capitalize : string -> string.
Variable strftime_minutes : Z -> string.
Variable strftime_day : Z -> string.

(** [human_time]: [None] and 0 are replaced. *)
Definition human_time (now : Z) (ts tz_offset : option Z) : result string :=
  let ts := match ts with Some 0 | None => now | Some t => t end in
  let tz := match tz_offset with Some t => t | None => 0 end in
  _ <- utc_date (ts + tz) ;; Ok (strftime_minutes (ts + tz)).

(** [render_rich_owm], lines 178-192: the panel that is printed and the rows
    of the left table. *)
Definition render_rich_owm_current (data : owm_data)
  (place_label units : string) : io (list (string * string)) :=
  p <~ lift (render_prelude ICON data) ;;
  let '(cur, tz_offset, icon, desc) := p in
  time <~ (fun env =>
             lift (human_time (time_now env)
                     (get_or (cur_dt cur) (time_now env)) tz_offset) env) ;;
  print (place_label ++ "  " ++ time) ;;;
  temp <~ lift (round_text (get_or (cur_temp cur) 0%Q)) ;;
  feels <~ lift (round_text (get_or (cur_feels_like cur) 0%Q)) ;;
  wind <~ lift (round_text (get_or (cur_wind_speed cur) 0%Q)) ;;
  ret [("Condition", icon ++ " " ++ cap capitalize desc);
       ("Temp", temp ++ unit_sym units ++ " (feels " ++ feels
                ++ unit_sym units ++ ")");
       ("Humidity", humidity_text (cur_humidity cur) ++ "%");
       ("Wind", wind ++ " " ++ speed_sym units)]%string.

(** [render_rich_owm], lines 194-198: the row of the hourly sparkline,
    computed on the temperatures as floats. *)
Definition next_24h_row (temps24 : list Q) (units : string)
  : result (string * string) :=
  match map float_of_Q temps24 with
  | [] => Ok ("Next 24h", "—")%string
  | temps =>
      spark <- sparkline binary64 temps 36 ;;
      lo <- py_min PrimFloat.ltb temps ;;
      mn <- float_round lo ;;
      hi <- py_max PrimFloat.ltb temps ;;
      mx <- float_round hi ;;
      Ok ("Next 24h",
          text_of spark ++ "  min " ++ string_of_Z mn
          ++ unit_sym units ++ " max " ++ string_of_Z mx
          ++ unit_sym units)%string
  end.

(** Lines 204-209: the row of one forecast day; a maximum or minimum that
    is [None] is shown as 0.  A daily entry has the keys the fallback
    gives it ("dt", "temp" with "min" and "max", "weather"). *)
Definition forecast_row (tz_offset : option Z) (units : string)
  (d : daily_entry) : result (string * string) :=
  let ts := d_dt d + match tz_offset with Some t => t | None => 0 end in
  _ <- utc_date ts ;;
  w <- py_getitem (d_weather d) 0 ;;
  let desc := get_or (w_description w) EmptyString in
  let tmax := match d_max d with Some q => py_round q | None => 0 end in
  let tmin := match d_min d with Some q => py_round q | None => 0 end in
  cell <- format_18 capitalize desc ;;
  Ok ("[bold]" ++ strftime_day ts ++ "[/bold]",
      cell ++ " " ++ string_of_Z tmax ++ unit_sym units ++ "/"
      ++ string_of_Z tmin ++ unit_sym units)%string.

(** Lines 202-209: [for i in range(1,4)], left at the first [i] that is
    not an index of [daily]; each pass adds its row. *)
Fixpoint forecast_rows (tz_offset : option Z) (units : string)
  (daily : option (list daily_entry)) (indices : list Z)
  : result (list (string * string)) :=
  match indices with
  | [] => Ok []
  | i :: rest =>
      n <- len_daily daily ;;
      if n <=? i then Ok []
      else
        d <- py_getitem (match daily with Some l => l | None => [] end) i ;;
        row <- forecast_row tz_offset units d ;;
        rows <- forecast_rows tz_offset units daily rest ;;
        Ok (row :: rows)
  end.



End Render.

Section Main.
(** The renderers [render_rich_owm] and [render_rich_wttr]. *)
Variable owm_renderer : owm_data -> string -> string -> io unit.
Variable wttr_renderer : string -> string -> string -> io unit.
(** [USE_OWM]. *)
Variable USE_OWM : bool.

(** [main], lines 255-267: the [try] statement. *)
Definition main_fetch_render (city : option string)
  (place_label units : string) : io unit :=
  report_errors
    (if USE_OWM && truthy city then
       let city := str_or_None city in
       geo <~ geocode_owm city ;;
       let '(lat, lon, name, country) := geo in
       let place_label :=
         if truthy country
         then (str_or_None name ++ ", " ++ str_or_None country)%string
         else str_or_None name in
       data <~ fetch_onecall lat lon units ;;
       owm_renderer data place_label units
     else
       data <~ fetch_wttr_city (str_or_None city) ;;
       wttr_renderer data place_label units).

End Main.

End Rich.

(** ** Vocabulary of the properties *)

(** [a*v + b]. *)
Definition affine (A : Arith) (a b v : num A) : num A :=
  num_add A (num_mul A a v) b.

(** The float that Python reads [1.8] as: the binary64 value nearest to 9/5. *)
Definition float_1_8 : float := 0x1.ccccccccccccdp+0%float.

(** The first glyph of the palette. *)
Definition lowest_glyph : char := 0x2581%N.

(** The "main" object of a forecast entry, [{}] when there is none. *)
Definition item_main (it : fitem) : main_obj :=
  match f_main it with Some m => m | None => empty_main end.

(** The UTC date of a forecast entry, when it has a timestamp that
    [utcfromtimestamp] accepts. *)
Definition item_day (it : fitem) : option Z :=
  match f_dt it with Val dt => opt_of (utc_date dt) | _ => None end.

(** [item.get("weather",[{}])[0]], when there is such an element. *)
Definition item_weather (it : fitem) : option wobj :=
  match f_weather it with
  | Some (w :: _) => Some w
  | Some [] => None
  | None => Some empty_wobj
  end.

(** A forecast entry the daily loop accepts: it has a timestamp in range
    and its "weather" array, when present, is not empty. *)
Definition well_formed (it : fitem) : bool :=
  match item_day it, item_weather it with
  | Some _, Some _ => true
  | _, _ => false
  end.

(** The entry's timestamp falls on [day]. *)
Definition on_day (day : Z) (it : fitem) : bool :=
  match item_day it with Some d => d =? day | None => false end.

(** [(temp_min, temp_max)] of an entry, each [None] when null or absent. *)
Definition item_temps (it : fitem) : option Q * option Q :=
  (get (m_temp_min (item_main it)), get (m_temp_max (item_main it))).

Definition item_dt (it : fitem) : Z :=
  match f_dt it with Val dt => dt | _ => 0 end.

Definition item_wobj (it : fitem) : wobj :=
  match item_weather it with Some w => w | None => empty_wobj end.

(** The group that [daily_map] holds for a date once the entries [es] were
    added to [g]. *)
Definition extend (g : group) (es : list fitem) : group :=
  {| temps := temps g ++ map item_temps es;
     weathers := weathers g ++ map item_wobj es;
     dts := dts g ++ map item_dt es |}.

Definition group_at (m : daily_map_t) (day : Z) : group :=
  match lookup m day with Some g => g | None => empty_group end.

(** What a daily entry [d] says of [es], the forecast entries of its date in
    payload order: the extremes of the temperatures that are not null, and
    the timestamp and weather of the entry in the middle. *)
Definition summarizes (es : list fitem) (d : daily_entry) : Prop :=
  let mins := somes (map (fun it => fst (item_temps it)) es) in
  let maxs := somes (map (fun it => snd (item_temps it)) es) in
  (d_min d = None <-> mins = [])
  /\ (forall m, d_min d = Some m ->
        In m mins /\ forall x, In x mins -> (m <= x)%Q)
  /\ (d_max d = None <-> maxs = [])
  /\ (forall m, d_max d = Some m ->
        In m maxs /\ forall x, In x maxs -> (x <= m)%Q)
  /\ exists it, nth_error es (List.length es / 2) = Some it
       /\ d_dt d = item_dt it /\ d_weather d = [item_wobj it].

(** A request to the primary (OneCall) endpoint. *)
Definition is_onecall (r : request) : bool :=
  match r with GetOneCall _ _ _ => true | _ => false end.

(** The world after one more request. *)
Definition send (w : world) (req : request) : world :=
  {| sent := sent w ++ [req]; printed := printed w |}.

Definition raises_RequestException {A} (r : result A) : bool :=
  match r with Raise e => is_RequestException (exn_cls e) | Ok _ => false end.

(** A status that [raise_for_status] lets pass. *)
Definition http_ok {B} (r : response B) : bool :=
  negb ((400 <=? status_code r) && (status_code r <? 600)).

(** What padding does to a string of glyphs: [k] more of its last one. *)
Definition pad_glyphs (k : nat) (out : list char) : list char :=
  out ++ repeat (List.last out lowest_glyph) k.

(** The indices [int(i*step)] for [i] in [range(width)], with
    [step = n / width], as the stride computes them. *)
Definition strides (A : Arith) (n width : Z) : result (list Z) :=
  step <- num_true_div A n width ;;
  mapM (fun i => num_to_int A (num_mul A (num_of_int A i) step)) (range width).

(** What the daily loop raises on an entry it does not accept: TypeError
    for a timestamp that is absent or null, the exception of
    [utcfromtimestamp] for one out of range, IndexError for an empty
    "weather" array. *)
Definition rejection (it : fitem) : exn :=
  match f_dt it with
  | Val dt =>
      match utc_date dt with
      | Raise e => e
      | Ok _ => Exn IndexError "list index out of range"
      end
  | _ => Exn TypeError "'NoneType' object cannot be interpreted as an integer"
  end.

(** The temperature an hourly entry gets from a forecast entry. *)
Definition item_temp (it : fitem) : option Q := get (m_temp (item_main it)).

(** The response is there and [raise_for_status] lets it pass. *)
Definition passes {B} (r : reply B) : bool :=
  match r with Responded r => http_ok r | Failed _ => false end.

(** [f"{name}, {country}" if country else name], as it is shown. *)
Definition place_of (name country : option string) : string :=
  if truthy country
  then (str_or_None name ++ ", " ++ str_or_None country)%string
  else str_or_None name.

(** The world after a line was printed. *)
Definition reported (w : world) (line : string) : world :=
  {| sent := sent w; printed := printed w ++ [line] |}.

(** Printing one line after the other until one cannot be made. *)
Fixpoint print_each (lines : list (result string)) : io unit :=
  match lines with
  | [] => ret tt
  | r :: rest => line <~ lift r ;; print line ;;; print_each rest
  end.


(** The computation ends without an exception. *)
Definition returns {X} (r : result X) : bool :=
  match r with Ok _ => true | Raise _ => false end.




(** *** Floats of small integers *)

(** The integers [a .. b]. *)
Definition zrange (a b : Z) : list Z :=
  map (fun i => a + Z.of_nat i) (seq 0 (Z.to_nat (b - a + 1))).

(** [float(z)] for every [z] of [zs]. *)
Definition float_table (zs : list Z) : list (Z * float) :=
  map (fun z => (z, float_of_Z z)) zs.

Definition float_at (table : list (Z * float)) (first z : Z) : float :=
  snd (nth (Z.to_nat (z - first)) table (0, nan)).

(** The floats of the integers -128 .. 128 and -256 .. 256, computed once. *)
Definition sample_floats : list (Z * float) :=
  Eval vm_compute in float_table (zrange (-128) 128).

Definition diff_floats : list (Z * float) :=
  Eval vm_compute in float_table (zrange (-256) 256).

(** Subtraction and comparison of two floats agree with the integers they
    come from. *)
Definition pair_check (a b : Z * float) : bool :=
  PrimFloat.Leibniz.eqb (PrimFloat.sub (snd a) (snd b))
                        (float_at diff_floats (-256) (fst a - fst b))
  && Bool.eqb (PrimFloat.ltb (snd a) (snd b)) (fst a <? fst b)
  && Bool.eqb (PrimFloat.eqb (snd a) (snd b)) (fst a =? fst b).

(** [int(p / q * 7)] on floats is the integer quotient [7 * p / q]. *)
Definition quot_check (q p : Z * float) : bool :=
  if (fst p <? 0) || (fst q <? fst p) || (fst q <=? 0) then true else
  match rbind (float_div_checked (snd p) (snd q))
              (fun x => float_to_int (PrimFloat.mul x 7%float)) with
  | Ok k => k =? 7 * fst p / fst q
  | Raise _ => false
  end.

(** The working set of an input that is not longer than the width. *)
Definition padded (zs : list Z) (W : Z) : list Z :=
  zs ++ repeat (List.last zs 0) (Z.to_nat (W - len zs)).

(** The stride indices on floats, the floats of the integers from 0 on read
    from the table. *)
Definition table_strides (n width : Z) : result (list Z) :=
  let step := PrimFloat.div (float_at sample_floats (-128) n)
                            (float_at sample_floats (-128) width) in
  mapM (fun p => float_to_int (PrimFloat.mul (snd p) step))
       (firstn (Z.to_nat width) (skipn 128 sample_floats)).

(** Indices that rise strictly from above [prev], stay below the last
    position [n - 1] and are the quotient [i*n/width] or the one before. *)
Fixpoint strides_near (n width i prev : Z) (ks : list Z) : bool :=
  match ks with
  | [] => true
  | k :: ks' =>
      (prev <? k) && (k <? n - 1)
      && ((k =? i * n / width) || (k =? i * n / width - 1))
      && strides_near n width (i + 1) k ks'
  end.

Definition stride_check (n width : Z) : bool :=
  match table_strides n width with
  | Ok ks => strides_near n width 0 (-1) ks
  | Raise _ => false
  end.

(** *** Binary64 values *)

(** The shift a mantissa of [Zdigits2 m] digits at exponent [e] needs. *)
Definition shift_of (m e : Z) : Z :=
  Z.max 0 (fexp prec emax (Zdigits2 m + e) - e).

(** Mantissa and exponent that [binary_round_aux] arrives at. *)
Definition round_me (m e : Z) (l : location) : Z * Z :=
  let '(mrs', e') := shr_fexp prec emax m e l in
  let '(mrs'', e'') :=
    shr_fexp prec emax
      (round_nearest_even (shr_m mrs') (loc_of_shr_record mrs')) e' loc_Exact in
  (shr_m mrs'', e'').

Definition pow2 (e : Z) : Q := (2 ^ e)%Q.

(** The value of a mantissa at an exponent. *)
Definition mant (m e : Z) : Q := (inject_Z m * pow2 e)%Q.

(** The value of a float that is zero or finite. *)
Definition SF2Q (x : spec_float) : Q :=
  match x with
  | S754_finite s m e => mant (cond_Zopp s (Z.pos m)) e
  | _ => 0%Q
  end.

(** The unit roundoff of binary64, twice, and the least positive float. *)
Definition u52 : Q := pow2 (-52).
Definition tiny : Q := pow2 (-1074).

Definition zero_or_finite (x : spec_float) : bool :=
  match x with S754_zero _ | S754_finite _ _ _ => true | _ => false end.

(** [r] is what a value [X], not negative, is rounded to. *)
Definition rounds (X : Q) (r : spec_float) : Prop :=
  match r with
  | S754_nan => False
  | S754_infinity s => s = false /\ (pow2 1023 <= X)%Q
  | S754_zero _ => (X == 0)%Q
  | S754_finite s m e =>
      s = false
      /\ (mant (Z.pos m) e - mant (Z.pos m) e * u52 <= X)%Q
      /\ (X <= mant (Z.pos m) e + mant (Z.pos m) e * u52)%Q
  end.

(** The float 7. *)
Definition seven : spec_float := S754_finite false 7881299347898368 (-50).

(** A float that is zero or finite: neither NaN nor an infinity. *)
Definition finite (x : float) : bool := zero_or_finite (Prim2SF x).

(** Samples no two of which are so far apart that their difference
    overflows; none of them is NaN or an infinity then. *)
Definition differences_finite (samples : list float) : bool :=
  forallb (fun u => forallb (fun v => finite (PrimFloat.sub u v)) samples)
          samples.

(** ** Sample inputs *)

(** A forecast entry at [dt] with the three temperatures. *)
Definition sample_item (dt : Z) (t tmin tmax : Q) : fitem :=
  {| f_dt := Val dt;
     f_main := Some {| m_temp := Val t; m_feels_like := Absent;
                       m_temp_min := Val tmin; m_temp_max := Val tmax;
                       m_humidity := Absent |};
     f_weather := Some [{| w_main := Val "Clouds"%string;
                           w_description := Val "broken clouds"%string |}] |}.

(** [n] entries three hours apart, the first at 2023-11-15 00:00:00 UTC,
    which is day 19676. *)
Definition sample_forecast (n : nat) : forecast_payload :=
  {| fr_list :=
       Some (map (fun i => let z := Z.of_nat i in
                           sample_item (1700006400 + 10800 * z)
                                       (inject_Z z) (inject_Z (z - 1))
                                       (inject_Z (z + 1)))
                 (seq 0 n)) |}.

(** A /weather payload whose "main" object has no "temp". *)
Definition weather_without_temp : weather_payload :=
  {| c_dt := Val 1700006400;
     c_main := Some {| m_temp := Absent; m_feels_like := Val 11%Q;
                       m_temp_min := Absent; m_temp_max := Absent;
                       m_humidity := Val 80 |};
     c_wind_speed := Some (Val 3%Q);
     c_weather := Some [{| w_main := Val "Rain"%string;
                           w_description := Val "light rain"%string |}] |}.

(** A OneCall payload whose "current" object holds "weather" only. *)
Definition onecall_without_numbers : owm_data :=
  {| current := Val {| cur_dt := Val 1700006400; cur_temp := Absent;
                       cur_feels_like := Absent; cur_humidity := Absent;
                       cur_wind_speed := Absent;
                       cur_weather := Val [{| w_main := Val "Rain"%string;
                                              w_description := Val "light rain"%string |}] |};
     hourly := Val [];
     daily := Val [];
     timezone_offset := Val 0 |}.

(** What [normalize] makes of [weather_without_temp]: "temp" is bound to
    [None]. *)
Definition snapshot_without_temp : owm_data :=
  {| current := Val {| cur_dt := Val 1700006400; cur_temp := Null;
                       cur_feels_like := Val 11%Q; cur_humidity := Val 80;
                       cur_wind_speed := Val 3%Q;
                       cur_weather := Val [{| w_main := Val "Rain"%string;
                                              w_description := Val "light rain"%string |}] |};
     hourly := Val [];
     daily := Val [];
     timezone_offset := Val 0 |}.

(** A world in which the geocoder knows no city, OneCall answers 401 and
    the two fallback endpoints answer 200. *)
Definition sample_env : environment :=
  {| geocode_api := fun _ _ =>
       Responded {| status_code := 200; error_text := EmptyString; json := [] |};
     onecall_api := fun _ _ _ _ =>
       Responded {| status_code := 401; error_text := "401 Client Error"%string;
                    json := onecall_without_numbers |};
     weather_api := fun _ _ _ _ =>
       Responded {| status_code := 200; error_text := EmptyString;
                    json := weather_without_temp |};
     forecast_api := fun _ _ _ _ =>
       Responded {| status_code := 200; error_text := EmptyString;
                    json := sample_forecast 5 |};
     wttr_api := fun _ _ =>
       Responded {| status_code := 200; error_text := EmptyString;
                    json := EmptyString |};
     time_now := 1700000000;
     markup_error := fun _ => None |}.

Definition start : world := {| sent := []; printed := [] |}.

(** A /weather payload that has all the current block shows. *)
Definition sample_weather : weather_payload :=
  {| c_dt := Val 1700006400;
     c_main := Some {| m_temp := Val (25 # 2); m_feels_like := Val 11%Q;
                       m_temp_min := Absent; m_temp_max := Absent;
                       m_humidity := Val 80 |};
     c_wind_speed := Some (Val 3%Q);
     c_weather := Some [{| w_main := Val "Rain"%string;
                           w_description := Val "light rain"%string |}] |}.

(** A forecast entry whose "weather" array is empty. *)
Definition item_without_weather : fitem :=
  {| f_dt := Val 1700017200; f_main := None; f_weather := Some [] |}.


(** [sample_env] with a geocoder that cannot be reached. *)
Definition offline_env : environment :=
  {| geocode_api := fun _ _ => Failed "connection timed out";
     onecall_api := onecall_api sample_env;
     weather_api := weather_api sample_env;
     forecast_api := forecast_api sample_env;
     wttr_api := wttr_api sample_env;
     time_now := time_now sample_env;
     markup_error := markup_error sample_env |}.

(** [sample_env] with a geocoder that knows one place, whatever is asked. *)
Definition known_city_env : environment :=
  {| geocode_api := fun _ _ =>
       Responded {| status_code := 200; error_text := EmptyString;
                    json := [{| g_lat := Val (103 # 2); g_lon := Val (-1 # 10);
                                g_name := Val "London"%string;
                                g_country := Val "GB"%string |}] |};
     onecall_api := onecall_api sample_env;
     weather_api := weather_api sample_env;
     forecast_api := forecast_api sample_env;
     wttr_api := wttr_api sample_env;
     time_now := time_now sample_env;
     markup_error := markup_error sample_env |}.


(** Three hourly entries, of 32, 33.8 and 44.6 degrees. *)
Definition three_hours : list hourly_entry :=
  [{| h_dt := Some 1700006400; h_temp := Some 32%Q; h_weather := [] |};
   {| h_dt := Some 1700010000; h_temp := Some (338 # 10)%Q; h_weather := [] |};
   {| h_dt := Some 1700013600; h_temp := Some (446 # 10)%Q; h_weather := [] |}].

(** * Properties *)

(** ** The error monad and the built-ins *)

Lemma mapM_length {A B} (f : A -> result B) l out :
  mapM f l = Ok out -> List.length out = List.length l.
Proof.
  revert out; induction l as [|a l IH]; simpl; intros out H.
  - now inversion H.
  - destruct (f a); simpl in H; [|discriminate].
    destruct (mapM f l); simpl in H; [|discriminate].
    inversion H; subst; simpl; f_equal; now apply IH.
Qed.

Lemma mapM_ext_in {A B} (f g : A -> result B) l :
  (forall a, In a l -> f a = g a) -> mapM f l = mapM g l.
Proof.
  induction l as [|a l IH]; simpl; intros H; [reflexivity|].
  rewrite (H a (or_introl Logic.eq_refl)), IH; auto.
Qed.

Lemma mapM_map {A B C} (f : B -> result C) (g : A -> B) l :
  mapM f (map g l) = mapM (fun a => f (g a)) l.
Proof.
  induction l as [|a l IH]; simpl; [reflexivity|]. now rewrite IH.
Qed.

Lemma mapM_total {A B} (f : A -> result B) (g : A -> B) l :
  (forall a, In a l -> f a = Ok (g a)) -> mapM f l = Ok (map g l).
Proof.
  induction l as [|a l IH]; simpl; intros H; [reflexivity|].
  rewrite (H a (or_introl Logic.eq_refl)); simpl. rewrite IH; auto.
Qed.

Lemma len_nonneg {A} (l : list A) : 0 <= len l.
Proof. unfold len; lia. Qed.

Lemma len_app {A} (l l' : list A) : len (l ++ l') = len l + len l'.
Proof. unfold len; rewrite length_app; lia. Qed.

Lemma getitem_nth {A} (kind : string) (l : list A) (k : Z) (d : A) :
  0 <= k < len l -> getitem kind l k = Ok (nth (Z.to_nat k) l d).
Proof.
  intros [H0 H1]. unfold getitem. cbv zeta.
  replace (k <? 0) with false by (symmetry; apply Z.ltb_ge; lia).
  replace ((k <? 0) || (len l <=? k)) with false
    by (symmetry; rewrite orb_false_iff; lia).
  unfold len in H1.
  destruct (nth_error l (Z.to_nat k)) eqn:E'.
  - now rewrite (nth_error_nth _ _ d E').
  - apply nth_error_None in E'. lia.
Qed.

Lemma getitem_In {A} (kind : string) (l : list A) (k : Z) (a : A) :
  getitem kind l k = Ok a -> In a l.
Proof.
  unfold getitem. cbv zeta.
  destruct (_ || _); [discriminate|].
  destruct (nth_error l _) eqn:E; [|discriminate].
  intros H; inversion H; subst. eapply nth_error_In; eauto.
Qed.

Lemma getitem_last {A} (kind : string) (l : list A) (d : A) :
  l <> [] -> getitem kind l (-1) = Ok (List.last l d).
Proof.
  intros Hl. destruct (exists_last Hl) as (l' & a' & ->).
  unfold getitem. cbv zeta. change (-1 <? 0) with true. cbv iota.
  rewrite len_app. change (len [a']) with 1.
  pose proof (len_nonneg l').
  replace ((-1 + (len l' + 1) <? 0) || (len l' + 1 <=? -1 + (len l' + 1)))
    with false by (symmetry; rewrite orb_false_iff; lia).
  replace (Z.to_nat (-1 + (len l' + 1))) with (List.length l' + 0)%nat
    by (unfold len; lia).
  rewrite nth_error_app2 by lia.
  replace (List.length l' + 0 - List.length l')%nat with 0%nat by lia.
  simpl. now rewrite last_last.
Qed.

Lemma py_getitem_nth {A} (l : list A) (k : Z) (d : A) :
  0 <= k < len l -> py_getitem l k = Ok (nth (Z.to_nat k) l d).
Proof. apply getitem_nth. Qed.

Lemma py_getitem_In {A} (l : list A) (k : Z) (a : A) :
  py_getitem l k = Ok a -> In a l.
Proof. apply getitem_In. Qed.

Lemma py_getitem_last {A} (l : list A) (d : A) :
  l <> [] -> py_getitem l (-1) = Ok (List.last l d).
Proof. apply getitem_last. Qed.

Lemma str_getitem_nth (s : list char) (k : Z) (d : char) :
  0 <= k < len s -> str_getitem s k = Ok (nth (Z.to_nat k) s d).
Proof. apply getitem_nth. Qed.

Lemma str_getitem_In (s : list char) (k : Z) (c : char) :
  str_getitem s k = Ok c -> In c s.
Proof. apply getitem_In. Qed.

Lemma range_length (n : Z) : List.length (range n) = Z.to_nat n.
Proof. unfold range. now rewrite length_map, length_seq. Qed.

Lemma range_In (n i : Z) : In i (range n) <-> 0 <= i < n.
Proof.
  unfold range. rewrite in_map_iff. split.
  - intros (k & <- & Hk). apply in_seq in Hk. lia.
  - intros H. exists (Z.to_nat i). split; [lia|]. apply in_seq. lia.
Qed.

(** [min] and [max] under any comparison return an item of the list. *)
Lemma fold_pick_In {A} (pick : A -> A -> bool) (l : list A) (x : A) :
  In (fold_left (fun m y => if pick m y then y else m) l x) (x :: l).
Proof.
  revert x; induction l as [|y l IH]; intros x; simpl; [auto|].
  destruct (pick x y).
  - destruct (IH y) as [H|H]; [right; left; exact H|right; right; exact H].
  - destruct (IH x) as [H|H]; [left; exact H|right; right; exact H].
Qed.

Lemma py_min_In {A} (less : A -> A -> bool) l m :
  py_min less l = Ok m -> In m l.
Proof.
  destruct l as [|x l]; simpl; [discriminate|]. intros H; inversion H.
  apply (fold_pick_In (fun m y => less y m)).
Qed.

Lemma py_max_In {A} (less : A -> A -> bool) l m :
  py_max less l = Ok m -> In m l.
Proof.
  destruct l as [|x l]; simpl; [discriminate|]. intros H; inversion H.
  apply (fold_pick_In less).
Qed.

(** [min] and [max] commute with a map that preserves the comparison. *)
Lemma fold_pick_map {A B} (pa : A -> A -> bool) (pb : B -> B -> bool)
  (f : A -> B) (l : list A) (x : A) :
  (forall u v, pb (f u) (f v) = pa u v) ->
  fold_left (fun m y => if pb m y then y else m) (map f l) (f x)
  = f (fold_left (fun m y => if pa m y then y else m) l x).
Proof.
  intros H. revert x; induction l as [|y l IH]; intros x; simpl; [reflexivity|].
  rewrite H. destruct (pa x y); apply IH.
Qed.

Lemma py_min_map {A B} (la : A -> A -> bool) (lb : B -> B -> bool)
  (f : A -> B) (l : list A) :
  (forall u v, lb (f u) (f v) = la u v) ->
  py_min lb (map f l) = rbind (py_min la l) (fun m => Ok (f m)).
Proof.
  intros H. destruct l as [|x l]; simpl; [reflexivity|]. f_equal.
  apply (fold_pick_map (fun m y => la y m) (fun m y => lb y m)). intros; apply H.
Qed.

Lemma py_max_map {A B} (la : A -> A -> bool) (lb : B -> B -> bool)
  (f : A -> B) (l : list A) :
  (forall u v, lb (f u) (f v) = la u v) ->
  py_max lb (map f l) = rbind (py_max la l) (fun m => Ok (f m)).
Proof.
  intros H. destruct l as [|x l]; simpl; [reflexivity|]. f_equal.
  apply (fold_pick_map la lb). intros; apply H.
Qed.

(** ** Exact arithmetic *)

Lemma Qtrunc_nonneg (q : Q) : (0 <= q)%Q -> Qtrunc q = Qfloor q.
Proof.
  intros H. unfold Qtrunc. apply Qle_bool_iff in H. now rewrite H.
Qed.

Lemma Qtrunc_comp (p q : Q) : (p == q)%Q -> Qtrunc p = Qtrunc q.
Proof.
  intros H. unfold Qtrunc.
  assert (E : Qle_bool 0 p = Qle_bool 0 q).
  { destruct (Qle_bool 0 p) eqn:Ep, (Qle_bool 0 q) eqn:Eq; try reflexivity.
    - apply Qle_bool_iff in Ep. rewrite H in Ep. apply Qle_bool_iff in Ep. congruence.
    - apply Qle_bool_iff in Eq. rewrite <- H in Eq. apply Qle_bool_iff in Eq. congruence. }
  rewrite E. destruct (Qle_bool 0 q); now rewrite H.
Qed.

Lemma Qfloor_range (q : Q) (n : Z) :
  (0 <= q)%Q -> (q < inject_Z n)%Q -> 0 <= Qfloor q < n.
Proof.
  intros H0 H1. split.
  - rewrite <- (Qfloor_Z 0). now apply Qfloor_resp_le.
  - rewrite Zlt_Qlt. eapply Qle_lt_trans; [apply Qfloor_le|exact H1].
Qed.

Lemma Qfloor_upto (q : Q) (n : Z) :
  (0 <= q)%Q -> (q <= inject_Z n)%Q -> 0 <= Qfloor q <= n.
Proof.
  intros H0 H1. split.
  - rewrite <- (Qfloor_Z 0). now apply Qfloor_resp_le.
  - rewrite <- (Qfloor_Z n). now apply Qfloor_resp_le.
Qed.

Lemma Qlt_bool_iff (x y : Q) : Qlt_bool x y = true <-> (x < y)%Q.
Proof.
  unfold Qlt_bool. rewrite negb_true_iff. split; intros H.
  - apply Qnot_le_lt. intros C. apply Qle_bool_iff in C. congruence.
  - destruct (Qle_bool y x) eqn:E; [|reflexivity].
    apply Qle_bool_iff in E. exfalso. eapply Qlt_not_le; eauto.
Qed.

Lemma Qlt_bool_false (x y : Q) : Qlt_bool x y = false <-> (y <= x)%Q.
Proof.
  unfold Qlt_bool. rewrite negb_false_iff. apply Qle_bool_iff.
Qed.

Lemma inject_Z_pos (z : Z) : 0 < z -> (0 < inject_Z z)%Q.
Proof. intros H. change 0%Q with (inject_Z 0). now rewrite <- Zlt_Qlt. Qed.

Lemma inject_Z_nonneg (z : Z) : 0 <= z -> (0 <= inject_Z z)%Q.
Proof. intros H. change 0%Q with (inject_Z 0). now rewrite <- Zle_Qle. Qed.

(** The stride index stays inside the list. *)
Lemma stride_in_range (i n W : Z) :
  0 <= i < W -> W < n ->
  0 <= Qtrunc (inject_Z i * (inject_Z n / inject_Z W)) < n.
Proof.
  intros Hi Hn.
  assert (HW : (0 < inject_Z W)%Q) by (apply inject_Z_pos; lia).
  assert (Hq : (0 <= inject_Z i * (inject_Z n / inject_Z W))%Q).
  { apply Qmult_le_0_compat; [apply inject_Z_nonneg; lia|].
    apply Qle_shift_div_l; [exact HW|]. rewrite Qmult_0_l.
    apply inject_Z_nonneg; lia. }
  rewrite Qtrunc_nonneg by exact Hq.
  apply Qfloor_range; [exact Hq|].
  assert (E : (inject_Z i * (inject_Z n / inject_Z W) == inject_Z (i * n) / inject_Z W)%Q).
  { rewrite inject_Z_mult. field. intros C. rewrite C in HW. discriminate. }
  rewrite E. apply Qlt_shift_div_r; [exact HW|].
  rewrite <- inject_Z_mult, <- Zlt_Qlt. nia.
Qed.

Lemma mapM_fmap {A B C} (g : A -> result B) (f : B -> C) l :
  mapM (fun a => rbind (g a) (fun b => Ok (f b))) l
  = rbind (mapM g l) (fun bs => Ok (map f bs)).
Proof.
  induction l as [|a l IH]; simpl; [reflexivity|].
  destruct (g a); simpl; [|reflexivity].
  rewrite IH. destruct (mapM g l); reflexivity.
Qed.

Lemma rbind_assoc {A B C} (r : result A) (f : A -> result B) (g : B -> result C) :
  rbind (rbind r f) g = rbind r (fun a => rbind (f a) g).
Proof. destruct r; reflexivity. Qed.

Lemma len_map {A B} (f : A -> B) l : len (map f l) = len l.
Proof. unfold len. now rewrite length_map. Qed.

Lemma py_getitem_map {A B} (f : A -> B) (l : list A) (k : Z) :
  py_getitem (map f l) k = rbind (py_getitem l k) (fun a => Ok (f a)).
Proof.
  unfold py_getitem, getitem. cbv zeta. rewrite len_map.
  destruct (_ || _); [reflexivity|].
  rewrite nth_error_map. destruct (nth_error l _); reflexivity.
Qed.

(** Resampling picks positions, whatever the samples are. *)
Lemma resample_map (A : Arith) (f : num A -> num A) values width :
  resample A (map f values) width
  = rbind (resample A values width) (fun vals => Ok (map f vals)).
Proof.
  unfold resample. rewrite len_map.
  destruct (width <? len values).
  - destruct (num_true_div A _ _) as [step|e]; simpl; [|reflexivity].
    rewrite <- mapM_fmap. apply mapM_ext_in. intros i _.
    destruct (num_to_int A _); simpl; [|reflexivity].
    apply py_getitem_map.
  - rewrite py_getitem_map. destruct (py_getitem values (-1)); simpl; [|reflexivity].
    now rewrite map_app, map_repeat.
Qed.

Lemma resample_exact (values : list Q) (W : Z) :
  values <> [] -> 0 < W ->
  exists vals, resample exact values W = Ok vals
               /\ List.length vals = Z.to_nat W
               /\ forall v, In v vals -> In v values.
Proof.
  intros Hne HW. unfold resample. change (num exact) with Q.
  destruct (W <? len values) eqn:E.
  - apply Z.ltb_lt in E. simpl. unfold Qtrue_div.
    destruct (W =? 0) eqn:E0; [apply Z.eqb_eq in E0; lia|].
    simpl.
    rewrite (mapM_total _ (fun i => nth (Z.to_nat (Qtrunc (inject_Z i * (inject_Z (len values) / inject_Z W)))) values 0%Q)).
    + eexists; split; [reflexivity|]. split.
      * now rewrite length_map, range_length.
      * intros v Hv. apply in_map_iff in Hv. destruct Hv as (i & <- & Hi).
        apply range_In in Hi. apply nth_In.
        pose proof (stride_in_range i (len values) W Hi E). unfold len in *. lia.
    + intros i Hi. apply range_In in Hi. simpl.
      apply py_getitem_nth. now apply stride_in_range.
  - apply Z.ltb_ge in E.
    rewrite (py_getitem_last values 0%Q Hne). simpl.
    eexists; split; [reflexivity|]. split.
    + rewrite length_app, repeat_length. unfold len in *. lia.
    + intros v Hv. apply in_app_or in Hv. destruct Hv as [Hv|Hv]; [exact Hv|].
      apply repeat_spec in Hv. subst.
      destruct (exists_last Hne) as (l' & a' & ->). rewrite last_last.
      apply in_or_app. right. now left.
Qed.

(** [min] under the order of the rationals is a lower bound. *)
Lemma fold_min_le (l : list Q) (x : Q) :
  let r := fold_left (fun m y => if Qlt_bool y m then y else m) l x in
  (r <= x)%Q /\ forall v, In v l -> (r <= v)%Q.
Proof.
  revert x; induction l as [|y l IH]; intros x; simpl.
  - split; [apply Qle_refl|tauto].
  - destruct (Qlt_bool y x) eqn:E.
    + apply Qlt_bool_iff in E. destruct (IH y) as [H1 H2]. split.
      * eapply Qle_trans; [exact H1|]. now apply Qlt_le_weak.
      * intros v [<-|Hv]; auto.
    + apply Qlt_bool_false in E. destruct (IH x) as [H1 H2]. split; [exact H1|].
      intros v [<-|Hv]; auto. eapply Qle_trans; eauto.
Qed.

Lemma fold_max_ge (l : list Q) (x : Q) :
  let r := fold_left (fun m y => if Qlt_bool m y then y else m) l x in
  (x <= r)%Q /\ forall v, In v l -> (v <= r)%Q.
Proof.
  revert x; induction l as [|y l IH]; intros x; simpl.
  - split; [apply Qle_refl|tauto].
  - destruct (Qlt_bool x y) eqn:E.
    + apply Qlt_bool_iff in E. destruct (IH y) as [H1 H2]. split.
      * eapply Qle_trans; [|exact H1]. now apply Qlt_le_weak.
      * intros v [<-|Hv]; auto.
    + apply Qlt_bool_false in E. destruct (IH x) as [H1 H2]. split; [exact H1|].
      intros v [<-|Hv]; auto. eapply Qle_trans; eauto.
Qed.

Lemma py_min_le (l : list Q) (m : Q) :
  py_min Qlt_bool l = Ok m -> forall v, In v l -> (m <= v)%Q.
Proof.
  destruct l as [|x l]; simpl; [discriminate|]. intros [= <-].
  destruct (fold_min_le l x) as [H1 H2]. intros v [<-|Hv]; auto.
Qed.

Lemma py_max_ge (l : list Q) (m : Q) :
  py_max Qlt_bool l = Ok m -> forall v, In v l -> (v <= m)%Q.
Proof.
  destruct l as [|x l]; simpl; [discriminate|]. intros [= <-].
  destruct (fold_max_ge l x) as [H1 H2]. intros v [<-|Hv]; auto.
Qed.

Lemma py_min_nonempty {A} (less : A -> A -> bool) (l : list A) :
  l <> [] -> exists m, py_min less l = Ok m.
Proof. destruct l; [congruence|]. simpl. eauto. Qed.

Lemma py_max_nonempty {A} (less : A -> A -> bool) (l : list A) :
  l <> [] -> exists m, py_max less l = Ok m.
Proof. destruct l; [congruence|]. simpl. eauto. Qed.

Lemma Qlt_of_le_neq (lo hi : Q) :
  (lo <= hi)%Q -> Qeq_bool hi lo = false -> (0 < hi - lo)%Q.
Proof.
  intros Hle Hne. apply Qeq_bool_neq in Hne.
  destruct (Qle_lt_or_eq _ _ Hle) as [Hlt|Heq].
  - unfold Qminus. now apply Qlt_minus_iff in Hlt.
  - exfalso. apply Hne. now symmetry.
Qed.

Lemma Qdiv_checked_pos (x y : Q) : (0 < y)%Q -> Qdiv_checked x y = Ok (x / y)%Q.
Proof.
  intros Hy. unfold Qdiv_checked.
  destruct (Qeq_bool y 0) eqn:E; [|reflexivity].
  apply Qeq_bool_iff in E. rewrite E in Hy. discriminate.
Qed.

(** Between distinct bounds the palette index needs no clamping. *)
Lemma level_exact_range (lo hi v : Q) :
  (lo <= v)%Q -> (v <= hi)%Q -> Qeq_bool hi lo = false ->
  exists k, level exact lo hi v = Ok k /\ 0 <= k <= 7.
Proof.
  intros Hlo Hhi Hne.
  assert (Hd : (0 < hi - lo)%Q)
    by (apply Qlt_of_le_neq; [eapply Qle_trans; eauto|exact Hne]).
  unfold level. simpl. rewrite Qdiv_checked_pos by exact Hd. simpl.
  change (inject_Z (len SPARK - 1)) with (inject_Z 7).
  assert (H0 : (0 <= (v - lo) / (hi - lo))%Q).
  { apply Qle_shift_div_l; [exact Hd|]. rewrite Qmult_0_l.
    unfold Qminus. now apply Qle_minus_iff in Hlo. }
  assert (H1 : ((v - lo) / (hi - lo) <= 1)%Q).
  { apply Qle_shift_div_r; [exact Hd|]. rewrite Qmult_1_l.
    unfold Qminus. apply Qplus_le_l. exact Hhi. }
  assert (Hq0 : (0 <= (v - lo) / (hi - lo) * inject_Z 7)%Q).
  { apply Qmult_le_0_compat; [exact H0|discriminate]. }
  assert (Hq1 : ((v - lo) / (hi - lo) * inject_Z 7 <= inject_Z 7)%Q).
  { rewrite <- (Qmult_1_l (inject_Z 7)) at 2.
    apply Qmult_le_compat_r; [exact H1|discriminate]. }
  eexists; split; [reflexivity|].
  rewrite Qtrunc_nonneg by exact Hq0. now apply Qfloor_upto.
Qed.

(** The clamp of the plain variant changes nothing. *)
Lemma level_exact_clamp (lo hi v : Q) :
  (lo <= v)%Q -> (v <= hi)%Q -> Qeq_bool hi lo = false ->
  rbind (level exact lo hi v)
        (fun idx => str_getitem SPARK (Z.max 0 (Z.min (len SPARK - 1) idx)))
  = rbind (level exact lo hi v) (fun idx => str_getitem SPARK idx).
Proof.
  intros Hlo Hhi Hne.
  destruct (level_exact_range lo hi v Hlo Hhi Hne) as (k & -> & Hk).
  simpl. change (len SPARK - 1) with 7. f_equal. lia.
Qed.

Lemma SPARK_getitem (k : Z) :
  0 <= k <= 7 -> exists c, str_getitem SPARK k = Ok c /\ In c SPARK.
Proof.
  intros Hk. exists (nth (Z.to_nat k) SPARK 0%N). split.
  - apply str_getitem_nth. change (len SPARK) with 8. lia.
  - apply nth_In. change (List.length SPARK) with 8%nat. lia.
Qed.

(** The two variants on exact samples: same result on every input. *)
Lemma sparkline_exact_agree (values : list Q) (W : Z) :
  Spark.sparkline exact values W = Rich.sparkline exact values W.
Proof.
  unfold Spark.sparkline, Rich.sparkline.
  destruct values as [|x values]; [reflexivity|].
  destruct (resample exact (x :: values) W) as [vals|e]; simpl; [|reflexivity].
  destruct (py_min Qlt_bool vals) as [lo|e] eqn:Emin; simpl; [|reflexivity].
  destruct (py_max Qlt_bool vals) as [hi|e] eqn:Emax; simpl; [|reflexivity].
  destruct (Qeq_bool hi lo) eqn:Eeq; [reflexivity|].
  apply mapM_ext_in. intros v Hv.
  apply level_exact_clamp; [eapply py_min_le|eapply py_max_ge|]; eauto.
Qed.

(** On a non-empty input and a positive width the rich variant returns
    [width] glyphs of the palette. *)
Lemma sparkline_exact_shape (values : list Q) (W : Z) :
  values <> [] -> 0 < W ->
  exists out, Rich.sparkline exact values W = Ok out
              /\ len out = W /\ Forall (fun c => In c SPARK) out.
Proof.
  intros Hne HW. unfold Rich.sparkline.
  destruct values as [|x values]; [congruence|].
  destruct (resample_exact (x :: values) W Hne HW) as (vals & -> & Hlen & _).
  simpl.
  assert (Hvals : vals <> []) by (destruct vals; [simpl in Hlen; lia|discriminate]).
  destruct (py_min_nonempty Qlt_bool vals Hvals) as (lo & Emin).
  destruct (py_max_nonempty Qlt_bool vals Hvals) as (hi & Emax).
  rewrite Emin, Emax. simpl.
  assert (Hgen : forall f : Q -> result char,
            (forall v, In v vals -> exists c, f v = Ok c /\ In c SPARK) ->
            exists out, mapM f vals = Ok out /\ len out = W
                        /\ Forall (fun c => In c SPARK) out).
  { intros f Hf. clear Emin Emax Hvals.
    assert (exists out, mapM f vals = Ok out /\ Forall (fun c => In c SPARK) out)
      as (out & Hout & Hall).
    { clear Hlen. induction vals as [|v vals IH]; simpl; [eauto|].
      destruct (Hf v (or_introl Logic.eq_refl)) as (c & -> & Hc). simpl.
      destruct IH as (out & -> & Hall).
      - intros u Hu. apply Hf. now right.
      - simpl. eauto. }
    exists out. split; [exact Hout|]. split; [|exact Hall].
    apply mapM_length in Hout. unfold len. change (num exact) with Q in *. lia. }
  destruct (Qeq_bool hi lo) eqn:Eeq.
  - apply Hgen. intros v _. apply SPARK_getitem. lia.
  - apply Hgen. intros v Hv.
    destruct (level_exact_range lo hi v) as (k & -> & Hk);
      [eapply py_min_le; eauto|eapply py_max_ge; eauto|exact Eeq|].
    simpl. now apply SPARK_getitem.
Qed.

Lemma map_const_repeat {A B} (c : B) (l : list A) :
  map (fun _ => c) l = repeat c (List.length l).
Proof. induction l; simpl; congruence. Qed.


Section Affine.
Variables a b : Q.
Hypothesis a_pos : (0 < a)%Q.

Lemma affine_exact (v : Q) : affine exact a b v = (a * v + b)%Q.
Proof. reflexivity. Qed.

Lemma affine_lt (u v : Q) :
  Qlt_bool (affine exact a b u) (affine exact a b v) = Qlt_bool u v.
Proof.
  rewrite !affine_exact.
  destruct (Qlt_bool u v) eqn:E.
  - apply Qlt_bool_iff in E. apply Qlt_bool_iff.
    apply Qplus_lt_l. now apply Qmult_lt_l.
  - apply Qlt_bool_false in E. apply Qlt_bool_false.
    apply Qplus_le_l. apply Qmult_le_l; assumption.
Qed.

Lemma affine_eq (u v : Q) :
  Qeq_bool (affine exact a b u) (affine exact a b v) = Qeq_bool u v.
Proof.
  rewrite !affine_exact.
  destruct (Qeq_bool u v) eqn:E.
  - apply Qeq_bool_iff in E. apply Qeq_bool_iff. now rewrite E.
  - apply Qeq_bool_neq in E. destruct (Qeq_bool _ _) eqn:E'; [|reflexivity].
    apply Qeq_bool_iff in E'. exfalso. apply E.
    apply Qplus_inj_r in E'. apply Qmult_inj_l in E'; [exact E'|].
    intros C. rewrite C in a_pos. discriminate.
Qed.

Lemma affine_level (lo hi v : Q) :
  level exact (affine exact a b lo) (affine exact a b hi) (affine exact a b v)
  = level exact lo hi v.
Proof.
  rewrite !affine_exact. unfold level.
  cbn [num_div num_sub num_mul num_to_int num_of_int exact rbind].
  unfold Qdiv_checked.
  assert (Hr : (a * hi + b - (a * lo + b) == a * (hi - lo))%Q) by ring.
  assert (Ez : Qeq_bool (a * hi + b - (a * lo + b)) 0 = Qeq_bool (hi - lo) 0).
  { destruct (Qeq_bool (hi - lo) 0) eqn:E.
    - apply Qeq_bool_iff in E. apply Qeq_bool_iff.
      rewrite Hr, E. ring.
    - apply Qeq_bool_neq in E.
      destruct (Qeq_bool (a * hi + b - (a * lo + b)) 0) eqn:E'; [|reflexivity].
      apply Qeq_bool_iff in E'. exfalso. apply E.
      rewrite Hr in E'.
      apply Qmult_integral in E'. destruct E' as [C|C]; [|exact C].
      rewrite C in a_pos. discriminate. }
  destruct (Qeq_bool (hi - lo) 0) eqn:E; rewrite Ez; [reflexivity|].
  cbn [rbind]. f_equal. apply Qtrunc_comp.
  apply Qeq_bool_neq in E. apply Qeq_bool_neq in Ez.
  field. split; [exact E|exact Ez].
Qed.

(** Rescaling the samples leaves the output as it is. *)
Lemma sparkline_exact_affine (values : list Q) (W : Z) :
  Rich.sparkline exact (map (affine exact a b) values) W
  = Rich.sparkline exact values W.
Proof.
  unfold Rich.sparkline.
  destruct values as [|x values]; [reflexivity|].
  change (map (affine exact a b) (x :: values))
    with (affine exact a b x :: map (affine exact a b) values) at 1.
  cbv iota.
  change (affine exact a b x :: map (affine exact a b) values)
    with (map (affine exact a b) (x :: values)).
  rewrite (resample_map exact (affine exact a b)).
  destruct (resample exact (x :: values) W) as [vals|e]; cbn [rbind]; [|reflexivity].
  cbn [num_lt num_eq exact]. change (num exact) with Q in *.
  rewrite (py_min_map Qlt_bool Qlt_bool (affine exact a b)) by apply affine_lt.
  destruct (py_min Qlt_bool vals) as [lo|e]; cbn [rbind]; [|reflexivity].
  rewrite (py_max_map Qlt_bool Qlt_bool (affine exact a b)) by apply affine_lt.
  destruct (py_max Qlt_bool vals) as [hi|e]; cbn [rbind]; [|reflexivity].
  rewrite affine_eq. destruct (Qeq_bool hi lo).
  - now rewrite mapM_map.
  - rewrite mapM_map. apply mapM_ext_in. intros v _. now rewrite affine_level.
Qed.

End Affine.

(** ** The normalizer *)

Lemma hourly_loop_spec (items : list fitem) (acc : list hourly_entry) :
  len acc < 24 ->
  hourly_loop items acc
  = acc ++ map hourly_of_item (firstn (Z.to_nat (24 - len acc)) items).
Proof.
  revert acc; induction items as [|item rest IH]; intros acc Hacc;
    cbn [hourly_loop].
  - now rewrite firstn_nil, app_nil_r.
  - rewrite len_app. change (len [hourly_of_item item]) with 1.
    pose proof (len_nonneg acc).
    destruct (24 <=? len acc + 1) eqn:E.
    + apply Z.leb_le in E.
      replace (Z.to_nat (24 - len acc)) with 1%nat by lia.
      reflexivity.
    + apply Z.leb_gt in E.
      rewrite IH by (rewrite len_app; change (len [hourly_of_item item]) with 1; lia).
      rewrite len_app. change (len [hourly_of_item item]) with 1.
      replace (Z.to_nat (24 - len acc)) with (S (Z.to_nat (24 - (len acc + 1)))) by lia.
      cbn [firstn map]. now rewrite <- app_assoc.
Qed.

Lemma pad_loop_spec (acc : list hourly_entry) (last : hourly_entry) :
  pad_loop acc last = acc ++ repeat last (Z.to_nat (24 - len acc)).
Proof.
  funelim (pad_loop acc last);
    match goal with |- _ = ?h ++ _ => pose proof (len_nonneg h) end.
  - match goal with IH : pad_loop _ _ = _ ++ repeat _ _ |- _ => rewrite IH end.
    rewrite len_app. change (len [last]) with 1.
    match goal with |- _ = ?h ++ _ =>
      replace (Z.to_nat (24 - len h)) with (S (Z.to_nat (24 - (len h + 1)))) by lia
    end.
    cbn [repeat]. now rewrite <- app_assoc.
  - match goal with |- _ = ?h ++ _ =>
      replace (Z.to_nat (24 - len h)) with 0%nat by lia
    end.
    cbn [repeat]. now rewrite app_nil_r.
Qed.

Lemma build_hourly_spec (fr : forecast_payload) :
  build_hourly fr
  = match forecast_items fr with
    | [] => []
    | d :: _ =>
        map hourly_of_item (firstn 24 (forecast_items fr))
        ++ repeat (hourly_of_item (List.last (forecast_items fr) d))
                  (24 - List.length (firstn 24 (forecast_items fr)))
    end.
Proof.
  unfold build_hourly. generalize (forecast_items fr) as items. intros items.
  rewrite (hourly_loop_spec items []) by (cbv; reflexivity).
  change (Z.to_nat (24 - len [])) with 24%nat. cbn [app].
  destruct items as [|d items']; [reflexivity|].
  remember (d :: items') as items eqn:Eitems.
  assert (Hi : items <> []) by (rewrite Eitems; discriminate).
  remember (map hourly_of_item (firstn 24 items)) as head eqn:Ehead.
  assert (Hlen : List.length head = Nat.min 24 (List.length items))
    by (rewrite Ehead; now rewrite length_map, length_firstn).
  assert (Hfl : List.length (firstn 24 items) = List.length head)
    by (rewrite Ehead; now rewrite length_map).
  rewrite Hfl.
  destruct head as [|h head']; [rewrite Eitems in Hlen; simpl in Hlen; lia|].
  remember (h :: head') as head eqn:Eh.
  destruct (len head <? 24) eqn:E.
  - apply Z.ltb_lt in E. rewrite pad_loop_spec. unfold len in *.
    assert (Hall : firstn 24 items = items) by (apply firstn_all2; lia).
    f_equal. f_equal.
    + rewrite Ehead, Hall.
      destruct (exists_last Hi) as (l' & a' & Hl').
      rewrite Hl', map_app. cbn [map]. now rewrite !last_last.
    + lia.
  - apply Z.ltb_ge in E. unfold len in E.
    replace (24 - List.length head)%nat with 0%nat by lia.
    cbn [repeat]. now rewrite app_nil_r.
Qed.

Lemma lookup_In (m : daily_map_t) (day : Z) :
  In day (map fst m) <-> exists g, lookup m day = Some g.
Proof.
  induction m as [|[k g] m IH]; simpl.
  - split; [tauto|intros (g & H); discriminate].
  - destruct (k =? day) eqn:E.
    + apply Z.eqb_eq in E. split; eauto.
    + apply Z.eqb_neq in E. rewrite <- IH. split; [intros [H|H]; [congruence|exact H]|auto].
Qed.

Lemma append_keys (m : daily_map_t) day t w dt k :
  In k (map fst (daily_map_append m day t w dt)) <-> In k (map fst m) \/ k = day.
Proof.
  induction m as [|[k' g] m IH]; simpl.
  - intuition.
  - destruct (k' =? day) eqn:E; simpl.
    + apply Z.eqb_eq in E. subst. intuition.
    + rewrite IH. intuition.
Qed.

Lemma append_NoDup (m : daily_map_t) day t w dt :
  NoDup (map fst m) -> NoDup (map fst (daily_map_append m day t w dt)).
Proof.
  induction m as [|[k' g] m IH]; simpl; intros H.
  - constructor; [tauto|constructor].
  - inversion H as [|? ? Hnin Hnd]; subst.
    destruct (k' =? day) eqn:E; simpl.
    + constructor; assumption.
    + apply Z.eqb_neq in E. constructor; [|auto].
      rewrite append_keys. intuition.
Qed.

Lemma append_lookup (m : daily_map_t) day t w dt k :
  lookup (daily_map_append m day t w dt) k
  = if k =? day
    then Some {| temps := temps (group_at m day) ++ [t];
                 weathers := weathers (group_at m day) ++ [w];
                 dts := dts (group_at m day) ++ [dt] |}
    else lookup m k.
Proof.
  unfold group_at. induction m as [|[k' g] m IH]; simpl.
  - rewrite (Z.eqb_sym day k). destruct (k =? day); reflexivity.
  - destruct (k' =? day) eqn:E; simpl.
    + apply Z.eqb_eq in E. subst. rewrite (Z.eqb_sym day k).
      destruct (k =? day); reflexivity.
    + rewrite IH. destruct (k =? day) eqn:E'; [|reflexivity].
      apply Z.eqb_eq in E'. subst. rewrite E. reflexivity.
Qed.

Lemma extend_nil (g : group) : extend g [] = g.
Proof. destruct g; unfold extend; simpl. now rewrite !app_nil_r. Qed.

(** What one pass of the loop does on a well-formed entry. *)
Lemma well_formed_step (it : fitem) :
  well_formed it = true ->
  exists day, item_day it = Some day
    /\ f_dt it = Val (item_dt it)
    /\ utc_date (item_dt it) = Ok day
    /\ py_getitem (match f_weather it with
                   | Some ws => ws | None => [empty_wobj] end) 0
       = Ok (item_wobj it).
Proof.
  unfold well_formed, item_day, item_dt, item_wobj, item_weather.
  destruct (f_dt it) as [| |dt]; try discriminate.
  destruct (utc_date dt) as [day|e] eqn:Ed; simpl; [|discriminate].
  destruct (f_weather it) as [[|w ws]|]; try discriminate; intros _;
    exists day; repeat split; reflexivity.
Qed.

Lemma daily_map_loop_spec (items : list fitem) (m : daily_map_t) :
  forallb well_formed items = true ->
  exists m', daily_map_loop items m = Ok m'
    /\ (NoDup (map fst m) -> NoDup (map fst m'))
    /\ (forall k, In k (map fst m') <->
                  In k (map fst m) \/ exists it, In it items /\ item_day it = Some k)
    /\ forall k, group_at m' k = extend (group_at m k) (filter (on_day k) items).
Proof.
  revert m; induction items as [|it items IH]; intros m Hwf.
  - exists m. simpl. repeat split; auto.
    + intros [H|(it & [] & _)]; exact H.
    + intros k. now rewrite extend_nil.
  - simpl in Hwf. apply andb_true_iff in Hwf. destruct Hwf as [Hit Hwf].
    destruct (well_formed_step it Hit) as (day & Hday & Hdt & Hutc & Hw).
    cbn [daily_map_loop]. rewrite Hdt. cbn [rbind]. rewrite Hutc. cbn [rbind].
    rewrite Hw. cbn [rbind].
    destruct (IH (daily_map_append m day
                    (get (m_temp_min (match f_main it with Some m0 => m0 | None => empty_main end)),
                     get (m_temp_max (match f_main it with Some m0 => m0 | None => empty_main end)))
                    (item_wobj it) (item_dt it)) Hwf)
      as (m' & Hm' & Hnd & Hkeys & Hgrp).
    exists m'. split; [exact Hm'|]. split; [|split].
    + intros H. apply Hnd. now apply append_NoDup.
    + intros k. rewrite Hkeys, append_keys. split.
      * intros [[H|H]|(x & Hx & Hxd)]; [now left|right|right].
        -- exists it. split; [now left|congruence].
        -- exists x. split; [now right|exact Hxd].
      * intros [H|(x & [Hx|Hx] & Hxd)]; [left; now left| |right; eauto].
        left; right. subst x. congruence.
    + intros k. rewrite Hgrp. unfold group_at at 1. rewrite append_lookup.
      cbn [filter]. unfold on_day at 2. rewrite Hday. rewrite (Z.eqb_sym day k).
      destruct (k =? day) eqn:E.
      * apply Z.eqb_eq in E. subst k. unfold extend. cbn [temps weathers dts map].
        rewrite <- !app_assoc. reflexivity.
      * reflexivity.
Qed.

Lemma insert_key_In (k x : Z) (l : list Z) :
  In x (insert_key k l) <-> x = k \/ In x l.
Proof.
  induction l as [|y l IH]; simpl.
  - intuition.
  - destruct (k <? y); simpl; [intuition|]. rewrite IH. intuition.
Qed.

Lemma insert_key_sorted (k : Z) (l : list Z) :
  StronglySorted Z.lt l -> ~ In k l -> StronglySorted Z.lt (insert_key k l).
Proof.
  induction l as [|y l IH]; simpl; intros Hs Hnin.
  - constructor; constructor.
  - inversion Hs as [|? ? Hs' Hall]; subst.
    destruct (k <? y) eqn:E.
    + apply Z.ltb_lt in E. constructor; [exact Hs|].
      constructor; [exact E|].
      rewrite Forall_forall in *. intros x Hx. specialize (Hall x Hx). lia.
    + apply Z.ltb_ge in E. constructor.
      * apply IH; [exact Hs'|intros C; apply Hnin; now right].
      * rewrite Forall_forall in *. intros x Hx.
        apply insert_key_In in Hx. destruct Hx as [->|Hx]; [|auto].
        assert (k <> y) by (intros C; apply Hnin; left; now symmetry). lia.
Qed.

Lemma py_sorted_spec (l : list Z) :
  NoDup l ->
  StronglySorted Z.lt (py_sorted l) /\ forall x, In x (py_sorted l) <-> In x l.
Proof.
  unfold py_sorted.
  assert (G : forall l acc, StronglySorted Z.lt acc -> NoDup l ->
            (forall x, In x l -> ~ In x acc) ->
            StronglySorted Z.lt (fold_left (fun acc k => insert_key k acc) l acc)
            /\ forall x, In x (fold_left (fun acc k => insert_key k acc) l acc)
                         <-> In x acc \/ In x l).
  { clear l. induction l as [|k l IH]; intros acc Hs Hnd Hdisj; simpl.
    - split; [exact Hs|intuition].
    - inversion Hnd as [|? ? Hk Hnd']; subst.
      destruct (IH (insert_key k acc)) as [H1 H2].
      + apply insert_key_sorted; [exact Hs|]. apply Hdisj. now left.
      + exact Hnd'.
      + intros x Hx Hin. apply insert_key_In in Hin. destruct Hin as [->|Hin].
        * contradiction.
        * apply (Hdisj x); [now right|exact Hin].
      + split; [exact H1|]. intros x. rewrite H2, insert_key_In. intuition. }
  intros Hnd. destruct (G l [] (SSorted_nil _) Hnd) as [H1 H2]; [auto|].
  split; [exact H1|]. intros x. rewrite H2. simpl. intuition.
Qed.

Lemma mapM_Forall2 {A B} (f : A -> result B) (R : A -> B -> Prop) (l : list A) :
  (forall a, In a l -> exists b, f a = Ok b /\ R a b) ->
  exists bs, mapM f l = Ok bs /\ Forall2 R l bs.
Proof.
  induction l as [|a l IH]; intros H; simpl.
  - exists []. split; [reflexivity|constructor].
  - destruct (H a (or_introl Logic.eq_refl)) as (b & -> & Hb).
    destruct IH as (bs & -> & Hbs); [intros; apply H; now right|].
    exists (b :: bs). split; [reflexivity|]. now constructor.
Qed.

Lemma mid_index (n : nat) :
  (0 < n)%nat -> 0 <= Z.of_nat n / 2 < Z.of_nat n /\ Z.to_nat (Z.of_nat n / 2) = (n / 2)%nat.
Proof.
  intros Hn. split.
  - split; [apply Z.div_pos; lia|]. apply Z.div_lt; lia.
  - change 2 with (Z.of_nat 2). rewrite <- Nat2Z.inj_div. apply Nat2Z.id.
Qed.

Lemma opt_min_spec (l : list Q) :
  let r := match l with [] => None | _ => opt_of (py_min Qlt_bool l) end in
  (r = None <-> l = [])
  /\ forall m, r = Some m -> In m l /\ forall x, In x l -> (m <= x)%Q.
Proof.
  destruct l as [|x l]; cbv zeta.
  - split; [tauto|discriminate].
  - destruct (py_min Qlt_bool (x :: l)) as [m|e] eqn:E; [|discriminate].
    cbn [opt_of]. split; [split; discriminate|].
    intros m' [= <-]. split; [eapply py_min_In; eauto|eapply py_min_le; eauto].
Qed.

Lemma opt_max_spec (l : list Q) :
  let r := match l with [] => None | _ => opt_of (py_max Qlt_bool l) end in
  (r = None <-> l = [])
  /\ forall m, r = Some m -> In m l /\ forall x, In x l -> (x <= m)%Q.
Proof.
  destruct l as [|x l]; cbv zeta.
  - split; [tauto|discriminate].
  - destruct (py_max Qlt_bool (x :: l)) as [m|e] eqn:E; [|discriminate].
    cbn [opt_of]. split; [split; discriminate|].
    intros m' [= <-]. split; [eapply py_max_In; eauto|eapply py_max_ge; eauto].
Qed.

Lemma getitem_mid {A B} (f : A -> B) (es : list A) (e0 : A) (dflt : result B) :
  es <> [] ->
  match map f es with
  | [] => dflt
  | _ :: _ => py_getitem (map f es) (len es / 2)
  end = Ok (f (nth (List.length es / 2) es e0)).
Proof.
  intros Hes.
  assert (Hn : (0 < List.length es)%nat) by (destruct es; [congruence|simpl; lia]).
  destruct (mid_index _ Hn) as [Hmid Hmid'].
  destruct (map f es) eqn:E; [destruct es; [congruence|discriminate]|].
  rewrite <- E. rewrite py_getitem_map.
  rewrite (py_getitem_nth es _ e0) by exact Hmid.
  unfold len. now rewrite Hmid'.
Qed.

Lemma daily_of_group_spec (now : Z) (es : list fitem) :
  es <> [] ->
  exists d, daily_of_group now (extend empty_group es) = Ok d /\ summarizes es d.
Proof.
  intros Hes. destruct es as [|e0 es0] eqn:Ees; [congruence|]. rewrite <- Ees in *.
  assert (Hn : (0 < List.length es)%nat) by (rewrite Ees; simpl; lia).
  unfold daily_of_group, extend. cbn [temps weathers dts empty_group app].
  rewrite !map_map, len_map.
  rewrite (getitem_mid item_wobj es e0) by exact Hes. cbn [rbind].
  rewrite (getitem_mid item_dt es e0) by exact Hes. cbn [rbind].
  eexists. split; [reflexivity|].
  unfold summarizes. cbn [d_min d_max d_dt d_weather].
  destruct (opt_min_spec (somes (map (fun x => fst (item_temps x)) es))) as [A1 A2].
  destruct (opt_max_spec (somes (map (fun x => snd (item_temps x)) es))) as [B1 B2].
  split; [exact A1|]. split; [exact A2|]. split; [exact B1|]. split; [exact B2|].
  exists (nth (List.length es / 2) es e0). split; [|split; reflexivity].
  apply nth_error_nth'. apply Nat.div_lt; lia.
Qed.

Lemma build_daily_spec (now : Z) (fr : forecast_payload) :
  forallb well_formed (forecast_items fr) = true ->
  exists days ds,
    build_daily now fr = Ok ds
    /\ StronglySorted Z.lt days
    /\ (forall day, In day days <->
          exists it, In it (forecast_items fr) /\ item_day it = Some day)
    /\ Forall2 (fun day d =>
                  summarizes (filter (on_day day) (forecast_items fr)) d)
               days ds.
Proof.
  intros Hwf. unfold build_daily.
  destruct (daily_map_loop_spec (forecast_items fr) [] Hwf)
    as (m & -> & Hnd & Hkeys & Hgrp).
  cbn [rbind].
  destruct (py_sorted_spec (map fst m) (Hnd (NoDup_nil _))) as [Hsorted Hin].
  assert (Hdays : forall day, In day (py_sorted (map fst m)) <->
            exists it, In it (forecast_items fr) /\ item_day it = Some day).
  { intros day. rewrite Hin, Hkeys. simpl. tauto. }
  destruct (mapM_Forall2
              (fun day => match lookup m day with
                          | Some g => daily_of_group now g
                          | None => Raise (Exn KeyError "day")
                          end)
              (fun day d => summarizes (filter (on_day day) (forecast_items fr)) d)
              (py_sorted (map fst m))) as (ds & Hds & HF).
  - intros day Hday.
    assert (Hk : In day (map fst m)) by now apply Hin.
    apply lookup_In in Hk. destruct Hk as (g & Hg).
    specialize (Hgrp day). unfold group_at in Hgrp. rewrite Hg in Hgrp.
    cbn [lookup] in Hgrp. rewrite Hg, Hgrp.
    apply daily_of_group_spec.
    apply Hdays in Hday. destruct Hday as (it & Hit & Hd).
    assert (Hf : In it (filter (on_day day) (forecast_items fr))).
    { apply filter_In. split; [exact Hit|]. unfold on_day. rewrite Hd. apply Z.eqb_refl. }
    intros C. rewrite C in Hf. exact Hf.
  - exists (py_sorted (map fst m)), ds. auto.
Qed.

(** ** The adapter *)

(** The fallback sends the /weather request first, never a OneCall request,
    and prints nothing. *)
Lemma fallback_trace (lat lon : option Q) (units : string)
  (env : environment) (w : world) :
  exists rest,
    sent (snd (fetch_weather_and_forecast lat lon units env w))
    = sent w ++ GetWeather lat lon units :: rest
    /\ Forall (fun r => is_onecall r = false) rest
    /\ printed (snd (fetch_weather_and_forecast lat lon units env w)) = printed w.
Proof.
  unfold fetch_weather_and_forecast, bind, http_get, raise_for_status, lift, raise, ret.
  destruct (weather_api env (sent w) lat lon units) as [rc|msg]; cbn.
  2:{ exists []. auto. }
  destruct ((400 <=? status_code rc) && (status_code rc <? 600)); cbn.
  1:{ exists []. auto. }
  destruct (forecast_api env _ lat lon units) as [rf|msg]; cbn.
  2:{ exists [GetForecast lat lon units]. rewrite <- app_assoc. auto. }
  destruct ((400 <=? status_code rf) && (status_code rf <? 600)); cbn;
    exists [GetForecast lat lon units]; rewrite <- app_assoc; auto.
Qed.

(** [fetch_onecall], case by case on what the primary endpoint does. *)
Lemma fetch_onecall_cases (lat lon : option Q) (units : string)
  (env : environment) (w : world) :
  let w1 := send w (GetOneCall lat lon units) in
  let fallback := fetch_weather_and_forecast lat lon units env in
  fetch_onecall lat lon units env w
  = match onecall_api env (sent w) lat lon units with
    | Responded r =>
        if status_code r =? 200 then (Ok (json r), w1)
        else match fallback w1 with
             | (Raise e, w2) =>
                 if is_RequestException (exn_cls e) then fallback w2
                 else (Raise e, w2)
             | done => done
             end
    | Failed _ => fallback w1
    end.
Proof.
  cbv zeta. unfold fetch_onecall, try_except, bind, http_get, send.
  destruct (onecall_api env (sent w) lat lon units) as [r|msg]; cbn.
  - destruct (status_code r =? 200); cbn; [reflexivity|].
    destruct (fetch_weather_and_forecast lat lon units env _) as [[a|e] w2]; reflexivity.
  - reflexivity.
Qed.

Lemma fetch_onecall_primary_once (lat lon : option Q) (units : string)
  (env : environment) (w : world) :
  exists rest,
    sent (snd (fetch_onecall lat lon units env w))
    = sent w ++ GetOneCall lat lon units :: rest
    /\ Forall (fun r => is_onecall r = false) rest
    /\ (match onecall_api env (sent w) lat lon units with
        | Responded r => status_code r =? 200
        | Failed _ => false
        end = false ->
        exists rest', rest = GetWeather lat lon units :: rest').
Proof.
  rewrite fetch_onecall_cases. cbv zeta.
  set (w1 := send w (GetOneCall lat lon units)).
  assert (Hw1 : sent w1 = sent w ++ [GetOneCall lat lon units]) by reflexivity.
  destruct (fallback_trace lat lon units env w1) as (rest1 & Hs1 & Hn1 & _).
  destruct (fallback_trace lat lon units env
              (snd (fetch_weather_and_forecast lat lon units env w1)))
    as (rest2 & Hs2 & Hn2 & _).
  rewrite Hw1, <- app_assoc in Hs1. cbn [app] in Hs1.
  rewrite Hs1, <- app_assoc in Hs2. cbn [app] in Hs2.
  assert (Hfb : exists rest,
            sent (snd (fetch_weather_and_forecast lat lon units env w1))
            = sent w ++ GetOneCall lat lon units :: rest
            /\ Forall (fun r => is_onecall r = false) rest
            /\ exists rest', rest = GetWeather lat lon units :: rest').
  { exists (GetWeather lat lon units :: rest1). split; [exact Hs1|]. split; [|eauto].
    constructor; [reflexivity|exact Hn1]. }
  destruct (onecall_api env (sent w) lat lon units) as [r|msg].
  - destruct (status_code r =? 200).
    + exists []. split; [exact Hw1|]. split; [constructor|discriminate].
    + destruct (fetch_weather_and_forecast lat lon units env w1) as [[a|e] w2] eqn:Ef;
        cbn [fst snd] in *.
      * destruct Hfb as (rest & H1 & H2 & H3). exists rest. auto.
      * destruct (is_RequestException (exn_cls e)).
        -- exists (GetWeather lat lon units :: rest1 ++ GetWeather lat lon units :: rest2).
           split; [exact Hs2|]. split; [|eauto]. constructor; [reflexivity|].
           apply Forall_app. split; [exact Hn1|]. constructor; [reflexivity|exact Hn2].
        -- destruct Hfb as (rest & H1 & H2 & H3). exists rest. auto.
  - destruct Hfb as (rest & H1 & H2 & H3). exists rest. auto.
Qed.

Lemma truthy_nonempty (s : string) : s <> EmptyString -> truthy (Some s) = true.
Proof. destruct s; [congruence|reflexivity]. Qed.


(** ** The quantizer under any arithmetic *)

Section AnyArith.
Variable A : Arith.

Lemma mapM_In {X Y} (f : X -> result Y) (l : list X) (out : list Y) :
  mapM f l = Ok out -> forall y, In y out -> exists x, In x l /\ f x = Ok y.
Proof.
  revert out; induction l as [|x l IH]; simpl; intros out H y Hy.
  - injection H as <-. destruct Hy.
  - destruct (f x) as [y0|e] eqn:Ex; simpl in H; [|discriminate].
    destruct (mapM f l) as [ys|e]; simpl in H; [|discriminate].
    injection H as <-. destruct Hy as [<-|Hy]; [eauto|].
    destruct (IH ys Logic.eq_refl y Hy) as (x' & Hx' & Hf). eauto.
Qed.

(** Whatever resampling returns has the width asked for and is made of
    samples of the input. *)
Lemma resample_shape (values : list (num A)) (W : Z) (vals : list (num A)) :
  0 < W -> resample A values W = Ok vals ->
  List.length vals = Z.to_nat W /\ forall v, In v vals -> In v values.
Proof.
  intros HW. unfold resample.
  destruct (W <? len values) eqn:E.
  - destruct (num_true_div A _ _) as [step|e]; simpl; [|discriminate].
    intros H. split.
    + apply mapM_length in H. now rewrite H, range_length.
    + intros v Hv. destruct (mapM_In _ _ _ H v Hv) as (i & _ & Hi).
      destruct (num_to_int A _); simpl in Hi; [|discriminate].
      eapply py_getitem_In; eauto.
  - apply Z.ltb_ge in E.
    destruct (py_getitem values (-1)) as [last|e] eqn:El; simpl; [|discriminate].
    intros [= <-]. split.
    + rewrite length_app, repeat_length. unfold len in *. lia.
    + intros v Hv. apply in_app_or in Hv. destruct Hv as [Hv|Hv]; [exact Hv|].
      apply repeat_spec in Hv. subst. eapply py_getitem_In; eauto.
Qed.

(** An input that is not longer than the width is padded, with no
    arithmetic involved. *)
Lemma resample_pad (values : list (num A)) (W : Z) (d : num A) :
  values <> [] -> len values <= W ->
  resample A values W
  = Ok (values ++ repeat (List.last values d) (Z.to_nat (W - len values))).
Proof.
  intros Hne HW. unfold resample.
  replace (W <? len values) with false by (symmetry; apply Z.ltb_ge; exact HW).
  now rewrite (py_getitem_last values d Hne).
Qed.

Lemma glyphs_of_palette {X} (f : X -> result Z) (clamp : Z -> Z)
  (vals : list X) (out : list char) :
  mapM (fun v => idx <- f v ;; str_getitem SPARK (clamp idx)) vals = Ok out ->
  List.length out = List.length vals /\ Forall (fun c => In c SPARK) out.
Proof.
  intros H. split; [eapply mapM_length; eauto|].
  apply Forall_forall. intros c Hc.
  destruct (mapM_In _ _ _ H c Hc) as (v & _ & Hv).
  destruct (f v); simpl in Hv; [|discriminate].
  eapply str_getitem_In; eauto.
Qed.

Lemma flat_glyphs {X} (vals : list X) :
  mapM (fun _ => str_getitem SPARK 0) vals
  = Ok (repeat lowest_glyph (List.length vals)).
Proof.
  rewrite (mapM_total _ (fun _ => lowest_glyph)) by (intros; reflexivity).
  now rewrite map_const_repeat.
Qed.

(** Whatever either variant returns for a non-empty input and a positive
    width is [W] glyphs of the palette. *)
Lemma sparkline_shape_any (values : list (num A)) (W : Z) (out : list char) :
  values <> [] -> 0 < W ->
  Spark.sparkline A values W = Ok out \/ Rich.sparkline A values W = Ok out ->
  len out = W /\ Forall (fun c => In c SPARK) out.
Proof.
  intros Hne HW H. unfold Spark.sparkline, Rich.sparkline in H.
  destruct values as [|x values]; [congruence|].
  destruct (resample A (x :: values) W) as [vals|e] eqn:Er;
    [|destruct H; discriminate].
  destruct (resample_shape _ _ _ HW Er) as [Hlen _].
  cbn [rbind] in H.
  destruct (py_min (num_lt A) vals) as [lo|e]; [|destruct H; discriminate].
  destruct (py_max (num_lt A) vals) as [hi|e]; [|destruct H; discriminate].
  cbn [rbind] in H.
  assert (G : List.length out = List.length vals
              /\ Forall (fun c => In c SPARK) out).
  { destruct (num_eq A hi lo).
    - assert (H' : mapM (fun _ : num A => str_getitem SPARK 0) vals = Ok out)
        by (destruct H; assumption).
      rewrite flat_glyphs in H'. injection H' as <-.
      split; [apply repeat_length|].
      apply Forall_forall. intros c Hc. apply repeat_spec in Hc. subst.
      now left.
    - destruct H as [H|H].
      + exact (glyphs_of_palette (level A lo hi)
                 (fun idx => Z.max 0 (Z.min (len SPARK - 1) idx)) vals out H).
      + exact (glyphs_of_palette (level A lo hi) (fun idx => idx) vals out H). }
  destruct G as [G1 G2]. split; [unfold len; lia|exact G2].
Qed.

Lemma fold_pick_const {X} (pick : X -> X -> bool) (l : list X) (x : X) :
  (forall v, In v l -> v = x) ->
  fold_left (fun m y => if pick m y then y else m) l x = x.
Proof.
  induction l as [|y l IH]; simpl; intros H; [reflexivity|].
  rewrite (H y (or_introl Logic.eq_refl)).
  destruct (pick x x); apply IH; intros; apply H; now right.
Qed.

(** A flat working set is drawn with the lowest glyph only. *)
Lemma quantize_flat (values vals : list (num A)) (x : num A) :
  vals <> [] -> (forall v, In v vals -> v = x) -> num_eq A x x = true ->
  values <> [] -> forall W,
  resample A values W = Ok vals ->
  Spark.sparkline A values W = Ok (repeat lowest_glyph (List.length vals))
  /\ Rich.sparkline A values W = Ok (repeat lowest_glyph (List.length vals)).
Proof.
  intros Hvals Hflat Heq Hne W Hr. unfold Spark.sparkline, Rich.sparkline.
  destruct values as [|y values]; [congruence|]. rewrite Hr. cbn [rbind].
  destruct vals as [|v0 vals']; [congruence|].
  assert (H0 : v0 = x) by (apply Hflat; now left).
  assert (Hmin : py_min (num_lt A) (v0 :: vals') = Ok x).
  { cbn [py_min]. f_equal. subst v0.
    apply (fold_pick_const (fun m y => num_lt A y m)).
    intros; apply Hflat; now right. }
  assert (Hmax : py_max (num_lt A) (v0 :: vals') = Ok x).
  { cbn [py_max]. f_equal. subst v0.
    apply (fold_pick_const (num_lt A)). intros; apply Hflat; now right. }
  rewrite Hmin, Hmax. cbn [rbind]. rewrite Heq.
  split; apply flat_glyphs.
Qed.


End AnyArith.

(** ** Floats of small integers *)

Lemma sample_floats_eq : sample_floats = float_table (zrange (-128) 128).
Proof. vm_compute. reflexivity. Qed.

Lemma diff_floats_eq : diff_floats = float_table (zrange (-256) 256).
Proof. vm_compute. reflexivity. Qed.

Lemma pairs_checked :
  forallb (fun a => forallb (pair_check a) sample_floats) sample_floats = true.
Proof. vm_compute. reflexivity. Qed.

Lemma quots_checked :
  forallb (fun q => forallb (quot_check q) diff_floats) diff_floats = true.
Proof. vm_compute. reflexivity. Qed.

Lemma grid_sound {X} (check : X -> X -> bool) (l : list X) :
  forallb (fun a => forallb (check a) l) l = true ->
  forall a b, In a l -> In b l -> check a b = true.
Proof.
  intros H a b Ha Hb. rewrite forallb_forall in H. specialize (H a Ha).
  rewrite forallb_forall in H. exact (H b Hb).
Qed.

Lemma zrange_In (a b z : Z) : In z (zrange a b) <-> a <= z <= b.
Proof.
  unfold zrange. rewrite in_map_iff. split.
  - intros (i & <- & Hi). apply in_seq in Hi. lia.
  - intros H. exists (Z.to_nat (z - a)). split; [lia|]. apply in_seq. lia.
Qed.

Lemma float_table_In (first final z : Z) :
  first <= z <= final ->
  In (z, float_of_Z z) (float_table (zrange first final)).
Proof.
  intros H. unfold float_table. apply in_map_iff. exists z.
  split; [reflexivity|]. now apply zrange_In.
Qed.

Lemma float_at_spec (first final z : Z) :
  first <= z <= final ->
  float_at (float_table (zrange first final)) first z = float_of_Z z.
Proof.
  intros H. unfold float_at, float_table, zrange.
  rewrite map_map.
  rewrite (nth_indep _ (0, nan) ((fun i => (first + Z.of_nat i, float_of_Z (first + Z.of_nat i))) 0%nat))
    by (rewrite length_map, length_seq; lia).
  rewrite (map_nth (fun i => (first + Z.of_nat i, float_of_Z (first + Z.of_nat i)))).
  rewrite seq_nth by lia. cbn [snd]. f_equal. lia.
Qed.

(** Floats of small integers subtract and compare as the integers do. *)
Lemma small_pairs (a b : Z) :
  -128 <= a <= 128 -> -128 <= b <= 128 ->
  PrimFloat.sub (float_of_Z a) (float_of_Z b) = float_of_Z (a - b)
  /\ PrimFloat.ltb (float_of_Z a) (float_of_Z b) = (a <? b)
  /\ PrimFloat.eqb (float_of_Z a) (float_of_Z b) = (a =? b).
Proof.
  intros Ha Hb.
  pose proof (grid_sound pair_check sample_floats pairs_checked
                (a, float_of_Z a) (b, float_of_Z b)) as H.
  rewrite sample_floats_eq in H.
  specialize (H (float_table_In _ _ _ Ha) (float_table_In _ _ _ Hb)).
  unfold pair_check in H. rewrite diff_floats_eq in H.
  cbn [fst snd] in H. rewrite !andb_true_iff in H. destruct H as [[H1 H2] H3].
  apply FloatAxioms.Leibniz.eqb_spec in H1.
  rewrite float_at_spec in H1 by lia.
  apply Bool.eqb_prop in H2. apply Bool.eqb_prop in H3. auto.
Qed.

(** The float computation of the palette index from two small differences
    is the integer quotient. *)
Lemma small_quots (p q : Z) :
  0 <= p <= q -> 0 < q <= 256 ->
  rbind (float_div_checked (float_of_Z p) (float_of_Z q))
        (fun x => float_to_int (PrimFloat.mul x 7%float))
  = Ok (7 * p / q).
Proof.
  intros Hp Hq.
  pose proof (grid_sound quot_check diff_floats quots_checked
                (q, float_of_Z q) (p, float_of_Z p)) as H.
  rewrite diff_floats_eq in H.
  assert (Hq' : -256 <= q <= 256) by lia.
  assert (Hp' : -256 <= p <= 256) by lia.
  specialize (H (float_table_In _ _ _ Hq') (float_table_In _ _ _ Hp')).
  unfold quot_check in H. cbn [fst snd] in H.
  replace (p <? 0) with false in H by (symmetry; apply Z.ltb_ge; lia).
  replace (q <? p) with false in H by (symmetry; apply Z.ltb_ge; lia).
  replace (q <=? 0) with false in H by (symmetry; apply Z.leb_gt; lia).
  cbn [orb] in H. cbv iota in H.
  destruct (rbind _ _) as [k|e]; [|discriminate].
  apply Z.eqb_eq in H. now subst.
Qed.

Lemma level_small (lo hi v : Z) :
  -128 <= lo -> hi <= 128 -> lo <= v <= hi -> lo < hi ->
  level binary64 (float_of_Z lo) (float_of_Z hi) (float_of_Z v)
  = Ok (7 * (v - lo) / (hi - lo)).
Proof.
  intros H1 H2 H3 H4. unfold level.
  cbn [num_div num_sub num_mul num_to_int num_of_int binary64].
  destruct (small_pairs v lo) as (-> & _); [lia|lia|].
  destruct (small_pairs hi lo) as (-> & _); [lia|lia|].
  change (float_of_Z (len SPARK - 1)) with 7%float.
  apply small_quots; lia.
Qed.

Lemma level_exact_Z (lo hi v : Z) :
  lo <= v <= hi -> lo < hi ->
  level exact (inject_Z lo) (inject_Z hi) (inject_Z v)
  = Ok (7 * (v - lo) / (hi - lo)).
Proof.
  intros H3 H4. unfold level.
  cbn [num_div num_sub num_mul num_to_int num_of_int exact].
  change (len SPARK - 1) with 7.
  assert (Hd : (0 < inject_Z hi - inject_Z lo)%Q).
  { unfold Qminus. rewrite <- Qlt_minus_iff. rewrite <- Zlt_Qlt. lia. }
  rewrite Qdiv_checked_pos by exact Hd. cbn [rbind]. f_equal.
  assert (E : ((inject_Z v - inject_Z lo) / (inject_Z hi - inject_Z lo) * inject_Z 7
               == inject_Z (7 * (v - lo)) / inject_Z (hi - lo))%Q).
  { rewrite inject_Z_mult. unfold Z.sub. rewrite !inject_Z_plus, !inject_Z_opp.
    field. intros C. unfold Qminus in Hd. rewrite C in Hd. discriminate. }
  rewrite (Qtrunc_comp _ _ E).
  rewrite Qtrunc_nonneg.
  - symmetry. apply Zdiv_Qdiv.
  - apply Qle_shift_div_l; [apply inject_Z_pos; lia|].
    rewrite Qmult_0_l. apply inject_Z_nonneg. lia.
Qed.

Lemma fold_pick_map_on {X Y} (P : X -> Prop) (pa : X -> X -> bool)
  (pb : Y -> Y -> bool) (g : X -> Y) (l : list X) (x : X) :
  (forall u v, P u -> P v -> pb (g u) (g v) = pa u v) ->
  P x -> (forall y, In y l -> P y) ->
  fold_left (fun m y => if pb m y then y else m) (map g l) (g x)
  = g (fold_left (fun m y => if pa m y then y else m) l x).
Proof.
  intros H. revert x; induction l as [|y l IH]; intros x Hx Hl;
    cbn [map fold_left]; [reflexivity|].
  rewrite H; [|exact Hx|apply Hl; now left].
  destruct (pa x y); apply IH; auto; try (intros; apply Hl; now right).
  apply Hl; now left.
Qed.

Lemma py_min_map_on {X Y} (P : X -> Prop) (la : X -> X -> bool)
  (lb : Y -> Y -> bool) (g : X -> Y) (l : list X) :
  (forall u v, P u -> P v -> lb (g u) (g v) = la u v) ->
  (forall y, In y l -> P y) ->
  py_min lb (map g l) = rbind (py_min la l) (fun m => Ok (g m)).
Proof.
  intros H Hl. destruct l as [|x l]; cbn [map py_min rbind]; [reflexivity|].
  f_equal.
  apply (fold_pick_map_on P (fun m y => la y m) (fun m y => lb y m)).
  - intros; apply H; assumption.
  - apply Hl; now left.
  - intros; apply Hl; now right.
Qed.

Lemma py_max_map_on {X Y} (P : X -> Prop) (la : X -> X -> bool)
  (lb : Y -> Y -> bool) (g : X -> Y) (l : list X) :
  (forall u v, P u -> P v -> lb (g u) (g v) = la u v) ->
  (forall y, In y l -> P y) ->
  py_max lb (map g l) = rbind (py_max la l) (fun m => Ok (g m)).
Proof.
  intros H Hl. destruct l as [|x l]; cbn [map py_max rbind]; [reflexivity|].
  f_equal.
  apply (fold_pick_map_on P la lb).
  - exact H.
  - apply Hl; now left.
  - intros; apply Hl; now right.
Qed.

Lemma fold_min_le_Z (l : list Z) (x : Z) :
  let r := fold_left (fun m y => if y <? m then y else m) l x in
  r <= x /\ forall v, In v l -> r <= v.
Proof.
  revert x; induction l as [|y l IH]; intros x; cbn [fold_left]; cbv zeta.
  - split; [lia|intros v []].
  - destruct (y <? x) eqn:E.
    + apply Z.ltb_lt in E. destruct (IH y) as [H1 H2]. split; [lia|].
      intros v [<-|Hv]; auto.
    + apply Z.ltb_ge in E. destruct (IH x) as [H1 H2]. split; [exact H1|].
      intros v [<-|Hv]; [lia|auto].
Qed.

Lemma fold_max_ge_Z (l : list Z) (x : Z) :
  let r := fold_left (fun m y => if m <? y then y else m) l x in
  x <= r /\ forall v, In v l -> v <= r.
Proof.
  revert x; induction l as [|y l IH]; intros x; cbn [fold_left]; cbv zeta.
  - split; [lia|intros v []].
  - destruct (x <? y) eqn:E.
    + apply Z.ltb_lt in E. destruct (IH y) as [H1 H2]. split; [lia|].
      intros v [<-|Hv]; auto.
    + apply Z.ltb_ge in E. destruct (IH x) as [H1 H2]. split; [exact H1|].
      intros v [<-|Hv]; [lia|auto].
Qed.

Lemma Qlt_bool_inject (u v : Z) : Qlt_bool (inject_Z u) (inject_Z v) = (u <? v).
Proof.
  destruct (u <? v) eqn:E.
  - apply Qlt_bool_iff. rewrite <- Zlt_Qlt. now apply Z.ltb_lt.
  - apply Qlt_bool_false. rewrite <- Zle_Qle. now apply Z.ltb_ge.
Qed.

Lemma Qeq_bool_inject (u v : Z) : Qeq_bool (inject_Z u) (inject_Z v) = (u =? v).
Proof.
  destruct (u =? v) eqn:E.
  - apply Z.eqb_eq in E. subst. apply Qeq_bool_iff. reflexivity.
  - apply Z.eqb_neq in E. destruct (Qeq_bool _ _) eqn:E'; [|reflexivity].
    apply Qeq_bool_iff in E'. unfold Qeq in E'. cbn in E'. lia.
Qed.

Lemma last_map {X Y} (g : X -> Y) (l : list X) (d : X) :
  List.last (map g l) (g d) = g (List.last l d).
Proof.
  induction l as [|x l IH]; [reflexivity|].
  destruct l as [|y l]; [reflexivity|]. exact IH.
Qed.

Lemma resample_padded (A : Arith) (g : Z -> num A) (zs : list Z) (W : Z) :
  zs <> [] -> len zs <= W ->
  resample A (map g zs) W = Ok (map g (padded zs W)).
Proof.
  intros Hne HW.
  rewrite (resample_pad A (map g zs) W (g 0));
    [|destruct zs; [congruence|discriminate]|rewrite len_map; exact HW].
  unfold padded. now rewrite last_map, len_map, map_app, map_repeat.
Qed.

Lemma padded_In (zs : list Z) (W z : Z) :
  zs <> [] -> In z (padded zs W) -> In z zs.
Proof.
  intros Hne H. unfold padded in H. apply in_app_or in H.
  destruct H as [H|H]; [exact H|]. apply repeat_spec in H. subst.
  destruct (exists_last Hne) as (l' & a' & ->). rewrite last_last.
  apply in_or_app. right. now left.
Qed.

Lemma sparkline_spark_cons (A : Arith) (x : num A) (xs : list (num A)) (W : Z) :
  Spark.sparkline A (x :: xs) W
  = (vals <- resample A (x :: xs) W ;;
     lo <- py_min (num_lt A) vals ;;
     hi <- py_max (num_lt A) vals ;;
     if num_eq A hi lo then mapM (fun _ => str_getitem SPARK 0) vals
     else mapM (fun v => idx <- level A lo hi v ;;
                         str_getitem SPARK (Z.max 0 (Z.min (len SPARK - 1) idx)))
               vals).
Proof. reflexivity. Qed.

Lemma sparkline_rich_cons (A : Arith) (x : num A) (xs : list (num A)) (W : Z) :
  Rich.sparkline A (x :: xs) W
  = (vals <- resample A (x :: xs) W ;;
     lo <- py_min (num_lt A) vals ;;
     hi <- py_max (num_lt A) vals ;;
     if num_eq A hi lo then mapM (fun _ => str_getitem SPARK 0) vals
     else mapM (fun v => idx <- level A lo hi v ;; str_getitem SPARK idx) vals).
Proof. reflexivity. Qed.

(** On small integers, not more than the width of them, the float
    computation is the exact one. *)
Lemma sparkline_small_integers (zs : list Z) (W : Z) :
  zs <> [] -> (forall z, In z zs -> -128 <= z <= 128) -> len zs <= W ->
  Spark.sparkline binary64 (map float_of_Z zs) W
  = Spark.sparkline exact (map inject_Z zs) W
  /\ Rich.sparkline binary64 (map float_of_Z zs) W
     = Rich.sparkline exact (map inject_Z zs) W.
Proof.
  intros Hne Hsmall HW.
  pose (P := fun z : Z => -128 <= z <= 128).
  assert (HP : forall y, In y (padded zs W) -> P y)
    by (intros y Hy; apply Hsmall; eapply padded_In; eauto).
  assert (HF : forall u v, P u -> P v ->
            PrimFloat.ltb (float_of_Z u) (float_of_Z v) = (u <? v))
    by (intros u v Hu Hv; apply small_pairs; assumption).
  assert (HQ : forall u v, P u -> P v ->
            Qlt_bool (inject_Z u) (inject_Z v) = (u <? v))
    by (intros; apply Qlt_bool_inject).
  pose proof (resample_padded binary64 float_of_Z zs W Hne HW) as Rf.
  pose proof (resample_padded exact inject_Z zs W Hne HW) as Rq.
  pose proof (py_min_map_on P Z.ltb PrimFloat.ltb float_of_Z _ HF HP) as Mf.
  pose proof (py_max_map_on P Z.ltb PrimFloat.ltb float_of_Z _ HF HP) as Xf.
  pose proof (py_min_map_on P Z.ltb Qlt_bool inject_Z _ HQ HP) as Mq.
  pose proof (py_max_map_on P Z.ltb Qlt_bool inject_Z _ HQ HP) as Xq.
  assert (Hpad : padded zs W <> [])
    by (unfold padded; destruct zs; [congruence|discriminate]).
  destruct (padded zs W) as [|p0 ps] eqn:Ep; [congruence|].
  cbn [py_min py_max rbind] in Mf, Xf, Mq, Xq.
  destruct (fold_min_le_Z ps p0) as [L1 L2].
  destruct (fold_max_ge_Z ps p0) as [U1 U2].
  pose proof (fold_pick_In (fun m y => y <? m) ps p0) as Lin.
  pose proof (fold_pick_In Z.ltb ps p0) as Uin.
  set (zlo := fold_left (fun m y => if y <? m then y else m) ps p0) in *.
  set (zhi := fold_left (fun m y => if m <? y then y else m) ps p0) in *.
  assert (Hlo : P zlo) by (apply HP; exact Lin).
  assert (Hhi : P zhi) by (apply HP; exact Uin).
  assert (Hle : forall v, In v (p0 :: ps) -> zlo <= v <= zhi).
  { intros v [<-|Hv]; [lia|]. split; [apply L2|apply U2]; exact Hv. }
  assert (Eeq : PrimFloat.eqb (float_of_Z zhi) (float_of_Z zlo) = (zhi =? zlo))
    by (apply small_pairs; assumption).
  destruct zs as [|z0 zs']; [congruence|].
  cbn [map]. rewrite !sparkline_spark_cons, !sparkline_rich_cons.
  change (float_of_Z z0 :: map float_of_Z zs') with (map float_of_Z (z0 :: zs')).
  change (inject_Z z0 :: map inject_Z zs') with (map inject_Z (z0 :: zs')).
  change (num binary64) with float in *. change (num exact) with Q in *.
  rewrite Rf, Rq. cbn [rbind num_lt num_eq binary64 exact].
  change (num binary64) with float in *. change (num exact) with Q in *.
  rewrite Mf, Xf, Mq, Xq. cbn [rbind].
  rewrite Eeq, Qeq_bool_inject.
  destruct (zhi =? zlo) eqn:E.
  - rewrite !flat_glyphs, !length_map. auto.
  - apply Z.eqb_neq in E.
    assert (Hlt : zlo < zhi).
    { specialize (Hle zlo (Lin)). lia. }
    rewrite !mapM_map.
    split; apply mapM_ext_in; intros v Hv;
      rewrite level_small, level_exact_Z; try reflexivity;
      try (apply Hle; exact Hv); try exact Hlt; unfold P in *; lia.
Qed.

(** Small integers, not more of them than the width: both variants return
    the same string on floats, the one computed exactly. *)
Lemma sparkline_small_integers_ok (zs : list Z) (W : Z) :
  zs <> [] -> (forall z, In z zs -> -128 <= z <= 128) -> len zs <= W ->
  exists out,
    Spark.sparkline binary64 (map float_of_Z zs) W = Ok out
    /\ Rich.sparkline binary64 (map float_of_Z zs) W = Ok out
    /\ Rich.sparkline exact (map inject_Z zs) W = Ok out
    /\ len out = W /\ Forall (fun c => In c SPARK) out.
Proof.
  intros Hne Hsmall HW.
  destruct (sparkline_small_integers zs W Hne Hsmall HW) as [E1 E2].
  assert (Hpos : 0 < W).
  { destruct zs; [congruence|]. unfold len in HW. simpl in HW. lia. }
  destruct (sparkline_exact_shape (map inject_Z zs) W) as (out & Hout & Hlen & Hpal);
    [destruct zs; [congruence|discriminate]|exact Hpos|].
  exists out. rewrite E1, E2, sparkline_exact_agree. auto.
Qed.

(** ** Rounding of binary64, read off [SpecFloat] *)

Lemma digits2_pos_bounds (p : positive) :
  2 ^ (Z.pos (digits2_pos p) - 1) <= Z.pos p < 2 ^ Z.pos (digits2_pos p).
Proof.
  induction p as [p IH|p IH|]; cbn [digits2_pos]; [| |cbn; lia].
  - rewrite Pos2Z.inj_succ.
    replace (Z.succ (Z.pos (digits2_pos p)) - 1)
      with (Z.succ (Z.pos (digits2_pos p) - 1)) by lia.
    rewrite !Z.pow_succ_r by lia. lia.
  - rewrite Pos2Z.inj_succ.
    replace (Z.succ (Z.pos (digits2_pos p)) - 1)
      with (Z.succ (Z.pos (digits2_pos p) - 1)) by lia.
    rewrite !Z.pow_succ_r by lia. lia.
Qed.

Lemma Zdigits2_bounds (m : Z) :
  0 < m -> 2 ^ (Zdigits2 m - 1) <= m < 2 ^ Zdigits2 m.
Proof. destruct m as [|p|p]; try lia. intros _. apply digits2_pos_bounds. Qed.

Lemma Zdigits2_nonneg (m : Z) : 0 <= Zdigits2 m.
Proof. destruct m; cbn; lia. Qed.

Lemma shr_1_m (r : shr_record) : 0 <= shr_m r -> shr_m (shr_1 r) = shr_m r / 2.
Proof.
  destruct r as [m r s]. cbn [shr_m shr_1].
  destruct m as [|[p|p|]|p]; cbn [shr_m]; intros H; try lia;
    try reflexivity.
  - apply Z.div_unique with 1; lia.
  - apply Z.div_unique with 0; lia.
Qed.

Lemma iter_shr_m (p : positive) (r : shr_record) :
  0 <= shr_m r -> shr_m (iter_pos shr_1 p r) = shr_m r / 2 ^ Z.pos p.
Proof.
  revert r. induction p as [p IH|p IH|]; intros r H; cbn [iter_pos].
  - assert (H1 : 0 <= shr_m (shr_1 r)) by (rewrite shr_1_m by exact H; apply Z.div_pos; lia).
    assert (H2 : 0 <= shr_m (iter_pos shr_1 p (shr_1 r)))
      by (rewrite IH by exact H1; apply Z.div_pos; [lia|apply Z.pow_pos_nonneg; lia]).
    rewrite IH by exact H2. rewrite IH by exact H1. rewrite shr_1_m by exact H.
    assert (0 < 2 ^ Z.pos p) by (apply Z.pow_pos_nonneg; lia).
    rewrite !Z.div_div by lia. f_equal.
    change (Z.pos p~1) with (2 * Z.pos p + 1).
    replace (2 * Z.pos p + 1) with (1 + Z.pos p + Z.pos p) by lia.
    rewrite !Z.pow_add_r by lia. lia.
  - assert (H2 : 0 <= shr_m (iter_pos shr_1 p r))
      by (rewrite IH by exact H; apply Z.div_pos; [lia|apply Z.pow_pos_nonneg; lia]).
    rewrite IH by exact H2. rewrite IH by exact H.
    assert (0 < 2 ^ Z.pos p) by (apply Z.pow_pos_nonneg; lia).
    rewrite !Z.div_div by lia. f_equal.
    change (Z.pos p~0) with (2 * Z.pos p).
    replace (2 * Z.pos p) with (Z.pos p + Z.pos p) by lia.
    rewrite !Z.pow_add_r by lia. lia.
  - rewrite shr_1_m by exact H. reflexivity.
Qed.

Lemma shr_fexp_spec (m e : Z) (l : location) :
  0 <= m ->
  shr_m (fst (shr_fexp prec emax m e l)) = m / 2 ^ shift_of m e
  /\ snd (shr_fexp prec emax m e l) = e + shift_of m e
  /\ (shift_of m e = 0 ->
      fst (shr_fexp prec emax m e l) = shr_record_of_loc m l).
Proof.
  intros Hm. unfold shr_fexp, shift_of, shr.
  assert (Hrec : shr_m (shr_record_of_loc m l) = m)
    by (destruct l as [|[| |]]; reflexivity).
  destruct (fexp prec emax (Zdigits2 m + e) - e) as [|n|n] eqn:En; cbn [fst snd].
  - rewrite Hrec. cbn. rewrite Z.div_1_r. repeat split; lia.
  - rewrite iter_shr_m by lia. rewrite Hrec.
    replace (Z.max 0 (Z.pos n)) with (Z.pos n) by lia. repeat split; lia.
  - rewrite Hrec. replace (Z.max 0 (Z.neg n)) with 0 by lia. cbn.
    rewrite Z.div_1_r. repeat split; lia.
Qed.

Lemma binary_round_aux_me (s : bool) (m e : Z) (l : location) :
  binary_round_aux prec emax s m e l
  = match fst (round_me m e l) with
    | 0 => S754_zero s
    | Z.pos p =>
        if snd (round_me m e l) <=? emax - prec
        then S754_finite s p (snd (round_me m e l))
        else S754_infinity s
    | Z.neg _ => S754_nan
    end.
Proof.
  unfold binary_round_aux, round_me.
  destruct (shr_fexp prec emax m e l) as [mrs' e'].
  destruct (shr_fexp prec emax _ e' loc_Exact) as [mrs'' e''].
  reflexivity.
Qed.

Lemma round_nearest_even_range (m : Z) (l : location) :
  m <= round_nearest_even m l <= m + 1.
Proof.
  destruct l as [|[| |]]; cbn [round_nearest_even]; try lia.
  destruct (Z.even m); lia.
Qed.

Lemma fexp_ge_emin (e : Z) : -1074 <= fexp prec emax e.
Proof. unfold fexp, emin, prec, emax. lia. Qed.

Lemma fexp_cases (e : Z) :
  fexp prec emax e = e - 53 \/ (fexp prec emax e = -1074 /\ e - 53 <= -1074).
Proof. unfold fexp, emin, prec, emax. lia. Qed.

Lemma div_pow2_ge (x d k : Z) :
  0 <= k -> k <= d - 1 -> 2 ^ (d - 1) <= x -> 2 ^ (d - 1 - k) <= x / 2 ^ k.
Proof.
  intros Hk Hd Hx.
  assert (P : 0 < 2 ^ k) by (apply Z.pow_pos_nonneg; lia).
  apply Z.div_le_lower_bound; [exact P|].
  rewrite <- Z.pow_add_r by lia. replace (k + (d - 1 - k)) with (d - 1) by lia.
  exact Hx.
Qed.

Lemma shift_mantissa (m e : Z) :
  0 <= m -> 0 < shift_of m e ->
  e + shift_of m e = -1074 \/ 2 ^ 52 <= m / 2 ^ shift_of m e.
Proof.
  intros Hm Hs. unfold shift_of in *.
  destruct (fexp_cases (Zdigits2 m + e)) as [F|[F _]]; [|left; lia].
  right.
  assert (Hpos : 0 < m).
  { destruct (Z.eq_dec m 0) as [->|]; [|lia]. cbn [Zdigits2] in *. lia. }
  pose proof (Zdigits2_bounds m Hpos) as Hd.
  replace (Z.max 0 (fexp prec emax (Zdigits2 m + e) - e))
    with (Zdigits2 m - 53) by lia.
  replace 52 with (Zdigits2 m - 1 - (Zdigits2 m - 53)) by lia.
  apply div_pow2_ge; lia.
Qed.

Lemma shift_mantissa_low (m e : Z) :
  0 <= m -> -1074 <= e -> 0 < shift_of m e -> 2 ^ 52 <= m / 2 ^ shift_of m e.
Proof.
  intros Hm He Hs. destruct (shift_mantissa m e Hm Hs) as [F|F]; [|exact F].
  lia.
Qed.

Lemma round_me_bounds (m e : Z) (l : location) :
  0 <= m ->
  let m'' := fst (round_me m e l) in
  let e'' := snd (round_me m e l) in
  0 <= m'' /\ e <= e''
  /\ m'' * 2 ^ (e'' - e) <= m + 2 ^ (e'' - e)
  /\ m < (m'' + 1) * 2 ^ (e'' - e)
  /\ (l = loc_Exact -> shift_of m e = 0 -> m'' = m /\ e'' = e)
  /\ (e'' = e \/ e'' = -1074 \/ 2 ^ 52 <= m'')
  /\ e + shift_of m e <= e''.
Proof.
  intros Hm. cbv zeta. unfold round_me.
  destruct (shr_fexp_spec m e l Hm) as (S1 & S2 & S3).
  destruct (shr_fexp prec emax m e l) as [mrs' e'] eqn:E1. cbn [fst snd] in S1, S2, S3.
  set (n1 := shift_of m e) in *.
  set (mr := round_nearest_even (shr_m mrs') (loc_of_shr_record mrs')).
  pose proof (round_nearest_even_range (shr_m mrs') (loc_of_shr_record mrs')) as Hr.
  fold mr in Hr. rewrite S1 in Hr.
  assert (Hn1 : 0 <= n1) by (unfold n1, shift_of; lia).
  assert (P1 : 0 < 2 ^ n1) by (apply Z.pow_pos_nonneg; lia).
  assert (Hm1 : 0 <= m / 2 ^ n1) by (apply Z.div_pos; lia).
  assert (Hmr : 0 <= mr) by lia.
  destruct (shr_fexp_spec mr e' loc_Exact Hmr) as (T1 & T2 & T3).
  destruct (shr_fexp prec emax mr e' loc_Exact) as [mrs'' e''] eqn:E2.
  cbn [fst snd] in *.
  set (n2 := shift_of mr e') in *.
  assert (Hn2 : 0 <= n2) by (unfold n2, shift_of; lia).
  assert (P2 : 0 < 2 ^ n2) by (apply Z.pow_pos_nonneg; lia).
  rewrite T1, T2, S2.
  replace (e + n1 + n2 - e) with (n1 + n2) by lia.
  rewrite Z.pow_add_r by lia.
  pose proof (Z.div_mod m (2 ^ n1) ltac:(lia)) as D1.
  pose proof (Z.mod_pos_bound m (2 ^ n1) P1) as B1.
  pose proof (Z.div_mod mr (2 ^ n2) ltac:(lia)) as D2.
  pose proof (Z.mod_pos_bound mr (2 ^ n2) P2) as B2.
  set (m1 := m / 2 ^ n1) in *. set (m2 := mr / 2 ^ n2) in *.
  assert (Hm2 : 0 <= m2) by (apply Z.div_pos; lia).
  split; [exact Hm2|]. split; [lia|].
  assert (U : m2 * (2 ^ n1 * 2 ^ n2) <= m + 2 ^ n1 * 2 ^ n2
              /\ m < (m2 + 1) * (2 ^ n1 * 2 ^ n2)).
  { clear S3 T3 S1 T1 E1 E2. clearbody m1 m2 mr.
    generalize dependent (m mod 2 ^ n1).
    generalize dependent (mr mod 2 ^ n2).
    generalize dependent (2 ^ n1). generalize dependent (2 ^ n2).
    intros B PB r2 D2 B2 A PA r1 D1 B1.
    assert (m2 * B <= m1 + 1) by nia.
    assert (m1 + 1 <= (m2 + 1) * B) by nia.
    split; nia. }
  split; [exact (proj1 U)|]. split; [exact (proj2 U)|]. split; [|split].
  - intros -> Hs. fold n1 in Hs.
    assert (Emr : mr = m).
    { unfold mr. rewrite (S3 Hs). reflexivity. }
    assert (Hs2 : n2 = 0).
    { unfold n2. rewrite Emr, S2, Hs, Z.add_0_r. exact Hs. }
    unfold m2. rewrite Hs2, Emr. cbn. rewrite Z.div_1_r. lia.
  - destruct (Z.eq_dec n2 0) as [Z2|Z2].
    + assert (E2' : m2 = mr) by (unfold m2; rewrite Z2; cbn; apply Z.div_1_r).
      destruct (Z.eq_dec n1 0) as [Z1|Z1]; [left; lia|].
      destruct (shift_mantissa m e Hm) as [F|F]; [fold n1; lia| |].
      * fold n1 in F. right. left. lia.
      * fold n1 in F. fold m1 in F. right. right. lia.
    + right. right. apply shift_mantissa_low; [exact Hmr| |fold n2; lia].
      rewrite S2. unfold n1, shift_of.
      pose proof (fexp_ge_emin (Zdigits2 m + e)). lia.
  - lia.
Qed.

(** ** Values *)

Section RoundingError.
Open Scope Q_scope.

Lemma pow2_pos (e : Z) : 0 < pow2 e.
Proof. apply Qpower_0_lt. reflexivity. Qed.

Lemma pow2_add (a b : Z) : pow2 (a + b) == pow2 a * pow2 b.
Proof. apply Qpower_plus. discriminate. Qed.

Lemma pow2_Z (k : Z) : (0 <= k)%Z -> pow2 k == inject_Z (2 ^ k).
Proof. intros H. unfold pow2. now rewrite Zpower_Qpower. Qed.

Lemma pow2_le (a b : Z) : (a <= b)%Z -> pow2 a <= pow2 b.
Proof. intros H. apply Qpower_le_compat_l; [exact H|]. discriminate. Qed.

Lemma pow2_scale (m e e' : Z) :
  (e <= e')%Z -> inject_Z (m * 2 ^ (e' - e)) * pow2 e == inject_Z m * pow2 e'.
Proof.
  intros H. rewrite inject_Z_mult, <- pow2_Z by lia.
  replace e' with ((e' - e) + e)%Z at 2 by lia. rewrite pow2_add. ring.
Qed.

Lemma mant_nonneg (m e : Z) : (0 <= m)%Z -> 0 <= mant m e.
Proof.
  intros H. unfold mant. apply Qmult_le_0_compat.
  - change 0 with (inject_Z 0). now rewrite <- Zle_Qle.
  - apply Qlt_le_weak, pow2_pos.
Qed.

Lemma mant_pos (m e : Z) : (0 < m)%Z -> 0 < mant m e.
Proof.
  intros H. unfold mant. apply Qmult_lt_0_compat.
  - change 0 with (inject_Z 0). now rewrite <- Zlt_Qlt.
  - apply pow2_pos.
Qed.

Lemma mant_le (m m' e : Z) : (m <= m')%Z -> mant m e <= mant m' e.
Proof.
  intros H. unfold mant. apply Qmult_le_compat_r.
  - now rewrite <- Zle_Qle.
  - apply Qlt_le_weak, pow2_pos.
Qed.

Lemma mant_lt (m m' e : Z) : (m < m')%Z -> mant m e < mant m' e.
Proof.
  intros H. unfold mant. apply Qmult_lt_compat_r.
  - apply pow2_pos.
  - now rewrite <- Zlt_Qlt.
Qed.

Lemma mant_scale (m e e' : Z) :
  (e <= e')%Z -> mant (m * 2 ^ (e' - e)) e == mant m e'.
Proof. apply pow2_scale. Qed.

(** What rounding makes of the value [X = mant m e]: [R = mant m'' e'']. *)
Lemma round_me_value (m e : Z) (l : location) :
  (0 <= m)%Z ->
  let m'' := fst (round_me m e l) in
  let e'' := snd (round_me m e l) in
  mant m'' e'' <= mant m e + pow2 e''
  /\ mant m e < mant m'' e'' + pow2 e''.
Proof.
  intros Hm. cbv zeta.
  destruct (round_me_bounds m e l Hm) as (H0 & He & Hu & Hl & _).
  set (m'' := fst (round_me m e l)) in *. set (e'' := snd (round_me m e l)) in *.
  split.
  - rewrite <- (mant_scale m'' e e'' He).
    assert (P : pow2 e'' == mant (2 ^ (e'' - e)) e).
    { unfold mant. rewrite <- pow2_Z by lia. rewrite <- pow2_add.
      now replace (e'' - e + e)%Z with e'' by lia. }
    rewrite P. unfold mant. rewrite <- Qmult_plus_distr_l, <- inject_Z_plus.
    apply (mant_le _ _ e Hu).
  - rewrite <- (mant_scale m'' e e'' He).
    assert (P : pow2 e'' == mant (2 ^ (e'' - e)) e).
    { unfold mant. rewrite <- pow2_Z by lia. rewrite <- pow2_add.
      now replace (e'' - e + e)%Z with e'' by lia. }
    rewrite P. unfold mant at 2 3. rewrite <- Qmult_plus_distr_l, <- inject_Z_plus.
    apply (mant_lt _ _ e). lia.
Qed.

(** A mantissa of 53 digits: its last place is worth [u52] of the value. *)
Lemma ulp_rel (m e : Z) : (2 ^ 52 <= m)%Z -> pow2 e <= mant m e * u52.
Proof.
  intros H. unfold mant, u52.
  assert (P : pow2 e == inject_Z (2 ^ 52) * pow2 e * pow2 (-52)).
  { rewrite <- pow2_Z by lia. rewrite <- !pow2_add.
    now replace (52 + e + -52)%Z with e by lia. }
  rewrite P at 1. apply Qmult_le_compat_r; [|apply Qlt_le_weak, pow2_pos].
  apply Qmult_le_compat_r; [|apply Qlt_le_weak, pow2_pos].
  now rewrite <- Zle_Qle.
Qed.

Lemma bounded_cases (m : positive) (e : Z) :
  bounded prec emax m e = true ->
  (-1074 <= e <= 971)%Z /\ (Z.pos m < 2 ^ 53)%Z
  /\ (e = (-1074)%Z \/ (2 ^ 52 <= Z.pos m)%Z).
Proof.
  unfold bounded, canonical_mantissa. intros H.
  apply andb_true_iff in H. destruct H as [H1 H2].
  apply Z.eqb_eq in H1. apply Z.leb_le in H2.
  pose proof (digits2_pos_bounds m) as D.
  change (emax - prec)%Z with 971%Z in H2.
  destruct (fexp_cases (Z.pos (digits2_pos m) + e)) as [F|[F F']].
  - assert (Ed : Z.pos (digits2_pos m) = 53%Z) by lia.
    rewrite Ed in D. change (53 - 1)%Z with 52%Z in D.
    pose proof (fexp_ge_emin (Z.pos (digits2_pos m) + e)). repeat split; try lia.
  - assert (Z.pos (digits2_pos m) <= 53)%Z by lia.
    assert (2 ^ Z.pos (digits2_pos m) <= 2 ^ 53)%Z by (apply Z.pow_le_mono_r; lia).
    repeat split; try lia.
Qed.

(** ** Order *)

Lemma mant_opp (m e : Z) : mant (- m) e == - mant m e.
Proof. unfold mant. rewrite inject_Z_opp. ring. Qed.

Lemma mant_lt_exp (m1 m2 : positive) (e1 e2 : Z) :
  bounded prec emax m1 e1 = true -> bounded prec emax m2 e2 = true ->
  (e1 < e2)%Z -> mant (Z.pos m1) e1 < mant (Z.pos m2) e2.
Proof.
  intros B1 B2 He.
  destruct (bounded_cases m1 e1 B1) as (R1 & M1 & _).
  destruct (bounded_cases m2 e2 B2) as (R2 & M2 & [C2|C2]); [lia|].
  apply Qlt_le_trans with (mant (2 ^ 53) e1); [now apply mant_lt|].
  apply Qle_trans with (mant (2 ^ 52) e2); [|now apply mant_le].
  unfold mant. rewrite <- !pow2_Z by lia. rewrite <- !pow2_add.
  apply pow2_le. lia.
Qed.

Lemma Qcompare_lt (a b : Q) : a < b -> (a ?= b) = Lt.
Proof. intros H. now apply Qlt_alt. Qed.

Lemma Qcompare_gt (a b : Q) : b < a -> (a ?= b) = Gt.
Proof. intros H. now apply Qgt_alt. Qed.

Lemma Qcompare_eq (a b : Q) : a == b -> (a ?= b) = Eq.
Proof. intros H. now apply Qeq_alt. Qed.

Lemma mant_compare_pos (m1 m2 : positive) (e1 e2 : Z) :
  bounded prec emax m1 e1 = true -> bounded prec emax m2 e2 = true ->
  (mant (Z.pos m1) e1 ?= mant (Z.pos m2) e2)
  = match (e1 ?= e2)%Z with
    | Lt => Lt
    | Gt => Gt
    | Eq => Pos.compare_cont Eq m1 m2
    end.
Proof.
  intros B1 B2. destruct (Z.compare_spec e1 e2) as [E|E|E].
  - subst e2. change (Pos.compare_cont Eq m1 m2) with (m1 ?= m2)%positive.
    destruct (Pos.compare_spec m1 m2) as [P|P|P].
    + subst. apply Qcompare_eq. reflexivity.
    + apply Qcompare_lt, mant_lt. lia.
    + apply Qcompare_gt, mant_lt. lia.
  - apply Qcompare_lt, mant_lt_exp; assumption.
  - apply Qcompare_gt, mant_lt_exp; assumption.
Qed.

Lemma Qcompare_opp (a b : Q) : (- a ?= - b) = CompOpp (a ?= b).
Proof.
  destruct (Qcompare_spec a b) as [E|E|E]; cbn [CompOpp].
  - apply Qcompare_eq. now rewrite E.
  - apply Qcompare_gt. lra.
  - apply Qcompare_lt. lra.
Qed.

(** [SFcompare] on valid floats that are zero or finite is the order of
    their values. *)
Lemma SFcompare_value (x y : spec_float) :
  valid_binary x = true -> valid_binary y = true ->
  zero_or_finite x = true -> zero_or_finite y = true ->
  SFcompare x y = Some (SF2Q x ?= SF2Q y).
Proof.
  intros Vx Vy Fx Fy.
  destruct x as [sx|sx| |sx mx ex], y as [sy|sy| |sy my ey];
    try discriminate; cbn [SFcompare SF2Q].
  - reflexivity.
  - f_equal. symmetry. destruct sy; cbn [cond_Zopp].
    + apply Qcompare_gt. rewrite mant_opp.
      pose proof (mant_pos (Z.pos my) ey ltac:(lia)). lra.
    + apply Qcompare_lt. apply mant_pos. lia.
  - f_equal. symmetry. destruct sx; cbn [cond_Zopp].
    + apply Qcompare_lt. rewrite mant_opp.
      pose proof (mant_pos (Z.pos mx) ex ltac:(lia)). lra.
    + apply Qcompare_gt. apply mant_pos. lia.
  - cbn [valid_binary] in Vx, Vy. f_equal. symmetry.
    pose proof (mant_pos (Z.pos mx) ex ltac:(lia)) as Px.
    pose proof (mant_pos (Z.pos my) ey ltac:(lia)) as Py.
    destruct sx, sy; cbn [cond_Zopp].
    + rewrite !mant_opp, Qcompare_opp, (mant_compare_pos mx my ex ey Vx Vy).
      destruct (ex ?= ey)%Z; reflexivity.
    + apply Qcompare_lt. rewrite mant_opp. lra.
    + apply Qcompare_gt. rewrite mant_opp. lra.
    + apply mant_compare_pos; assumption.
Qed.

Lemma SFltb_false_le (x y : spec_float) :
  valid_binary x = true -> valid_binary y = true ->
  zero_or_finite x = true -> zero_or_finite y = true ->
  SFltb x y = false -> SF2Q y <= SF2Q x.
Proof.
  intros Vx Vy Fx Fy H. unfold SFltb in H.
  rewrite (SFcompare_value x y Vx Vy Fx Fy) in H.
  destruct (Qcompare_spec (SF2Q x) (SF2Q y)) as [E|E|E]; try discriminate.
  - rewrite E. apply Qle_refl.
  - now apply Qlt_le_weak.
Qed.

(** ** Alignment and normalization *)

Lemma iter_xO (m d : positive) :
  (Z.pos (Pos.iter xO m d) = Z.pos m * 2 ^ Z.pos d)%Z.
Proof.
  induction d as [|d IH] using Pos.peano_ind.
  - cbn. lia.
  - rewrite Pos.iter_succ, Pos2Z.inj_xO, IH, Pos2Z.inj_succ, Z.pow_succ_r by lia.
    lia.
Qed.

Lemma shl_align_spec (mx : positive) (ex ex' : Z) :
  (ex' <= ex)%Z ->
  (Z.pos (fst (shl_align mx ex ex')) = Z.pos mx * 2 ^ (ex - ex'))%Z
  /\ snd (shl_align mx ex ex') = ex'.
Proof.
  intros H. unfold shl_align.
  destruct (ex' - ex)%Z as [|d|d] eqn:E; try lia; cbn [fst snd].
  - replace (ex - ex')%Z with 0%Z by lia. cbn. split; lia.
  - rewrite iter_xO. replace (ex - ex')%Z with (Z.pos d) by lia. split; lia.
Qed.

Lemma shl_align_id (mx : positive) (ex ex' : Z) :
  (ex <= ex')%Z -> shl_align mx ex ex' = (mx, ex).
Proof.
  intros H. unfold shl_align. destruct (ex' - ex)%Z eqn:E; try reflexivity. lia.
Qed.

Lemma Zdigits2_unique (m d : Z) :
  (0 < m)%Z -> (2 ^ (d - 1) <= m < 2 ^ d)%Z -> Zdigits2 m = d.
Proof.
  intros Hm Hd. pose proof (Zdigits2_bounds m Hm) as HD.
  pose proof (Zdigits2_nonneg m) as H0.
  assert (Hd0 : (0 < d)%Z).
  { destruct (Z_lt_le_dec 0 d) as [|N]; [assumption|].
    assert (2 ^ d <= 2 ^ 0)%Z by (apply Z.pow_le_mono_r; lia).
    change (2 ^ 0)%Z with 1%Z in *. lia. }
  destruct (Z.lt_trichotomy (Zdigits2 m) d) as [L|[E|G]]; [|exact E|].
  - assert (2 ^ Zdigits2 m <= 2 ^ (d - 1))%Z by (apply Z.pow_le_mono_r; lia). lia.
  - assert (2 ^ d <= 2 ^ (Zdigits2 m - 1))%Z by (apply Z.pow_le_mono_r; lia). lia.
Qed.

Lemma Zdigits2_shift (m k : Z) :
  (0 < m)%Z -> (0 <= k)%Z -> Zdigits2 (m * 2 ^ k) = (Zdigits2 m + k)%Z.
Proof.
  intros Hm Hk. pose proof (Zdigits2_bounds m Hm) as HD.
  pose proof (Zdigits2_nonneg m) as H0.
  assert (P : (0 < 2 ^ k)%Z) by (apply Z.pow_pos_nonneg; lia).
  assert (Hd : (0 < Zdigits2 m)%Z).
  { destruct m; cbn; lia. }
  apply Zdigits2_unique; [nia|].
  replace (Zdigits2 m + k - 1)%Z with ((Zdigits2 m - 1) + k)%Z by lia.
  rewrite !Z.pow_add_r by lia. nia.
Qed.

(** What [binary_round] arrives at, for a mantissa at an exponent that is
    not below the least one. *)
Lemma binary_round_value (s : bool) (m : positive) (e : Z) :
  (-1074 <= e)%Z ->
  exists m'' e'',
    (0 < m'')%Z
    /\ binary_round prec emax s m e
       = (if (e'' <=? 971)%Z then S754_finite s (Z.to_pos m'') e''
          else S754_infinity s)
    /\ (mant m'' e'' == mant (Z.pos m) e
        \/ ((2 ^ 52 <= m'')%Z
            /\ mant m'' e'' <= mant (Z.pos m) e + pow2 e''
            /\ mant (Z.pos m) e < mant m'' e'' + pow2 e''))
    /\ ((e'' <= e)%Z \/ (2 ^ 52 <= m'')%Z).
Proof.
  intros He. unfold binary_round.
  set (f := fexp prec emax (Z.pos (digits2_pos m) + e)).
  assert (Hf : (-1074 <= f)%Z) by apply fexp_ge_emin.
  destruct (Z_lt_le_dec f e) as [L|G].
  - (* the mantissa is shifted left, and is kept *)
    destruct (shl_align_spec m e f ltac:(lia)) as [A1 A2].
    destruct (shl_align m e f) as [mz ez]. cbn [fst snd] in A1, A2. subst ez.
    rewrite binary_round_aux_me.
    destruct (round_me_bounds (Z.pos mz) f loc_Exact ltac:(lia))
      as (_ & _ & _ & _ & Hx & _ & _).
    assert (Hs : shift_of (Z.pos mz) f = 0%Z).
    { unfold shift_of. rewrite A1.
      rewrite Zdigits2_shift by lia. cbn [Zdigits2].
      replace (Z.pos (digits2_pos m) + (e - f) + f)%Z
        with (Z.pos (digits2_pos m) + e)%Z by lia.
      fold f. lia. }
    destruct (Hx Logic.eq_refl Hs) as [E1 E2]. rewrite E1, E2.
    exists (Z.pos mz), f. split; [lia|]. split; [reflexivity|]. split.
    + left. rewrite A1. apply mant_scale. lia.
    + left. lia.
  - rewrite (shl_align_id m e f G). rewrite binary_round_aux_me.
    pose proof (round_me_bounds (Z.pos m) e loc_Exact ltac:(lia)) as B.
    pose proof (round_me_value (Z.pos m) e loc_Exact ltac:(lia)) as V.
    cbv zeta in B, V.
    destruct B as (H0 & _ & _ & Hl & Hx & Hc & Hsh).
    destruct V as [V1 V2].
    set (m'' := fst (round_me (Z.pos m) e loc_Exact)) in *.
    set (e'' := snd (round_me (Z.pos m) e loc_Exact)) in *.
    assert (Hshift : shift_of (Z.pos m) e = (f - e)%Z).
    { unfold shift_of. cbn [Zdigits2]. fold f. lia. }
    destruct (Z.eq_dec f e) as [Ef|Nf].
    + destruct (Hx Logic.eq_refl ltac:(lia)) as [E1 E2].
      exists (Z.pos m), e. rewrite E1, E2. split; [lia|]. split; [reflexivity|].
      split; left; [reflexivity|lia].
    + assert (Hm : (2 ^ 52 <= m'')%Z) by (destruct Hc as [C|[C|C]]; lia).
      exists m'', e''. split; [lia|]. split.
      * destruct m'' as [|p|p] eqn:Em; try lia. reflexivity.
      * split; right; [|exact Hm]. auto.
Qed.

(** ** Subtraction *)

Lemma rounds_comp (X X' : Q) (r : spec_float) :
  X == X' -> rounds X r -> rounds X' r.
Proof.
  intros E. destruct r as [s|s| |s m e]; cbn [rounds]; intros H;
    [rewrite <- E; exact H|rewrite <- E; exact H|exact H|rewrite <- E; exact H].
Qed.

Lemma u52_pos : 0 < u52.
Proof. apply pow2_pos. Qed.

Lemma mant_sub (a b e : Z) : mant (a - b) e == mant a e - mant b e.
Proof. unfold mant. unfold Z.sub. rewrite inject_Z_plus, inject_Z_opp. ring. Qed.

Lemma cond_Zopp_mul (s : bool) (a b : Z) :
  (cond_Zopp s a * b = cond_Zopp s (a * b))%Z.
Proof. destruct s; cbn [cond_Zopp]; lia. Qed.

Lemma mant_neg (m e : Z) : (m < 0)%Z -> mant m e < 0.
Proof.
  intros H. pose proof (mant_pos (- m) e ltac:(lia)) as P.
  rewrite mant_opp in P. lra.
Qed.

Lemma binary_round_rounds (m : positive) (e : Z) :
  (-1074 <= e <= 971)%Z ->
  rounds (mant (Z.pos m) e) (binary_round prec emax false m e).
Proof.
  intros He.
  destruct (binary_round_value false m e ltac:(lia))
    as (m'' & e'' & Hpos & -> & Hv & Hx).
  pose proof (mant_pos m'' e'' Hpos) as PR.
  pose proof u52_pos as Pu.
  pose proof (pow2_pos e'') as Pe.
  assert (PRu : 0 <= mant m'' e'' * u52)
    by (apply Qmult_le_0_compat; lra).
  destruct (e'' <=? 971)%Z eqn:E; cbn [rounds].
  - rewrite Z2Pos.id by exact Hpos. split; [reflexivity|].
    destruct Hv as [Hv|(Hm & V1 & V2)].
    + rewrite <- Hv. split; lra.
    + pose proof (ulp_rel m'' e'' Hm). split; lra.
  - apply Z.leb_gt in E. split; [reflexivity|].
    destruct Hx as [Hx|Hm]; [lia|].
    destruct Hv as [Hv|(_ & V1 & V2)].
    + rewrite <- Hv.
      apply Qle_trans with (mant (2 ^ 52) 972).
      * unfold mant. rewrite <- pow2_Z by lia. rewrite <- pow2_add.
        apply pow2_le. lia.
      * apply Qle_trans with (mant m'' 972); [now apply mant_le|].
        unfold mant. apply Qmult_le_l.
        -- change 0 with (inject_Z 0). rewrite <- Zlt_Qlt. lia.
        -- apply pow2_le. lia.
    + pose proof (ulp_rel m'' e'' Hm) as U.
      assert (L : pow2 1024 <= mant m'' e'').
      { apply Qle_trans with (mant (2 ^ 52) 972).
        - unfold mant. rewrite <- pow2_Z by lia. rewrite <- pow2_add.
          apply pow2_le. lia.
        - apply Qle_trans with (mant m'' 972); [now apply mant_le|].
          unfold mant. apply Qmult_le_l.
          + change 0 with (inject_Z 0). rewrite <- Zlt_Qlt. lia.
          + apply pow2_le. lia. }
      assert (H2 : pow2 1024 == 2 * pow2 1023).
      { change 1024%Z with (1 + 1023)%Z. rewrite pow2_add. reflexivity. }
      assert (Hu : u52 <= 1 # 2).
      { unfold u52. change (1 # 2) with (pow2 (-1)). apply pow2_le. lia. }
      assert (mant m'' e'' * u52 <= mant m'' e'' * (1 # 2)).
      { apply Qmult_le_l; lra. }
      lra.
Qed.

Lemma SFsub_rounds (x y : spec_float) :
  valid_binary x = true -> valid_binary y = true ->
  zero_or_finite x = true -> zero_or_finite y = true ->
  SF2Q y <= SF2Q x ->
  rounds (SF2Q x - SF2Q y) (SFsub prec emax x y).
Proof.
  intros Vx Vy Fx Fy Hle. pose proof u52_pos as Pu.
  destruct x as [sx|sx| |sx mx ex], y as [sy|sy| |sy my ey];
    try discriminate; cbn [SF2Q] in *.
  - cbn [SFsub]. destruct sx, sy; cbn [rounds]; lra.
  - cbn [SFsub rounds].
    pose proof (mant_pos (Z.pos my) ey ltac:(lia)) as P.
    assert (PRu : 0 <= mant (Z.pos my) ey * u52)
      by (apply Qmult_le_0_compat; lra).
    destruct sy; cbn [cond_Zopp negb] in *.
    + rewrite mant_opp in *. split; [reflexivity|]. split; lra.
    + lra.
  - cbn [SFsub rounds].
    pose proof (mant_pos (Z.pos mx) ex ltac:(lia)) as P.
    assert (PRu : 0 <= mant (Z.pos mx) ex * u52)
      by (apply Qmult_le_0_compat; lra).
    destruct sx; cbn [cond_Zopp] in *.
    + rewrite mant_opp in *. lra.
    + split; [reflexivity|]. split; lra.
  - cbn [valid_binary] in Vx, Vy.
    destruct (bounded_cases mx ex Vx) as (Rx & _ & _).
    destruct (bounded_cases my ey Vy) as (Ry & _ & _).
    cbn [SFsub]. set (ez := Z.min ex ey).
    destruct (shl_align_spec mx ex ez ltac:(lia)) as [Ax _].
    destruct (shl_align_spec my ey ez ltac:(lia)) as [Ay _].
    rewrite Ax, Ay.
    assert (Ex : mant (cond_Zopp sx (Z.pos mx)) ex
                 == mant (cond_Zopp sx (Z.pos mx * 2 ^ (ex - ez))) ez).
    { rewrite <- cond_Zopp_mul. symmetry. apply mant_scale. lia. }
    assert (Ey : mant (cond_Zopp sy (Z.pos my)) ey
                 == mant (cond_Zopp sy (Z.pos my * 2 ^ (ey - ez))) ez).
    { rewrite <- cond_Zopp_mul. symmetry. apply mant_scale. lia. }
    set (D := (cond_Zopp sx (Z.pos mx * 2 ^ (ex - ez))
               - cond_Zopp sy (Z.pos my * 2 ^ (ey - ez)))%Z) in *.
    assert (EX : mant D ez
                 == mant (cond_Zopp sx (Z.pos mx)) ex
                    - mant (cond_Zopp sy (Z.pos my)) ey).
    { unfold D. rewrite mant_sub, Ex, Ey. reflexivity. }
    apply (rounds_comp _ _ _ EX).
    assert (HD : (0 <= D)%Z).
    { destruct (Z_lt_le_dec D 0) as [N|]; [|assumption].
      pose proof (mant_neg D ez N) as H. lra. }
    destruct D as [|p|p] eqn:ED; cbn [binary_normalize]; [| |lia].
    + cbn [rounds]. unfold mant. cbn. ring.
    + apply binary_round_rounds. lia.
Qed.

(** ** Rounding upwards is by little *)

Lemma round_aux_finite (s s' : bool) (m e e' : Z) (l : location) (m' : positive) :
  (0 <= m)%Z ->
  binary_round_aux prec emax s m e l = S754_finite s' m' e' ->
  bounded prec emax m' e' = true ->
  s' = s
  /\ (mant (Z.pos m') e' - mant (Z.pos m') e' * u52 <= mant m e
      \/ mant (Z.pos m') e' <= mant m e + tiny).
Proof.
  intros Hm E B. rewrite binary_round_aux_me in E.
  pose proof (round_me_value m e l Hm) as V. cbv zeta in V. destruct V as [V _].
  destruct (fst (round_me m e l)) as [|p|p] eqn:Em; try discriminate.
  destruct (snd (round_me m e l) <=? emax - prec)%Z; try discriminate.
  injection E as <- <- <-. split; [reflexivity|].
  destruct (bounded_cases p _ B) as (_ & _ & [C|C]).
  - right. unfold tiny. rewrite <- C. exact V.
  - left. pose proof (ulp_rel _ (snd (round_me m e l)) C). lra.
Qed.

Lemma round_aux_not_nan (s : bool) (m e : Z) (l : location) :
  (0 <= m)%Z -> binary_round_aux prec emax s m e l <> S754_nan.
Proof.
  intros Hm E. rewrite binary_round_aux_me in E.
  destruct (round_me_bounds m e l Hm) as (H0 & _).
  destruct (fst (round_me m e l)) as [|p|p]; try discriminate; [|lia].
  destruct (snd (round_me m e l) <=? emax - prec)%Z; discriminate.
Qed.

Lemma round_aux_sign (s : bool) (m e : Z) (l : location) :
  (0 <= m)%Z ->
  match binary_round_aux prec emax s m e l with
  | S754_zero s' | S754_infinity s' | S754_finite s' _ _ => s' = s
  | S754_nan => False
  end.
Proof.
  intros Hm. rewrite binary_round_aux_me.
  destruct (round_me_bounds m e l Hm) as (H0 & _).
  destruct (fst (round_me m e l)) as [|p|p]; try reflexivity; [|lia].
  destruct (snd (round_me m e l) <=? emax - prec)%Z; reflexivity.
Qed.

(** ** Division *)

Lemma div_core_floor (mx my : positive) (ex ey : Z) :
  let '(mz, ez, _) := SFdiv_core_binary prec emax (Z.pos mx) ex (Z.pos my) ey in
  (0 <= mz)%Z /\ mant mz ez * mant (Z.pos my) ey <= mant (Z.pos mx) ex.
Proof.
  unfold SFdiv_core_binary.
  set (e' := Z.min _ _). set (s := (ex - ey - e')%Z).
  assert (Hs : (0 <= s)%Z) by (unfold s, e'; lia).
  set (m' := match s with
             | 0%Z => Z.pos mx
             | Z.pos _ => Z.shiftl (Z.pos mx) s
             | Z.neg _ => 0%Z
             end).
  assert (Em : m' = (Z.pos mx * 2 ^ s)%Z).
  { unfold m'. destruct s as [|p|p] eqn:Es; [cbn; lia| |lia].
    now rewrite Z.shiftl_mul_pow2 by lia. }
  pose proof (Z.div_mod m' (Z.pos my) ltac:(lia)) as D.
  pose proof (Z.mod_pos_bound m' (Z.pos my) ltac:(lia)) as Bd.
  unfold Z.div, Z.modulo in D, Bd.
  destruct (Z.div_eucl m' (Z.pos my)) as [q r].
  assert (P : (0 < 2 ^ s)%Z) by (apply Z.pow_pos_nonneg; lia).
  assert (Hq : (0 <= q)%Z) by nia.
  split; [exact Hq|].
  assert (Hle : (q * Z.pos my <= Z.pos mx * 2 ^ s)%Z) by lia.
  unfold mant.
  assert (E1 : inject_Z q * pow2 e' * (inject_Z (Z.pos my) * pow2 ey)
               == inject_Z (q * Z.pos my) * pow2 (e' + ey)).
  { rewrite inject_Z_mult, pow2_add. ring. }
  assert (E2 : inject_Z (Z.pos mx) * pow2 ex
               == inject_Z (Z.pos mx * 2 ^ s) * pow2 (e' + ey)).
  { rewrite inject_Z_mult, <- pow2_Z by lia.
    replace ex with (s + (e' + ey))%Z at 1 by (unfold s; lia).
    rewrite pow2_add. ring. }
  rewrite E1, E2. apply Qmult_le_compat_r.
  - now rewrite <- Zle_Qle.
  - apply Qlt_le_weak, pow2_pos.
Qed.

Lemma SFdiv_upper (ma mb : positive) (ea eb : Z) :
  valid_binary (SFdiv prec emax (S754_finite false ma ea) (S754_finite false mb eb))
  = true ->
  match SFdiv prec emax (S754_finite false ma ea) (S754_finite false mb eb) with
  | S754_nan => False
  | S754_finite s m e =>
      s = false
      /\ ((mant (Z.pos m) e - mant (Z.pos m) e * u52) * mant (Z.pos mb) eb
          <= mant (Z.pos ma) ea
          \/ (mant (Z.pos m) e - tiny) * mant (Z.pos mb) eb
             <= mant (Z.pos ma) ea)
  | _ => True
  end.
Proof.
  cbn [SFdiv]. pose proof (div_core_floor ma mb ea eb) as F.
  destruct (SFdiv_core_binary prec emax (Z.pos ma) ea (Z.pos mb) eb)
    as [[mz ez] lz]. destruct F as [Hz F]. cbn [xorb].
  pose proof (round_aux_not_nan false mz ez lz Hz) as N.
  destruct (binary_round_aux prec emax false mz ez lz) as [s|s| |s m e] eqn:E;
    intros V; try exact I; [congruence|].
  cbn [valid_binary] in V.
  destruct (round_aux_finite _ _ _ _ _ _ _ Hz E V) as [-> C].
  split; [reflexivity|].
  pose proof (mant_pos (Z.pos mb) eb ltac:(lia)) as PB.
  destruct C as [C|C]; [left|right].
  - apply Qle_trans with (mant mz ez * mant (Z.pos mb) eb); [|exact F].
    apply Qmult_le_compat_r; lra.
  - apply Qle_trans with (mant mz ez * mant (Z.pos mb) eb); [|exact F].
    apply Qmult_le_compat_r; lra.
Qed.

(** ** Multiplication by 7 *)

Lemma SFmul_seven_upper (mq : positive) (eq : Z) :
  valid_binary (SFmul prec emax (S754_finite false mq eq) seven) = true ->
  match SFmul prec emax (S754_finite false mq eq) seven with
  | S754_nan => False
  | S754_finite s m e =>
      s = false
      /\ (mant (Z.pos m) e - mant (Z.pos m) e * u52 <= 7 * mant (Z.pos mq) eq
          \/ mant (Z.pos m) e <= 7 * mant (Z.pos mq) eq + tiny)
  | _ => True
  end.
Proof.
  cbn [SFmul seven xorb].
  pose proof (round_aux_not_nan false (Z.pos (mq * 7881299347898368)) (eq + -50)
                loc_Exact ltac:(lia)) as N.
  destruct (binary_round_aux prec emax false _ _ loc_Exact) as [s|s| |s m e] eqn:E;
    intros V; try exact I; [congruence|].
  cbn [valid_binary] in V.
  destruct (round_aux_finite _ _ _ _ _ _ _ (Pos2Z.is_nonneg _) E V) as [-> C].
  split; [reflexivity|].
  assert (E7 : mant (Z.pos (mq * 7881299347898368)) (eq + -50)
               == 7 * mant (Z.pos mq) eq).
  { unfold mant. rewrite Pos2Z.inj_mul, inject_Z_mult, pow2_add.
    change (inject_Z 7881299347898368) with (7 * inject_Z (2 ^ 50)).
    rewrite <- pow2_Z by lia.
    assert (P : pow2 50 * pow2 (-50) == 1).
    { rewrite <- pow2_add. reflexivity. }
    rewrite <- (Qmult_1_r (7 * (inject_Z (Z.pos mq) * pow2 eq))), <- P. ring. }
  rewrite E7 in C. exact C.
Qed.

(** ** Truncation *)

Lemma trunc_below_8 (m : positive) (e : Z) :
  mant (Z.pos m) e < 8 ->
  (0 <= (if 0 <=? e then Z.pos m * 2 ^ e else Z.pos m / 2 ^ (- e)) <= 7)%Z.
Proof.
  intros H. destruct (0 <=? e)%Z eqn:E.
  - apply Z.leb_le in E. unfold mant in H.
    rewrite pow2_Z, <- inject_Z_mult in H by exact E.
    change 8 with (inject_Z 8) in H. rewrite <- Zlt_Qlt in H.
    assert (0 < 2 ^ e)%Z by (apply Z.pow_pos_nonneg; lia). nia.
  - apply Z.leb_gt in E.
    assert (P : (0 < 2 ^ (- e))%Z) by (apply Z.pow_pos_nonneg; lia).
    split; [apply Z.div_pos; lia|].
    assert (L : (Z.pos m < 8 * 2 ^ (- e))%Z).
    { rewrite Zlt_Qlt, inject_Z_mult, <- pow2_Z by lia.
      unfold mant in H.
      assert (Q1 : inject_Z (Z.pos m)
                   == inject_Z (Z.pos m) * pow2 e * pow2 (- e)).
      { rewrite <- Qmult_assoc, <- pow2_add.
        replace (e + - e)%Z with 0%Z by lia. unfold pow2. cbn. ring. }
      rewrite Q1. apply Qmult_lt_compat_r; [apply pow2_pos|exact H]. }
    assert (Z.pos m / 2 ^ (- e) < 8)%Z
      by (apply Z.div_lt_upper_bound; lia).
    lia.
Qed.

(** ** The palette index is below 8 *)

Lemma u52_small : u52 <= 1 # 100.
Proof.
  unfold u52. apply Qle_trans with (pow2 (-7)); [apply pow2_le; lia|].
  unfold pow2. cbn. discriminate.
Qed.

Lemma tiny_pos : 0 < tiny.
Proof. apply pow2_pos. Qed.

Lemma tiny_small : tiny <= 1 # 100.
Proof.
  unfold tiny. apply Qle_trans with (pow2 (-7)); [apply pow2_le; lia|].
  unfold pow2. cbn. discriminate.
Qed.

Lemma times_u52 (x : Q) : 0 <= x -> 0 <= x * u52 /\ x * u52 <= x * (1 # 100).
Proof.
  intros H. pose proof u52_pos. pose proof u52_small. split.
  - apply Qmult_le_0_compat; lra.
  - rewrite (Qmult_comm x u52), (Qmult_comm x (1 # 100)).
    apply Qmult_le_compat_r; lra.
Qed.

Lemma ratio_bound (A B X Y : Q) :
  0 <= A -> 0 < B ->
  A - A * u52 <= X -> X <= Y -> Y <= B + B * u52 ->
  A <= (103 # 100) * B.
Proof.
  intros HA HB H1 H2 H3.
  destruct (times_u52 A HA). destruct (times_u52 B (Qlt_le_weak _ _ HB)). lra.
Qed.

Lemma quotient_bound (A B Qv : Q) :
  0 < B -> 0 <= Qv -> A <= (103 # 100) * B ->
  (Qv - Qv * u52) * B <= A \/ (Qv - tiny) * B <= A ->
  Qv <= 106 # 100.
Proof.
  intros HB HQ HA H. destruct (times_u52 Qv HQ).
  pose proof tiny_small.
  destruct H as [H|H].
  - assert (L : (Qv - Qv * u52) * B <= (103 # 100) * B) by lra.
    apply Qmult_le_r in L; [lra|exact HB].
  - assert (L : (Qv - tiny) * B <= (103 # 100) * B) by lra.
    apply Qmult_le_r in L; [lra|exact HB].
Qed.

Lemma scaled_bound (Qv R : Q) :
  0 <= R -> Qv <= 106 # 100 ->
  R - R * u52 <= 7 * Qv \/ R <= 7 * Qv + tiny ->
  R < 8.
Proof.
  intros HR HQ H. destruct (times_u52 R HR). pose proof tiny_small.
  destruct H; lra.
Qed.

Lemma SFsub_finite_args (x y : spec_float) :
  zero_or_finite (SFsub prec emax x y) = true ->
  zero_or_finite x = true /\ zero_or_finite y = true.
Proof.
  destruct x as [sx|sx| |sx mx ex], y as [sy|sy| |sy my ey];
    cbn [SFsub zero_or_finite]; auto; try discriminate.
  - destruct sx, sy; discriminate.
Qed.

Lemma SFdiv_finite_args (a b : spec_float) (s : bool) (m : positive) (e : Z) :
  SFdiv prec emax a b = S754_finite s m e ->
  exists sa ma ea sb mb eb,
    a = S754_finite sa ma ea /\ b = S754_finite sb mb eb.
Proof.
  destruct a as [sa|sa| |sa ma ea], b as [sb|sb| |sb mb eb];
    cbn [SFdiv]; try discriminate.
  intros _. repeat eexists.
Qed.

Lemma SFmul_finite_arg (q : spec_float) (s : bool) (m : positive) (e : Z) :
  SFmul prec emax q seven = S754_finite s m e ->
  exists sq mq eq, q = S754_finite sq mq eq.
Proof.
  destruct q as [sq|sq| |sq mq eq]; cbn [SFmul seven]; try discriminate.
  intros _. repeat eexists.
Qed.

(** The quantity [(v - lo) / (hi - lo) * 7] in binary64, for [lo <= v <= hi]:
    when it is finite it is not negative and below 8, whatever was rounded
    on the way. *)
Lemma level_sf_range (lo hi v : spec_float) (s : bool) (m : positive) (e : Z) :
  valid_binary lo = true -> valid_binary hi = true -> valid_binary v = true ->
  SFltb v lo = false -> SFltb hi v = false ->
  let a := SFsub prec emax v lo in
  let b := SFsub prec emax hi lo in
  let q := SFdiv prec emax a b in
  valid_binary q = true ->
  valid_binary (SFmul prec emax q seven) = true ->
  SFmul prec emax q seven = S754_finite s m e ->
  s = false /\ mant (Z.pos m) e < 8.
Proof.
  intros Vlo Vhi Vv L1 L2 a b q Vq Vr Er.
  destruct (SFmul_finite_arg q s m e Er) as (sq & mq & eq & Eq).
  destruct (SFdiv_finite_args a b sq mq eq Eq)
    as (sa & ma & ea & sb & mb & eb & Ea & Eb).
  destruct (SFsub_finite_args v lo) as [Fv Flo];
    [fold a; rewrite Ea; reflexivity|].
  destruct (SFsub_finite_args hi lo) as [Fhi _];
    [fold b; rewrite Eb; reflexivity|].
  pose proof (SFltb_false_le v lo Vv Vlo Fv Flo L1) as O1.
  pose proof (SFltb_false_le hi v Vhi Vv Fhi Fv L2) as O2.
  pose proof (SFsub_rounds v lo Vv Vlo Fv Flo O1) as Ra. fold a in Ra.
  pose proof (SFsub_rounds hi lo Vhi Vlo Fhi Flo ltac:(lra)) as Rb. fold b in Rb.
  rewrite Ea in Ra. rewrite Eb in Rb. cbn [rounds] in Ra, Rb.
  destruct Ra as (-> & A1 & A2). destruct Rb as (-> & B1 & B2).
  pose proof (SFdiv_upper ma mb ea eb) as D.
  unfold q in Eq, Vq. rewrite Ea, Eb in Eq, Vq. rewrite Eq in D.
  rewrite Eq in Vq. destruct (D Vq) as (-> & Dq).
  pose proof (SFmul_seven_upper mq eq) as M.
  unfold q in Er, Vr. rewrite Ea, Eb, Eq in Er, Vr. rewrite Er in M.
  rewrite Er in Vr. destruct (M Vr) as (-> & Mr).
  split; [reflexivity|].
  pose proof (mant_pos (Z.pos ma) ea ltac:(lia)) as PA.
  pose proof (mant_pos (Z.pos mb) eb ltac:(lia)) as PB.
  pose proof (mant_pos (Z.pos mq) eq ltac:(lia)) as PQ.
  pose proof (mant_pos (Z.pos m) e ltac:(lia)) as PR.
  assert (HA : mant (Z.pos ma) ea <= (103 # 100) * mant (Z.pos mb) eb).
  { apply (ratio_bound _ _ (SF2Q v - SF2Q lo) (SF2Q hi - SF2Q lo)); lra. }
  assert (HQ : mant (Z.pos mq) eq <= 106 # 100).
  { apply (quotient_bound (mant (Z.pos ma) ea) (mant (Z.pos mb) eb)); auto; lra. }
  apply (scaled_bound (mant (Z.pos mq) eq)); auto; lra.
Qed.

(** ** Order with infinities *)

Lemma SFltb_lower_step (y m z : spec_float) :
  valid_binary y = true -> valid_binary m = true -> valid_binary z = true ->
  SFltb y m = true -> SFltb z m = false -> SFltb z y = false.
Proof.
  intros Vy Vm Vz H1 H2.
  destruct (zero_or_finite y) eqn:Fy, (zero_or_finite m) eqn:Fm,
           (zero_or_finite z) eqn:Fz.
  - unfold SFltb in *.
    rewrite (SFcompare_value y m Vy Vm Fy Fm) in H1.
    rewrite (SFcompare_value z m Vz Vm Fz Fm) in H2.
    rewrite (SFcompare_value z y Vz Vy Fz Fy).
    destruct (Qcompare_spec (SF2Q y) (SF2Q m)); try discriminate.
    destruct (Qcompare_spec (SF2Q z) (SF2Q m)); try discriminate;
      destruct (Qcompare_spec (SF2Q z) (SF2Q y)); try reflexivity; lra.
  - destruct z as [|[|]| |]; try discriminate; try reflexivity;
      destruct y as [|[|]| |]; try discriminate; try reflexivity;
      destruct m as [|[|]| |]; try discriminate.
  - destruct m as [|[|]| |]; try discriminate;
      destruct y as [|[|]| |]; try discriminate;
      destruct z as [|[|]| |]; try discriminate; try reflexivity.
  - destruct m as [|[|]| |]; try discriminate;
      destruct y as [|[|]| |]; try discriminate;
      destruct z as [|[|]| |]; try discriminate; try reflexivity.
  - destruct y as [|[|]| |]; try discriminate;
      destruct m as [|[|]| |]; try discriminate;
      destruct z as [|[|]| |]; try discriminate; try reflexivity.
  - destruct y as [|[|]| |]; try discriminate;
      destruct m as [|[|]| |]; try discriminate;
      destruct z as [|[|]| |]; try discriminate; try reflexivity.
  - destruct y as [|[|]| |]; try discriminate;
      destruct m as [|[|]| |]; try discriminate;
      destruct z as [|[|]| |]; try discriminate; try reflexivity.
  - destruct y as [|[|]| |]; try discriminate;
      destruct m as [|[|]| |]; try discriminate;
      destruct z as [|[|]| |]; try discriminate; try reflexivity.
Qed.

Lemma SFltb_upper_step (m y z : spec_float) :
  valid_binary y = true -> valid_binary m = true -> valid_binary z = true ->
  SFltb m y = true -> SFltb m z = false -> SFltb y z = false.
Proof.
  intros Vy Vm Vz H1 H2.
  destruct (zero_or_finite y) eqn:Fy, (zero_or_finite m) eqn:Fm,
           (zero_or_finite z) eqn:Fz.
  - unfold SFltb in *.
    rewrite (SFcompare_value m y Vm Vy Fm Fy) in H1.
    rewrite (SFcompare_value m z Vm Vz Fm Fz) in H2.
    rewrite (SFcompare_value y z Vy Vz Fy Fz).
    destruct (Qcompare_spec (SF2Q m) (SF2Q y)); try discriminate.
    destruct (Qcompare_spec (SF2Q m) (SF2Q z)); try discriminate;
      destruct (Qcompare_spec (SF2Q y) (SF2Q z)); try reflexivity; lra.
  - destruct z as [|[|]| |]; try discriminate; try reflexivity;
      destruct y as [|[|]| |]; try discriminate; try reflexivity;
      destruct m as [|[|]| |]; try discriminate.
  - destruct m as [|[|]| |]; try discriminate;
      destruct y as [|[|]| |]; try discriminate;
      destruct z as [|[|]| |]; try discriminate; try reflexivity.
  - destruct m as [|[|]| |]; try discriminate;
      destruct y as [|[|]| |]; try discriminate;
      destruct z as [|[|]| |]; try discriminate; try reflexivity.
  - destruct y as [|[|]| |]; try discriminate;
      destruct m as [|[|]| |]; try discriminate;
      destruct z as [|[|]| |]; try discriminate; try reflexivity.
  - destruct y as [|[|]| |]; try discriminate;
      destruct m as [|[|]| |]; try discriminate;
      destruct z as [|[|]| |]; try discriminate; try reflexivity.
  - destruct y as [|[|]| |]; try discriminate;
      destruct m as [|[|]| |]; try discriminate;
      destruct z as [|[|]| |]; try discriminate; try reflexivity.
  - destruct y as [|[|]| |]; try discriminate;
      destruct m as [|[|]| |]; try discriminate;
      destruct z as [|[|]| |]; try discriminate; try reflexivity.
Qed.

(** ** The index of a sample between the least and the greatest *)

End RoundingError.

Lemma Prim2SF_seven : Prim2SF (float_of_Z 7) = seven.
Proof. vm_compute. reflexivity. Qed.

Lemma level_binary64_range (lo hi v : float) (idx : Z) :
  PrimFloat.ltb v lo = false -> PrimFloat.ltb hi v = false ->
  level binary64 lo hi v = Ok idx -> 0 <= idx <= 7.
Proof.
  intros L1 L2. unfold level. cbn [num_div num_sub num_mul num_to_int num_of_int binary64].
  change (len SPARK - 1) with 7.
  unfold float_div_checked.
  destruct (PrimFloat.eqb (PrimFloat.sub hi lo) 0); [discriminate|].
  cbn [rbind]. unfold float_to_int.
  set (q := PrimFloat.div (PrimFloat.sub v lo) (PrimFloat.sub hi lo)).
  assert (Eq : Prim2SF q
               = SFdiv prec emax (SFsub prec emax (Prim2SF v) (Prim2SF lo))
                   (SFsub prec emax (Prim2SF hi) (Prim2SF lo))).
  { unfold q. rewrite div_spec, !sub_spec. reflexivity. }
  assert (Er : Prim2SF (PrimFloat.mul q (float_of_Z 7))
               = SFmul prec emax (Prim2SF q) seven).
  { rewrite mul_spec, Prim2SF_seven. reflexivity. }
  pose proof (Prim2SF_valid q) as Vq.
  pose proof (Prim2SF_valid (PrimFloat.mul q (float_of_Z 7))) as Vr.
  rewrite ltb_spec in L1, L2.
  destruct (Prim2SF (PrimFloat.mul q (float_of_Z 7))) as [s|s| |s m e] eqn:E;
    try discriminate.
  - intros H. injection H as <-. lia.
  - intros H. injection H as <-.
    rewrite Er in Vr. rewrite Eq in Vr, Er.
    rewrite Eq in Vq.
    destruct (level_sf_range (Prim2SF lo) (Prim2SF hi) (Prim2SF v) s m e
                (Prim2SF_valid lo) (Prim2SF_valid hi) (Prim2SF_valid v)
                L1 L2 Vq Vr (Logic.eq_sym Er)) as [-> Hlt].
    apply trunc_below_8. exact Hlt.
Qed.

(** ** The least and the greatest of a list of floats *)

Lemma float_ltb_irrefl (x : float) : PrimFloat.ltb x x = false.
Proof.
  rewrite ltb_spec. unfold SFltb, SFcompare.
  destruct (Prim2SF x) as [s|s| |s m e]; try (destruct s; reflexivity); try reflexivity.
  rewrite Z.compare_refl, Pos.compare_cont_refl. destruct s; reflexivity.
Qed.

Lemma ltb_lower_step (y m z : float) :
  PrimFloat.ltb y m = true -> PrimFloat.ltb z m = false ->
  PrimFloat.ltb z y = false.
Proof.
  rewrite !ltb_spec. apply SFltb_lower_step; apply Prim2SF_valid.
Qed.

Lemma ltb_upper_step (m y z : float) :
  PrimFloat.ltb m y = true -> PrimFloat.ltb m z = false ->
  PrimFloat.ltb y z = false.
Proof.
  rewrite !ltb_spec. apply SFltb_upper_step; apply Prim2SF_valid.
Qed.

Lemma fold_min_floor (l seen : list float) (m : float) :
  (forall v, In v seen -> PrimFloat.ltb v m = false) ->
  forall v, In v (seen ++ l) ->
    PrimFloat.ltb v (fold_left (fun m y => if PrimFloat.ltb y m then y else m) l m)
    = false.
Proof.
  revert seen m. induction l as [|y l IH]; intros seen m Hseen v Hv.
  - rewrite app_nil_r in Hv. cbn. auto.
  - cbn [fold_left].
    apply (IH (seen ++ [y])); [|now rewrite <- app_assoc].
    intros z Hz. apply in_app_or in Hz.
    destruct (PrimFloat.ltb y m) eqn:E.
    + destruct Hz as [Hz|[<-|[]]]; [|apply float_ltb_irrefl].
      apply (ltb_lower_step y m z E). auto.
    + destruct Hz as [Hz|[<-|[]]]; auto.
Qed.

Lemma fold_max_ceiling (l seen : list float) (m : float) :
  (forall v, In v seen -> PrimFloat.ltb m v = false) ->
  forall v, In v (seen ++ l) ->
    PrimFloat.ltb (fold_left (fun m y => if PrimFloat.ltb m y then y else m) l m) v
    = false.
Proof.
  revert seen m. induction l as [|y l IH]; intros seen m Hseen v Hv.
  - rewrite app_nil_r in Hv. cbn. auto.
  - cbn [fold_left].
    apply (IH (seen ++ [y])); [|now rewrite <- app_assoc].
    intros z Hz. apply in_app_or in Hz.
    destruct (PrimFloat.ltb m y) eqn:E.
    + destruct Hz as [Hz|[<-|[]]]; [|apply float_ltb_irrefl].
      apply (ltb_upper_step m y z E). auto.
    + destruct Hz as [Hz|[<-|[]]]; auto.
Qed.

(** No sample is below [min(vals)] or above [max(vals)], NaN or not. *)
Lemma py_min_floor (vals : list float) (lo : float) :
  py_min PrimFloat.ltb vals = Ok lo ->
  forall v, In v vals -> PrimFloat.ltb v lo = false.
Proof.
  destruct vals as [|x l]; [discriminate|]. cbn [py_min].
  intros H v Hv. injection H as <-.
  apply (fold_min_floor l [x] x); [|exact Hv].
  intros z [<-|[]]. apply float_ltb_irrefl.
Qed.

Lemma py_max_ceiling (vals : list float) (hi : float) :
  py_max PrimFloat.ltb vals = Ok hi ->
  forall v, In v vals -> PrimFloat.ltb hi v = false.
Proof.
  destruct vals as [|x l]; [discriminate|]. cbn [py_max].
  intros H v Hv. injection H as <-.
  apply (fold_max_ceiling l [x] x); [|exact Hv].
  intros z [<-|[]]. apply float_ltb_irrefl.
Qed.

(** On floats the two variants are one function. *)
Lemma sparkline_binary64_agree (samples : list float) (W : Z) :
  Spark.sparkline binary64 samples W = Rich.sparkline binary64 samples W.
Proof.
  destruct samples as [|x xs]; [reflexivity|].
  rewrite sparkline_spark_cons, sparkline_rich_cons.
  destruct (resample _ _ _) as [vals|e]; [|reflexivity].
  cbn [rbind num_lt num_eq binary64].
  destruct (py_min _ vals) as [lo|e] eqn:Elo; [|reflexivity].
  destruct (py_max _ vals) as [hi|e] eqn:Ehi; [|reflexivity].
  cbn [rbind]. destruct (PrimFloat.eqb hi lo); [reflexivity|].
  apply mapM_ext_in. intros v Hv.
  destruct (level binary64 lo hi v) as [idx|e] eqn:E; [|reflexivity].
  cbn [rbind].
  pose proof (level_binary64_range lo hi v idx
                (py_min_floor vals lo Elo v Hv) (py_max_ceiling vals hi Ehi v Hv) E).
  change (len SPARK - 1) with 7. f_equal. lia.
Qed.

(** ** When the index exists *)

Section Overflow.
Open Scope Q_scope.

Lemma round_aux_infinity (s s' : bool) (m e : Z) (l : location) :
  (0 <= m)%Z ->
  binary_round_aux prec emax s m e l = S754_infinity s' ->
  (972 <= e)%Z \/ pow2 1023 <= mant m e.
Proof.
  intros Hm E. rewrite binary_round_aux_me in E.
  pose proof (round_me_value m e l Hm) as V. cbv zeta in V. destruct V as [V _].
  destruct (round_me_bounds m e l Hm) as (_ & _ & _ & _ & _ & C & _).
  destruct (fst (round_me m e l)) as [|p|p] eqn:Em; try discriminate.
  destruct (snd (round_me m e l) <=? emax - prec)%Z eqn:El; try discriminate.
  apply Z.leb_gt in El. change (emax - prec)%Z with 971%Z in El.
  set (e'' := snd (round_me m e l)) in *.
  destruct C as [C|[C|C]]; [left; lia|lia|right].
  pose proof (ulp_rel (Z.pos p) e'' C) as U.
  assert (L : pow2 1024 <= mant (Z.pos p) e'').
  { apply Qle_trans with (mant (2 ^ 52) 972).
    - unfold mant. rewrite <- pow2_Z by lia. rewrite <- pow2_add.
      apply pow2_le. lia.
    - apply Qle_trans with (mant (Z.pos p) 972); [now apply mant_le|].
      unfold mant. apply Qmult_le_l.
      + change 0 with (inject_Z 0). rewrite <- Zlt_Qlt. lia.
      + apply pow2_le. lia. }
  assert (H2 : pow2 1024 == 2 * pow2 1023).
  { change 1024%Z with (1 + 1023)%Z. rewrite pow2_add. reflexivity. }
  assert (Hu : u52 <= 1 # 2).
  { unfold u52. change (1 # 2) with (pow2 (-1)). apply pow2_le. lia. }
  pose proof (mant_pos (Z.pos p) e'' ltac:(lia)) as PR.
  assert (mant (Z.pos p) e'' * u52 <= mant (Z.pos p) e'' * (1 # 2)).
  { apply Qmult_le_l; lra. }
  lra.
Qed.

Lemma mant_digits (m : positive) (e : Z) :
  pow2 (Z.pos (digits2_pos m) - 1 + e) <= mant (Z.pos m) e
  /\ mant (Z.pos m) e < pow2 (Z.pos (digits2_pos m) + e).
Proof.
  pose proof (digits2_pos_bounds m) as [D1 D2].
  assert (P : (0 < Z.pos (digits2_pos m))%Z) by lia.
  split.
  - rewrite pow2_add, pow2_Z by lia. apply (mant_le _ _ e D1).
  - rewrite pow2_add, pow2_Z by lia. apply (mant_lt _ _ e D2).
Qed.

Lemma pow2_big : 1024 <= pow2 10.
Proof. unfold pow2. cbn. discriminate. Qed.

(** A quotient of two positive floats that is at most 2 (or so) does not
    overflow. *)
Lemma SFdiv_no_overflow (ma mb : positive) (ea eb : Z) (s : bool) :
  mant (Z.pos ma) ea <= 2 * mant (Z.pos mb) eb ->
  SFdiv prec emax (S754_finite false ma ea) (S754_finite false mb eb)
  <> S754_infinity s.
Proof.
  intros HA E. cbn [SFdiv] in E.
  pose proof (div_core_floor ma mb ea eb) as F.
  unfold SFdiv_core_binary in E, F. cbn [Zdigits2] in E, F.
  set (D := (Z.pos (digits2_pos ma) + ea - (Z.pos (digits2_pos mb) + eb))%Z) in *.
  set (e' := Z.min (fexp prec emax D) (ea - eb)) in *.
  destruct (Z.div_eucl _ (Z.pos mb)) as [q r]. destruct F as [Hq F].
  pose proof (mant_pos (Z.pos mb) eb ltac:(lia)) as PB.
  destruct (mant_digits ma ea) as [A1 _]. destruct (mant_digits mb eb) as [_ B2].
  destruct (round_aux_infinity _ _ _ _ _ Hq E) as [C|C].
  - (* the exponent is that large only for a large quotient *)
    assert (HD : (1025 <= D)%Z).
    { unfold e' in C. destruct (fexp_cases D) as [Fx|[Fx _]]; lia. }
    assert (L : pow2 1024 * mant (Z.pos mb) eb <= mant (Z.pos ma) ea).
    { apply Qle_trans with (pow2 1024 * pow2 (Z.pos (digits2_pos mb) + eb)).
      - apply Qmult_le_l; [apply pow2_pos|]. lra.
      - rewrite <- pow2_add.
        apply Qle_trans with (pow2 (Z.pos (digits2_pos ma) - 1 + ea)); [|exact A1].
        apply pow2_le. unfold D in HD. lia. }
    assert (G : 1024 <= pow2 1024).
    { apply Qle_trans with (pow2 10); [apply pow2_big|apply pow2_le; lia]. }
    assert (1024 * mant (Z.pos mb) eb <= pow2 1024 * mant (Z.pos mb) eb).
    { apply Qmult_le_compat_r; lra. }
    lra.
  - assert (L : pow2 1023 * mant (Z.pos mb) eb <= mant (Z.pos ma) ea).
    { apply Qle_trans with (mant q e' * mant (Z.pos mb) eb); [|exact F].
      apply Qmult_le_compat_r; lra. }
    assert (G : 1024 <= pow2 1023).
    { apply Qle_trans with (pow2 10); [apply pow2_big|apply pow2_le; lia]. }
    assert (1024 * mant (Z.pos mb) eb <= pow2 1023 * mant (Z.pos mb) eb).
    { apply Qmult_le_compat_r; lra. }
    lra.
Qed.

Lemma SFmul_seven_no_overflow (mq : positive) (eq : Z) (s : bool) :
  bounded prec emax mq eq = true ->
  mant (Z.pos mq) eq <= 2 ->
  SFmul prec emax (S754_finite false mq eq) seven <> S754_infinity s.
Proof.
  intros B HQ E. cbn [SFmul seven xorb] in E.
  destruct (bounded_cases mq eq B) as (Re & _ & _).
  destruct (round_aux_infinity _ _ _ _ _ (Pos2Z.is_nonneg _) E) as [C|C]; [lia|].
  assert (E7 : mant (Z.pos (mq * 7881299347898368)) (eq + -50)
               == 7 * mant (Z.pos mq) eq).
  { unfold mant. rewrite Pos2Z.inj_mul, inject_Z_mult, pow2_add.
    change (inject_Z 7881299347898368) with (7 * inject_Z (2 ^ 50)).
    rewrite <- pow2_Z by lia.
    assert (P : pow2 50 * pow2 (-50) == 1).
    { rewrite <- pow2_add. reflexivity. }
    rewrite <- (Qmult_1_r (7 * (inject_Z (Z.pos mq) * pow2 eq))), <- P. ring. }
  rewrite E7 in C.
  assert (G : 1024 <= pow2 1023).
  { apply Qle_trans with (pow2 10); [apply pow2_big|apply pow2_le; lia]. }
  lra.
Qed.

Lemma SFeqb_value (x y : spec_float) :
  valid_binary x = true -> valid_binary y = true ->
  zero_or_finite x = true -> zero_or_finite y = true ->
  SF2Q x == SF2Q y -> SFeqb x y = true.
Proof.
  intros Vx Vy Fx Fy E. unfold SFeqb.
  rewrite (SFcompare_value x y Vx Vy Fx Fy), (Qcompare_eq _ _ E). reflexivity.
Qed.

(** For finite [lo <= v <= hi] with [lo] and [hi] apart, and differences
    that do not overflow, [(v - lo) / (hi - lo) * 7] is a finite float and
    the divisor is not zero. *)
Lemma level_sf_total (lo hi v : spec_float) :
  valid_binary lo = true -> valid_binary hi = true -> valid_binary v = true ->
  SFltb v lo = false -> SFltb hi v = false -> SFeqb hi lo = false ->
  let a := SFsub prec emax v lo in
  let b := SFsub prec emax hi lo in
  let q := SFdiv prec emax a b in
  zero_or_finite a = true -> zero_or_finite b = true ->
  valid_binary q = true ->
  valid_binary (SFmul prec emax q seven) = true ->
  (exists mb eb, b = S754_finite false mb eb)
  /\ zero_or_finite (SFmul prec emax q seven) = true.
Proof.
  intros Vlo Vhi Vv L1 L2 Ne a b q Fa Fb Vq Vr.
  destruct (SFsub_finite_args v lo Fa) as [Fv Flo].
  destruct (SFsub_finite_args hi lo Fb) as [Fhi _].
  pose proof (SFltb_false_le v lo Vv Vlo Fv Flo L1) as O1.
  pose proof (SFltb_false_le hi v Vhi Vv Fhi Fv L2) as O2.
  pose proof (SFsub_rounds v lo Vv Vlo Fv Flo O1) as Ra. fold a in Ra.
  pose proof (SFsub_rounds hi lo Vhi Vlo Fhi Flo ltac:(lra)) as Rb. fold b in Rb.
  unfold q in *. clear q.
  destruct b as [sb|sb| |sb mb eb]; try discriminate; cbn [rounds] in Rb.
  - exfalso. rewrite (SFeqb_value hi lo Vhi Vlo Fhi Flo) in Ne; [discriminate|lra].
  - destruct Rb as (-> & B1 & B2). split; [eauto|].
    pose proof (mant_pos (Z.pos mb) eb ltac:(lia)) as PB.
    destruct a as [sa|sa| |sa ma ea]; try discriminate; cbn [rounds] in Ra.
    + reflexivity.
    + destruct Ra as (-> & A1 & A2).
      pose proof (mant_pos (Z.pos ma) ea ltac:(lia)) as PA.
      assert (HA : mant (Z.pos ma) ea <= (103 # 100) * mant (Z.pos mb) eb).
      { apply (ratio_bound _ _ (SF2Q v - SF2Q lo) (SF2Q hi - SF2Q lo)); lra. }
      pose proof (SFdiv_upper ma mb ea eb Vq) as D.
      pose proof (SFdiv_no_overflow ma mb ea eb) as ND.
      destruct (SFdiv prec emax (S754_finite false ma ea) (S754_finite false mb eb))
        as [sq|sq| |sq mq eq] eqn:Eq.
      * reflexivity.
      * exfalso. apply (ND sq); [lra|reflexivity].
      * destruct D.
      * destruct D as (-> & Dq).
        pose proof (mant_pos (Z.pos mq) eq ltac:(lia)) as PQ.
        assert (HQ : mant (Z.pos mq) eq <= 106 # 100).
        { apply (quotient_bound (mant (Z.pos ma) ea) (mant (Z.pos mb) eb));
            auto; lra. }
        pose proof (SFmul_seven_upper mq eq Vr) as M.
        pose proof (SFmul_seven_no_overflow mq eq) as NM.
        destruct (SFmul prec emax (S754_finite false mq eq) seven)
          as [sr|sr| |sr mr er] eqn:Er; try reflexivity; [|destruct M].
        exfalso. apply (NM sr); [exact Vq|lra|reflexivity].
Qed.

End Overflow.

Lemma level_binary64_total (lo hi v : float) :
  PrimFloat.ltb v lo = false -> PrimFloat.ltb hi v = false ->
  PrimFloat.eqb hi lo = false ->
  finite (PrimFloat.sub v lo) = true -> finite (PrimFloat.sub hi lo) = true ->
  exists idx, level binary64 lo hi v = Ok idx /\ 0 <= idx <= 7.
Proof.
  intros L1 L2 Ne Fa Fb.
  assert (T : exists idx, level binary64 lo hi v = Ok idx).
  { unfold level.
    cbn [num_div num_sub num_mul num_to_int num_of_int binary64].
    change (len SPARK - 1) with 7.
    set (q := PrimFloat.div (PrimFloat.sub v lo) (PrimFloat.sub hi lo)).
    assert (Eq : Prim2SF q
                 = SFdiv prec emax (SFsub prec emax (Prim2SF v) (Prim2SF lo))
                     (SFsub prec emax (Prim2SF hi) (Prim2SF lo))).
    { unfold q. rewrite div_spec, !sub_spec. reflexivity. }
    assert (Er : Prim2SF (PrimFloat.mul q (float_of_Z 7))
                 = SFmul prec emax (Prim2SF q) seven).
    { rewrite mul_spec, Prim2SF_seven. reflexivity. }
    pose proof (Prim2SF_valid q) as Vq.
    pose proof (Prim2SF_valid (PrimFloat.mul q (float_of_Z 7))) as Vr.
    rewrite Er in Vr. rewrite Eq in Vq, Vr.
    unfold finite in Fa, Fb. rewrite sub_spec in Fa, Fb.
    rewrite ltb_spec in L1, L2. rewrite eqb_spec in Ne.
    destruct (level_sf_total (Prim2SF lo) (Prim2SF hi) (Prim2SF v)
                (Prim2SF_valid lo) (Prim2SF_valid hi) (Prim2SF_valid v)
                L1 L2 Ne Fa Fb Vq Vr) as ((mb & eb & Eb) & Fr).
    unfold float_div_checked.
    assert (Ez : PrimFloat.eqb (PrimFloat.sub hi lo) 0 = false).
    { rewrite eqb_spec, sub_spec. unfold SF64sub. rewrite Eb. reflexivity. }
    rewrite Ez. cbn [rbind]. fold q. unfold float_to_int.
    rewrite Er, Eq. clear Er.
    set (r := SFmul prec emax (SFdiv prec emax _ _) seven) in *. clearbody r.
    destruct r as [s|s| |s m e]; try discriminate; eauto. }
  destruct T as [idx T]. exists idx. split; [exact T|].
  exact (level_binary64_range lo hi v idx L1 L2 T).
Qed.

(** ** When the quantizer returns on floats *)

Lemma mapM_returns {X Y} (f : X -> result Y) (l : list X) :
  (forall x, In x l -> exists y, f x = Ok y) -> exists out, mapM f l = Ok out.
Proof.
  induction l as [|x l IH]; intros H; [exists []; reflexivity|].
  destruct (H x (or_introl Logic.eq_refl)) as [y Hy].
  destruct IH as [out Hout]; [intros z Hz; apply H; now right|].
  exists (y :: out). cbn [mapM]. rewrite Hy. cbn [rbind]. rewrite Hout. reflexivity.
Qed.

Lemma differences_finite_In (samples : list float) (u v : float) :
  differences_finite samples = true -> In u samples -> In v samples ->
  finite (PrimFloat.sub u v) = true.
Proof.
  unfold differences_finite. intros H Hu Hv.
  rewrite forallb_forall in H. specialize (H u Hu).
  rewrite forallb_forall in H. exact (H v Hv).
Qed.

Lemma sparkline_binary64_returns (samples : list float) (W : Z) :
  samples <> [] -> 0 < W -> differences_finite samples = true ->
  (exists vals, resample binary64 samples W = Ok vals) ->
  exists out,
    Spark.sparkline binary64 samples W = Ok out
    /\ Rich.sparkline binary64 samples W = Ok out
    /\ len out = W
    /\ Forall (fun c => In c SPARK) out.
Proof.
  intros Hne HW Hd [vals Hvals].
  assert (T : exists out, Rich.sparkline binary64 samples W = Ok out).
  { destruct samples as [|x xs]; [congruence|].
    rewrite sparkline_rich_cons.
    destruct (resample_shape binary64 (x :: xs) W vals HW Hvals) as [Hlen Hin].
    change (num binary64) with float in *. rewrite Hvals. cbn [rbind].
    assert (Hv : vals <> []).
    { destruct vals; [|discriminate]. simpl in Hlen. lia. }
    cbn [num_lt num_eq binary64].
    destruct (py_min_nonempty PrimFloat.ltb vals Hv) as [lo Elo].
    destruct (py_max_nonempty PrimFloat.ltb vals Hv) as [hi Ehi].
    rewrite Elo, Ehi. cbn [rbind].
    destruct (PrimFloat.eqb hi lo) eqn:Ne.
    - rewrite flat_glyphs. eauto.
    - apply mapM_returns. intros v Hv'.
      destruct (level_binary64_total lo hi v) as (idx & -> & Hr).
      + exact (py_min_floor vals lo Elo v Hv').
      + exact (py_max_ceiling vals hi Ehi v Hv').
      + exact Ne.
      + apply (differences_finite_In _ _ _ Hd);
          [now apply Hin|apply Hin; eapply py_min_In; eauto].
      + apply (differences_finite_In _ _ _ Hd); apply Hin;
          [eapply py_max_In|eapply py_min_In]; eauto.
      + cbn [rbind]. destruct (SPARK_getitem idx Hr) as (c & -> & _). eauto. }
  destruct T as [out T]. exists out.
  rewrite sparkline_binary64_agree. split; [exact T|]. split; [exact T|].
  apply (sparkline_shape_any binary64 samples W out Hne HW). now right.
Qed.

(** ** The stride on floats *)

Section StrideOnFloats.
Open Scope Q_scope.

Lemma mant_mul (a b ea eb : Z) : mant (a * b) (ea + eb) == mant a ea * mant b eb.
Proof. unfold mant. rewrite inject_Z_mult, pow2_add. ring. Qed.

Lemma mant_int (z : Z) : mant z 0 == inject_Z z.
Proof. unfold mant, pow2. cbn. ring. Qed.

(** An integer below 2^53 is a float. *)
Lemma binary_round_small (z : positive) :
  (Z.pos z < 2 ^ 53)%Z ->
  exists m e,
    binary_round prec emax false z 0 = S754_finite false m e
    /\ bounded prec emax m e = true
    /\ mant (Z.pos m) e == inject_Z (Z.pos z).
Proof.
  intros Hz. unfold binary_round.
  pose proof (digits2_pos_bounds z) as [D1 D2].
  assert (Hd : (Z.pos (digits2_pos z) <= 53)%Z).
  { destruct (Z_le_gt_dec (Z.pos (digits2_pos z)) 53) as [|G]; [assumption|].
    assert (2 ^ 53 <= 2 ^ (Z.pos (digits2_pos z) - 1))%Z
      by (apply Z.pow_le_mono_r; lia).
    lia. }
  set (f := fexp prec emax (Z.pos (digits2_pos z) + 0)).
  assert (Hf : (-1074 <= f <= 0)%Z).
  { unfold f. destruct (fexp_cases (Z.pos (digits2_pos z) + 0)); lia. }
  destruct (shl_align_spec z 0 f ltac:(lia)) as [A1 A2].
  destruct (shl_align z 0 f) as [mz ez]. cbn [fst snd] in A1, A2. subst ez.
  rewrite binary_round_aux_me.
  assert (Hdig : (Z.pos (digits2_pos mz) + f = Z.pos (digits2_pos z) + 0)%Z).
  { change (Z.pos (digits2_pos mz)) with (Zdigits2 (Z.pos mz)).
    rewrite A1, Zdigits2_shift by lia. cbn [Zdigits2]. lia. }
  assert (Hs : shift_of (Z.pos mz) f = 0%Z).
  { unfold shift_of. cbn [Zdigits2]. rewrite Hdig. fold f. lia. }
  destruct (round_me_bounds (Z.pos mz) f loc_Exact ltac:(lia))
    as (_ & _ & _ & _ & Hx & _ & _).
  destruct (Hx Logic.eq_refl Hs) as [E1 E2]. rewrite E1, E2.
  change (emax - prec)%Z with 971%Z.
  replace (f <=? 971)%Z with true by (symmetry; apply Z.leb_le; lia).
  exists mz, f. split; [reflexivity|]. split.
  - unfold bounded, canonical_mantissa. apply andb_true_iff. split.
    + apply Z.eqb_eq. rewrite Hdig. reflexivity.
    + apply Z.leb_le. change (emax - prec)%Z with 971%Z. lia.
  - rewrite A1. rewrite <- (mant_int (Z.pos z)).
    replace (0 - f)%Z with (0 - f)%Z by reflexivity.
    apply (mant_scale (Z.pos z) f 0). lia.
Qed.

Lemma trunc_below (m : positive) (e N : Z) :
  mant (Z.pos m) e < inject_Z N ->
  (0 <= (if 0 <=? e then Z.pos m * 2 ^ e else Z.pos m / 2 ^ (- e)) < N)%Z.
Proof.
  intros H. destruct (0 <=? e)%Z eqn:E.
  - apply Z.leb_le in E. unfold mant in H.
    rewrite pow2_Z, <- inject_Z_mult in H by exact E.
    rewrite <- Zlt_Qlt in H.
    assert (0 < 2 ^ e)%Z by (apply Z.pow_pos_nonneg; lia). nia.
  - apply Z.leb_gt in E.
    assert (P : (0 < 2 ^ (- e))%Z) by (apply Z.pow_pos_nonneg; lia).
    split; [apply Z.div_pos; lia|].
    assert (L : (Z.pos m < N * 2 ^ (- e))%Z).
    { rewrite Zlt_Qlt, inject_Z_mult, <- pow2_Z by lia.
      unfold mant in H.
      assert (Q1 : inject_Z (Z.pos m)
                   == inject_Z (Z.pos m) * pow2 e * pow2 (- e)).
      { rewrite <- Qmult_assoc, <- pow2_add.
        replace (e + - e)%Z with 0%Z by lia. unfold pow2. cbn. ring. }
      rewrite Q1. apply Qmult_lt_compat_r; [apply pow2_pos|exact H]. }
    apply Z.div_lt_upper_bound; [lia|]. rewrite Z.mul_comm. exact L.
Qed.

Lemma SFmul_upper (ma mb : positive) (ea eb : Z) :
  valid_binary (SFmul prec emax (S754_finite false ma ea) (S754_finite false mb eb))
  = true ->
  match SFmul prec emax (S754_finite false ma ea) (S754_finite false mb eb) with
  | S754_nan => False
  | S754_finite s m e =>
      s = false
      /\ (mant (Z.pos m) e - mant (Z.pos m) e * u52
          <= mant (Z.pos ma) ea * mant (Z.pos mb) eb
          \/ mant (Z.pos m) e <= mant (Z.pos ma) ea * mant (Z.pos mb) eb + tiny)
  | _ => True
  end.
Proof.
  cbn [SFmul xorb].
  pose proof (round_aux_not_nan false (Z.pos (ma * mb)) (ea + eb)
                loc_Exact ltac:(lia)) as N.
  destruct (binary_round_aux prec emax false _ _ loc_Exact) as [s|s| |s m e] eqn:E;
    intros V; try exact I; [congruence|].
  cbn [valid_binary] in V.
  destruct (round_aux_finite _ _ _ _ _ _ _ (Pos2Z.is_nonneg _) E V) as [-> C].
  split; [reflexivity|].
  rewrite Pos2Z.inj_mul, mant_mul in C. exact C.
Qed.

Lemma SFmul_no_overflow (ma mb : positive) (ea eb : Z) (s : bool) :
  (ea + eb < 972)%Z ->
  mant (Z.pos ma) ea * mant (Z.pos mb) eb < pow2 1023 ->
  SFmul prec emax (S754_finite false ma ea) (S754_finite false mb eb)
  <> S754_infinity s.
Proof.
  intros He Hv E. cbn [SFmul xorb] in E.
  destruct (round_aux_infinity _ _ _ _ _ (Pos2Z.is_nonneg _) E) as [C|C]; [lia|].
  rewrite Pos2Z.inj_mul, mant_mul in C. lra.
Qed.

(** A quotient below 2^1023 does not overflow. *)
Lemma SFdiv_finite_quotient (ma mb : positive) (ea eb : Z) (s : bool) :
  mant (Z.pos ma) ea < pow2 1023 * mant (Z.pos mb) eb ->
  SFdiv prec emax (S754_finite false ma ea) (S754_finite false mb eb)
  <> S754_infinity s.
Proof.
  intros HA E. cbn [SFdiv] in E.
  pose proof (div_core_floor ma mb ea eb) as F.
  unfold SFdiv_core_binary in E, F. cbn [Zdigits2] in E, F.
  set (D := (Z.pos (digits2_pos ma) + ea - (Z.pos (digits2_pos mb) + eb))%Z) in *.
  set (e' := Z.min (fexp prec emax D) (ea - eb)) in *.
  destruct (Z.div_eucl _ (Z.pos mb)) as [q r]. destruct F as [Hq F].
  pose proof (mant_pos (Z.pos mb) eb ltac:(lia)) as PB.
  destruct (mant_digits ma ea) as [A1 _]. destruct (mant_digits mb eb) as [_ B2].
  destruct (round_aux_infinity _ _ _ _ _ Hq E) as [C|C].
  - assert (HD : (1025 <= D)%Z).
    { unfold e' in C. destruct (fexp_cases D) as [Fx|[Fx _]]; lia. }
    assert (L : pow2 1024 * mant (Z.pos mb) eb <= mant (Z.pos ma) ea).
    { apply Qle_trans with (pow2 1024 * pow2 (Z.pos (digits2_pos mb) + eb)).
      - apply Qmult_le_l; [apply pow2_pos|]. lra.
      - rewrite <- pow2_add.
        apply Qle_trans with (pow2 (Z.pos (digits2_pos ma) - 1 + ea)); [|exact A1].
        apply pow2_le. unfold D in HD. lia. }
    assert (pow2 1023 * mant (Z.pos mb) eb <= pow2 1024 * mant (Z.pos mb) eb).
    { apply Qmult_le_compat_r; [apply pow2_le; lia|lra]. }
    lra.
  - assert (L : pow2 1023 * mant (Z.pos mb) eb <= mant (Z.pos ma) ea).
    { apply Qle_trans with (mant q e' * mant (Z.pos mb) eb); [|exact F].
      apply Qmult_le_compat_r; lra. }
    lra.
Qed.

(** A float below 2^52 has a negative exponent. *)
Lemma bounded_small_exp (m : positive) (e : Z) :
  bounded prec emax m e = true -> mant (Z.pos m) e < pow2 52 -> (e < 0)%Z.
Proof.
  intros B H. destruct (bounded_cases m e B) as (_ & _ & [C|C]); [lia|].
  destruct (Z_lt_le_dec e 0) as [|G]; [assumption|exfalso].
  assert (L : pow2 52 <= mant (Z.pos m) e).
  { apply Qle_trans with (mant (2 ^ 52) e); [|now apply mant_le].
    unfold mant. rewrite <- pow2_Z by lia. rewrite <- pow2_add.
    apply pow2_le. lia. }
  lra.
Qed.

Lemma u52_eq : u52 == 1 # 4503599627370496.
Proof. reflexivity. Qed.

Lemma tiny_le : tiny <= 1 # 1267650600228229401496703205376.
Proof.
  unfold tiny. apply Qle_trans with (pow2 (-100)); [apply pow2_le; lia|].
  unfold pow2. cbn. discriminate.
Qed.

Lemma pow2_1023_ge : 1267650600228229401496703205376 < pow2 1023.
Proof.
  apply Qlt_le_trans with (pow2 101); [|apply pow2_le; lia].
  unfold pow2. cbn. reflexivity.
Qed.

(** The stride: a quotient [n / W] rounded up by little. *)
Lemma step_bound (n W S : Q) :
  0 < W -> 0 <= n -> 0 <= S ->
  (S - S * u52) * W <= n \/ (S - tiny) * W <= n ->
  S <= n / W * (1 + (2 # 4503599627370496)) + tiny.
Proof.
  intros HW Hn HS H. pose proof tiny_pos as Pt.
  assert (Wn : ~ W == 0) by (intros Z0; rewrite Z0 in HW; exact (Qlt_irrefl 0 HW)).
  set (x := n / W).
  assert (E : x * W == n) by (unfold x; field; exact Wn).
  assert (Px : 0 <= x).
  { unfold x, Qdiv. apply Qmult_le_0_compat; [lra|].
    apply Qinv_le_0_compat. lra. }
  clearbody x. rewrite <- E in H. rewrite u52_eq in H.
  destruct H as [H|H]; apply Qmult_le_r in H; try exact HW; lra.
Qed.

(** The product [i * step] for a position [i] before the last: it stays
    below the number of samples. *)
Lemma stride_bound (i n W S P : Q) :
  1 <= i -> i <= W - 1 -> W < n -> W <= 562949953421312 ->
  0 <= S -> 0 <= P ->
  S <= n / W * (1 + (2 # 4503599627370496)) + tiny ->
  P - P * u52 <= i * S \/ P <= i * S + tiny ->
  P < n.
Proof.
  intros Hi HiW HWn HW HS HP HSx H.
  pose proof tiny_pos as Pt. pose proof tiny_le as Tl.
  assert (Wn : ~ W == 0).
  { intros Z0. rewrite Z0 in HiW. lra. }
  set (x := n / W) in *.
  assert (E : x * W == n) by (unfold x; field; exact Wn).
  assert (Px : 0 < x).
  { unfold x, Qdiv. apply Qmult_lt_0_compat; [lra|].
    apply Qinv_lt_0_compat. lra. }
  clearbody x.
  assert (H1 : i * x <= n - x).
  { assert (L : i * x <= (W - 1) * x) by (apply Qmult_le_compat_r; lra).
    assert (R : (W - 1) * x == n - x) by (rewrite <- E; ring).
    lra. }
  assert (H2 : n <= x * 562949953421312).
  { rewrite <- E. apply Qmult_le_l; [exact Px|exact HW]. }
  assert (H3 : i * S <= (1 + (2 # 4503599627370496)) * (i * x) + i * tiny).
  { assert (L : i * S <= i * (x * (1 + (2 # 4503599627370496)) + tiny))
      by (apply Qmult_le_l; lra).
    assert (R : i * (x * (1 + (2 # 4503599627370496)) + tiny)
                == (1 + (2 # 4503599627370496)) * (i * x) + i * tiny) by ring.
    lra. }
  assert (H4 : i * tiny <= 562949953421312 * tiny).
  { apply Qmult_le_compat_r; lra. }
  rewrite u52_eq in H.
  destruct H; lra.
Qed.

(** The stride and the product are not large. *)
Lemma step_small (n W S : Q) :
  1 <= W -> 0 <= n -> n <= 562949953421312 ->
  S <= n / W * (1 + (2 # 4503599627370496)) + tiny ->
  S <= 1125899906842624.
Proof.
  intros HW Hn Hn' HS. pose proof tiny_pos as Pt. pose proof tiny_le as Tl.
  assert (Wn : ~ W == 0).
  { intros Z0. rewrite Z0 in HW. lra. }
  set (x := n / W) in *.
  assert (E : x * W == n) by (unfold x; field; exact Wn).
  assert (Px : 0 <= x).
  { unfold x, Qdiv. apply Qmult_le_0_compat; [lra|].
    apply Qinv_le_0_compat. lra. }
  clearbody x.
  assert (L : x * 1 <= x * W).
  { destruct (Qle_lt_or_eq _ _ Px) as [P|P].
    - apply Qmult_le_l; [exact P|exact HW].
    - rewrite <- P. lra. }
  lra.
Qed.

Lemma stride_sf (mi mn mw : positive) (ei en ew : Z) :
  bounded prec emax mi ei = true ->
  1 <= mant (Z.pos mi) ei ->
  mant (Z.pos mi) ei <= mant (Z.pos mw) ew - 1 ->
  mant (Z.pos mw) ew < mant (Z.pos mn) en ->
  mant (Z.pos mn) en <= 562949953421312 ->
  valid_binary (SFdiv prec emax (S754_finite false mn en) (S754_finite false mw ew))
  = true ->
  valid_binary
    (SFmul prec emax (S754_finite false mi ei)
       (SFdiv prec emax (S754_finite false mn en) (S754_finite false mw ew)))
  = true ->
  match SFmul prec emax (S754_finite false mi ei)
          (SFdiv prec emax (S754_finite false mn en) (S754_finite false mw ew)) with
  | S754_zero _ => True
  | S754_finite s m e => s = false /\ mant (Z.pos m) e < mant (Z.pos mn) en
  | _ => False
  end.
Proof.
  intros Bi Hi HiW HWn Hn Vq Vp.
  set (i := mant (Z.pos mi) ei) in *.
  set (n := mant (Z.pos mn) en) in *.
  set (W := mant (Z.pos mw) ew) in *.
  pose proof pow2_1023_ge as Big.
  pose proof (SFdiv_upper mn mw en ew Vq) as D.
  pose proof (SFdiv_finite_quotient mn mw en ew) as ND.
  fold n W in D, ND.
  destruct (SFdiv prec emax (S754_finite false mn en) (S754_finite false mw ew))
    as [sq|sq| |sq mq eq] eqn:Eq.
  - exact I.
  - apply (ND sq); [|reflexivity].
    assert (pow2 1023 * 1 <= pow2 1023 * W) by (apply Qmult_le_l; lra).
    lra.
  - destruct D.
  - destruct D as (-> & Dq).
    pose proof (mant_pos (Z.pos mq) eq ltac:(lia)) as PQ.
    set (S := mant (Z.pos mq) eq) in *.
    assert (HS : S <= n / W * (1 + (2 # 4503599627370496)) + tiny)
      by (apply step_bound; [lra|lra|lra|exact Dq]).
    assert (HS' : S <= 1125899906842624)
      by (apply (step_small n W); lra).
    pose proof (SFmul_upper mi mq ei eq Vp) as M.
    pose proof (SFmul_no_overflow mi mq ei eq) as NM.
    fold i S in M, NM.
    destruct (SFmul prec emax (S754_finite false mi ei) (S754_finite false mq eq))
      as [sr|sr| |sr mr er] eqn:Er.
    + exact I.
    + apply (NM sr); [| |reflexivity].
      * cbn [valid_binary] in Vq.
        destruct (bounded_cases mq eq Vq) as (Re & _ & _).
        assert (ei < 0)%Z; [|lia].
        apply (bounded_small_exp mi ei Bi). fold i.
        apply Qle_lt_trans with 562949953421312; [lra|].
        unfold pow2. cbn. reflexivity.
      * assert (L1 : i * S <= i * 1125899906842624) by (apply Qmult_le_l; lra).
        assert (L2 : i * 1125899906842624 <= 562949953421312 * 1125899906842624)
          by (apply Qmult_le_compat_r; lra).
        assert (L3 : 562949953421312 * 1125899906842624
                     <= 1267650600228229401496703205376) by discriminate.
        lra.
    + destruct M.
    + destruct M as (-> & M). split; [reflexivity|].
      pose proof (mant_pos (Z.pos mr) er ltac:(lia)) as PR.
      apply (stride_bound i n W S); first [lra|exact M].
Qed.

End StrideOnFloats.

Lemma Prim2SF_float_of_Z (z : Z) :
  0 < z < 2 ^ 53 ->
  exists m e,
    Prim2SF (float_of_Z z) = S754_finite false m e
    /\ bounded prec emax m e = true
    /\ (mant (Z.pos m) e == inject_Z z)%Q.
Proof.
  intros Hz. destruct z as [|p|p]; try lia.
  destruct (binary_round_small p ltac:(lia)) as (m & e & E & B & V).
  exists m, e. unfold float_of_Z. cbn [binary_normalize]. rewrite E.
  rewrite Prim2SF_SF2Prim by exact B. auto.
Qed.

(** Every position of the stride gives an index into the samples. *)
Lemma stride_index (n W i : Z) :
  0 <= i < W -> W < n -> n <= 2 ^ 49 ->
  exists k,
    float_to_int (PrimFloat.mul (float_of_Z i)
                    (PrimFloat.div (float_of_Z n) (float_of_Z W))) = Ok k
    /\ 0 <= k < n /\ (i = 0 -> k = 0).
Proof.
  intros Hi HW Hn.
  assert (P53 : 2 ^ 49 < 2 ^ 53) by reflexivity.
  destruct (Prim2SF_float_of_Z n ltac:(lia)) as (mn & en & En & Bn & Vn).
  destruct (Prim2SF_float_of_Z W ltac:(lia)) as (mw & ew & Ew & Bw & Vw).
  set (step := PrimFloat.div (float_of_Z n) (float_of_Z W)).
  assert (Es : Prim2SF step
               = SFdiv prec emax (S754_finite false mn en) (S754_finite false mw ew)).
  { unfold step. rewrite div_spec, En, Ew. reflexivity. }
  pose proof (Prim2SF_valid step) as Vs. rewrite Es in Vs.
  pose proof (Prim2SF_valid (PrimFloat.mul (float_of_Z i) step)) as Vp.
  unfold float_to_int. rewrite mul_spec in *. rewrite Es in *.
  unfold SF64mul in *.
  assert (QW : (inject_Z W < inject_Z n)%Q) by (now rewrite <- Zlt_Qlt).
  assert (Qn : (inject_Z n <= 562949953421312)%Q).
  { change 562949953421312%Q with (inject_Z (2 ^ 49)). now rewrite <- Zle_Qle. }
  destruct (Z.eq_dec i 0) as [->|Ni].
  - change (Prim2SF (float_of_Z 0)) with (S754_zero false) in *.
    pose proof (SFdiv_upper mn mw en ew Vs) as D.
    pose proof (SFdiv_finite_quotient mn mw en ew) as ND.
    destruct (SFdiv prec emax (S754_finite false mn en) (S754_finite false mw ew))
      as [sq|sq| |sq mq eq] eqn:Eq.
    + exists 0. split; [reflexivity|]. split; [lia|intros; reflexivity].
    + exfalso. apply (ND sq); [|reflexivity].
      rewrite Vn, Vw.
      assert (Q1 : (1 <= inject_Z W)%Q).
      { change 1%Q with (inject_Z 1). rewrite <- Zle_Qle. lia. }
      pose proof pow2_1023_ge as Big.
      assert ((pow2 1023 * 1 <= pow2 1023 * inject_Z W)%Q)
        by (apply Qmult_le_l; lra).
      lra.
    + destruct D.
    + exists 0. split; [reflexivity|]. split; [lia|intros; reflexivity].
  - destruct (Prim2SF_float_of_Z i ltac:(lia)) as (mi & ei & Ei & Bi & Vi).
    rewrite Ei in *.
    assert (Q1 : (1 <= inject_Z i)%Q).
    { change 1%Q with (inject_Z 1). rewrite <- Zle_Qle. lia. }
    assert (Q2 : (inject_Z i <= inject_Z W - 1)%Q).
    { change 1%Q with (inject_Z 1). unfold Qminus.
      rewrite <- inject_Z_opp, <- inject_Z_plus, <- Zle_Qle. lia. }
    pose proof (stride_sf mi mn mw ei en ew Bi) as T.
    rewrite Vi, Vn, Vw in T. specialize (T Q1 Q2 QW Qn Vs Vp).
    destruct (SFmul prec emax (S754_finite false mi ei) _) as [s|s| |s m e];
      try destruct T.
    + exists 0. split; [reflexivity|]. split; [lia|intros; reflexivity].
    + subst s. rewrite <- Vn in *.
      assert (Hm : (mant (Z.pos m) e < inject_Z n)%Q) by (rewrite <- Vn; assumption).
      pose proof (trunc_below m e n Hm) as Tr. cbv zeta.
      eexists. split; [reflexivity|]. split; [exact Tr|intros; contradiction].
Qed.

Lemma strides_binary64_returns (n W : Z) :
  0 < W < n -> n <= 2 ^ 49 ->
  exists idxs,
    strides binary64 n W = Ok idxs
    /\ Forall2 (fun i k => 0 <= k < n /\ (i = 0 -> k = 0)) (range W) idxs.
Proof.
  intros HW Hn. unfold strides.
  cbn [num_true_div num_to_int num_mul num_of_int binary64].
  unfold float_true_div.
  replace (W =? 0) with false by (symmetry; apply Z.eqb_neq; lia).
  cbn [rbind]. apply mapM_Forall2. intros i Hi. apply range_In in Hi.
  exact (stride_index n W i Hi (proj2 HW) Hn).
Qed.

Lemma resample_binary64_returns (samples : list float) (W : Z) :
  samples <> [] -> 0 < W -> len samples <= 2 ^ 49 ->
  exists vals, resample binary64 samples W = Ok vals.
Proof.
  intros Hne HW Hn. destruct (Z_lt_le_dec W (len samples)) as [L|G].
  - unfold resample. change (num binary64) with float.
    replace (W <? len samples) with true by (symmetry; apply Z.ltb_lt; exact L).
    cbn [num_true_div num_to_int num_mul num_of_int binary64].
    unfold float_true_div.
    replace (W =? 0) with false by (symmetry; apply Z.eqb_neq; lia).
    cbn [rbind]. apply mapM_returns. intros i Hi. apply range_In in Hi.
    destruct (stride_index (len samples) W i Hi L Hn) as (k & -> & Hk & _).
    cbn [rbind]. rewrite (py_getitem_nth samples k 0%float Hk). eauto.
  - rewrite (resample_pad binary64 samples W 0%float Hne G). eauto.
Qed.

(** On floats that are not too far apart both variants return, the same
    string of [W] glyphs of the palette. *)
Lemma sparkline_binary64_total (samples : list float) (W : Z) :
  samples <> [] -> 0 < W ->
  differences_finite samples = true -> len samples <= 2 ^ 49 ->
  exists out,
    Spark.sparkline binary64 samples W = Ok out
    /\ Rich.sparkline binary64 samples W = Ok out
    /\ len out = W
    /\ Forall (fun c => In c SPARK) out.
Proof.
  intros Hne HW Hd Hn.
  apply sparkline_binary64_returns; try assumption.
  apply resample_binary64_returns; assumption.
Qed.

(** * The sparkline quantizer *)

(** C3, as stated, fails on floats that are far apart.  The samples
    -1e308 and 1e308 are finite, but their difference [hi - lo] overflows
    to infinity; the quotient [(v - lo) / (hi - lo)] is then NaN for the
    greater sample and [int] raises ValueError, in both variants and at
    any width (here 2, and the 36 of the renderers). *)
Lemma sparkline_overflow_raises :
  let samples :=
    [(- 0x1.1ccf385ebc8a0p+1023)%float; 0x1.1ccf385ebc8a0p+1023%float] in
  finite (- 0x1.1ccf385ebc8a0p+1023)%float = true
  /\ finite 0x1.1ccf385ebc8a0p+1023%float = true
  /\ Spark.sparkline binary64 samples 2
     = Raise (Exn ValueError "cannot convert float NaN to integer")
  /\ Rich.sparkline binary64 samples 2
     = Raise (Exn ValueError "cannot convert float NaN to integer")
  /\ Spark.sparkline binary64 samples 36
     = Raise (Exn ValueError "cannot convert float NaN to integer")
  /\ Rich.sparkline binary64 samples 36
     = Raise (Exn ValueError "cannot convert float NaN to integer")
  /\ ~ (exists out, Spark.sparkline binary64 samples 2 = Ok out)
  /\ ~ (exists out, Rich.sparkline binary64 samples 2 = Ok out).
Proof.
  cbv zeta. repeat split; try (vm_compute; reflexivity);
    intros [out H]; vm_compute in H; discriminate.
Qed.

(** C3, amended.  For a non-empty sequence of floats no two of which are so
    far apart that their difference overflows (none is NaN or an infinity
    then), of at most 2^49 samples, and a positive width [W], the plain and
    the rich variant return the same string of exactly [W] glyphs, all from
    the palette of 8.  For any non-empty sequence of floats, whatever
    either variant returns is such a string.  The empty sequence gives the
    empty string. *)
Theorem sparkline_width_palette (samples : list float) (W : Z) :
  (samples <> [] -> 0 < W ->
   differences_finite samples = true -> len samples <= 2 ^ 49 ->
   exists out,
     Spark.sparkline binary64 samples W = Ok out
     /\ Rich.sparkline binary64 samples W = Ok out
     /\ len out = W
     /\ Forall (fun c => In c SPARK) out)
  /\ (samples <> [] -> 0 < W ->
      forall out : list char,
        Spark.sparkline binary64 samples W = Ok out
        \/ Rich.sparkline binary64 samples W = Ok out ->
        len out = W /\ Forall (fun c => In c SPARK) out)
  /\ len SPARK = 8
  /\ Spark.sparkline binary64 [] W = Ok []
  /\ Rich.sparkline binary64 [] W = Ok [].
Proof.
  split; [|split; [|repeat split]].
  - intros Hne HW Hd Hn. exact (sparkline_binary64_total samples W Hne HW Hd Hn).
  - intros Hne HW out H.
    exact (sparkline_shape_any binary64 samples W out Hne HW H).
Qed.

Lemma sparkline_width_palette_witness :
  exists out,
    Spark.sparkline binary64 [3.5; 1; 2.25; 5; 4]%float 3 = Ok out
    /\ Rich.sparkline binary64 [3.5; 1; 2.25; 5; 4]%float 3 = Ok out
    /\ len out = 3
    /\ Forall (fun c => In c SPARK) out.
Proof.
  apply (proj1 (sparkline_width_palette [3.5; 1; 2.25; 5; 4]%float 3));
    [discriminate|reflexivity|vm_compute; reflexivity|vm_compute; discriminate].
Defined.

(** C4, as the spec has it, fails: for samples [10, 20, 30] and width 6 the
    working set is not the samples at indices [0,0,1,1,2,2], and the output
    is not two equal glyphs three times. *)
Lemma sparkline_10_20_30_not_strided :
  resample binary64 [10; 20; 30]%float 6 <> Ok [10; 10; 20; 20; 30; 30]%float
  /\ ~ (exists low mid high,
          Spark.sparkline binary64 [10; 20; 30]%float 6
          = Ok [low; low; mid; mid; high; high])
  /\ ~ (exists low mid high,
          Rich.sparkline binary64 [10; 20; 30]%float 6
          = Ok [low; low; mid; mid; high; high]).
Proof.
  split; [|split].
  - intros H.
    apply (f_equal (fun r => match r with
                             | Ok (_ :: x :: _) => PrimFloat.eqb x 10
                             | _ => false
                             end)) in H.
    vm_compute in H. discriminate.
  - intros (low & mid & high & H). vm_compute in H. inversion H. subst. discriminate.
  - intros (low & mid & high & H). vm_compute in H. inversion H. subst. discriminate.
Qed.

(** C4, amended.  Three samples do not exceed the width 6, so they are
    padded on the right with the last one: the working set is
    [10, 20, 30, 30, 30, 30] and the output is the glyphs of index
    0, 3, 7, 7, 7, 7, with floats as with exact numbers. *)
Theorem sparkline_10_20_30_padded :
  resample binary64 [10; 20; 30]%float 6 = Ok [10; 20; 30; 30; 30; 30]%float
  /\ mapM (level binary64 10%float 30%float) [10; 20; 30; 30; 30; 30]%float
     = Ok [0; 3; 7; 7; 7; 7]
  /\ Spark.sparkline binary64 [10; 20; 30]%float 6
     = Ok [0x2581; 0x2584; 0x2588; 0x2588; 0x2588; 0x2588]%N
  /\ Rich.sparkline binary64 [10; 20; 30]%float 6
     = Ok [0x2581; 0x2584; 0x2588; 0x2588; 0x2588; 0x2588]%N
  /\ Spark.sparkline exact [10; 20; 30]%Q 6
     = Ok [0x2581; 0x2584; 0x2588; 0x2588; 0x2588; 0x2588]%N
  /\ Rich.sparkline exact [10; 20; 30]%Q 6
     = Ok [0x2581; 0x2584; 0x2588; 0x2588; 0x2588; 0x2588]%N.
Proof. repeat split; vm_compute; reflexivity. Qed.

(** C5, as stated, fails on floats: the samples [0, 1, 7] at width 3 are
    drawn with the glyphs of index 0, 1, 7, and rescaled by [1.8*v + 32]
    with the glyphs of index 0, 0, 7, in both variants. *)
Lemma sparkline_affine_binary64_counterexample :
  let rescaled := map (affine binary64 float_1_8 32%float) [0; 1; 7]%float in
  Spark.sparkline binary64 [0; 1; 7]%float 3
  = Ok [0x2581; 0x2582; 0x2588]%N
  /\ Spark.sparkline binary64 rescaled 3 = Ok [0x2581; 0x2581; 0x2588]%N
  /\ Spark.sparkline binary64 rescaled 3
     <> Spark.sparkline binary64 [0; 1; 7]%float 3
  /\ Rich.sparkline binary64 rescaled 3
     <> Rich.sparkline binary64 [0; 1; 7]%float 3.
Proof.
  cbv zeta. repeat split; try (vm_compute; reflexivity);
    vm_compute; discriminate.
Qed.

(** C5, amended.  In exact arithmetic, mapping every sample [v] to
    [a*v + b] with [a] positive leaves the output of both variants as it is,
    whatever the width (an exception included).  On floats the same holds
    when samples, factor and offset are integers, all values before and
    after lie between -128 and 128, and there are not more of them than the
    width. *)
Theorem sparkline_affine_exact (a b : Q) (values : list Q) (W : Z) :
  (0 < a)%Q ->
  Spark.sparkline exact (map (affine exact a b) values) W
  = Spark.sparkline exact values W
  /\ Rich.sparkline exact (map (affine exact a b) values) W
     = Rich.sparkline exact values W
  /\ forall (zs : list Z) (k c : Z),
       0 < k -> zs <> [] -> len zs <= W ->
       (forall z, In z zs -> -128 <= z <= 128 /\ -128 <= k * z + c <= 128) ->
       Spark.sparkline binary64
         (map float_of_Z (map (fun z => k * z + c) zs)) W
       = Spark.sparkline binary64 (map float_of_Z zs) W
       /\ Rich.sparkline binary64
            (map float_of_Z (map (fun z => k * z + c) zs)) W
          = Rich.sparkline binary64 (map float_of_Z zs) W.
Proof.
  intros Ha. rewrite !sparkline_exact_agree.
  split; [apply sparkline_exact_affine; exact Ha|].
  split; [apply sparkline_exact_affine; exact Ha|].
  intros zs k c Hk Hne Hlen Hsmall.
  destruct (sparkline_small_integers zs W Hne) as [E1 E2];
    [intros z Hz; apply Hsmall; exact Hz|exact Hlen|].
  destruct (sparkline_small_integers (map (fun z => k * z + c) zs) W) as [F1 F2].
  - destruct zs; [congruence|discriminate].
  - intros z Hz. apply in_map_iff in Hz. destruct Hz as (z' & <- & Hz').
    apply Hsmall; exact Hz'.
  - now rewrite len_map.
  - assert (Emap : map inject_Z (map (fun z => k * z + c) zs)
                   = map (affine exact (inject_Z k) (inject_Z c)) (map inject_Z zs)).
    { rewrite !map_map. apply map_ext. intros z.
      unfold affine, inject_Z. cbn [num_add num_mul exact].
      unfold Qplus, Qmult. cbn [Qnum Qden Pos.mul]. f_equal. lia. }
    rewrite F1, F2, E1, E2, Emap, !sparkline_exact_agree.
    split; apply sparkline_exact_affine; apply inject_Z_pos; exact Hk.
Qed.

Lemma sparkline_affine_exact_witness :
  Spark.sparkline exact (map (affine exact (9 # 5)%Q 32%Q) [0; 1; 7]%Q) 3
  = Spark.sparkline exact [0; 1; 7]%Q 3
  /\ Rich.sparkline exact (map (affine exact (9 # 5)%Q 32%Q) [0; 1; 7]%Q) 3
     = Rich.sparkline exact [0; 1; 7]%Q 3.
Proof.
  destruct (sparkline_affine_exact (9 # 5)%Q 32%Q [0; 1; 7]%Q 3 Logic.eq_refl)
    as (H1 & H2 & _).
  split; [exact H1|exact H2].
Defined.




(** C10.  On floats the plain and the rich variant give the same result on
    every input: the same string, or the same exception.  The clamp of the
    plain variant is redundant: whenever a sample [v] is not less than [lo]
    and [hi] is not less than [v], an index that
    [int((v - lo) / (hi - lo) * 7)] returns is within 0..7, so clamping
    leaves it as it is; that is so for every sample of the working set,
    [lo] and [hi] being its least and greatest.  For a non-empty sequence
    no two samples of which are so far apart that their difference
    overflows, of at most 2^49 samples, and a positive width, the common
    result is a string. *)
Theorem sparkline_clamp_redundant (samples : list float) (W : Z) :
  Spark.sparkline binary64 samples W = Rich.sparkline binary64 samples W
  /\ (forall (lo hi v : float) (idx : Z),
        PrimFloat.ltb v lo = false -> PrimFloat.ltb hi v = false ->
        level binary64 lo hi v = Ok idx ->
        0 <= idx <= len SPARK - 1
        /\ Z.max 0 (Z.min (len SPARK - 1) idx) = idx)
  /\ (forall (vals : list float) (lo hi v : float) (idx : Z),
        resample binary64 samples W = Ok vals ->
        py_min PrimFloat.ltb vals = Ok lo ->
        py_max PrimFloat.ltb vals = Ok hi ->
        In v vals -> level binary64 lo hi v = Ok idx ->
        0 <= idx <= len SPARK - 1
        /\ Z.max 0 (Z.min (len SPARK - 1) idx) = idx)
  /\ (samples <> [] -> 0 < W ->
      differences_finite samples = true -> len samples <= 2 ^ 49 ->
      exists out, Spark.sparkline binary64 samples W = Ok out
                  /\ Rich.sparkline binary64 samples W = Ok out).
Proof.
  assert (R : forall (lo hi v : float) (idx : Z),
             PrimFloat.ltb v lo = false -> PrimFloat.ltb hi v = false ->
             level binary64 lo hi v = Ok idx ->
             0 <= idx <= len SPARK - 1
             /\ Z.max 0 (Z.min (len SPARK - 1) idx) = idx).
  { intros lo hi v idx L1 L2 E.
    pose proof (level_binary64_range lo hi v idx L1 L2 E) as Hr.
    change (len SPARK - 1) with 7. split; lia. }
  split; [apply sparkline_binary64_agree|]. split; [exact R|]. split.
  - intros vals lo hi v idx _ Hlo Hhi Hv E.
    exact (R lo hi v idx (py_min_floor vals lo Hlo v Hv)
             (py_max_ceiling vals hi Hhi v Hv) E).
  - intros Hne HW Hd Hn.
    destruct (sparkline_binary64_total samples W Hne HW Hd Hn)
      as (out & H1 & H2 & _).
    exists out. auto.
Qed.

Lemma sparkline_clamp_redundant_witness :
  exists out, Spark.sparkline binary64 [3.5; 1; 2.25; 5; 4]%float 36 = Ok out
              /\ Rich.sparkline binary64 [3.5; 1; 2.25; 5; 4]%float 36 = Ok out.
Proof.
  apply (proj2 (proj2 (proj2
           (sparkline_clamp_redundant [3.5; 1; 2.25; 5; 4]%float 36))));
    [discriminate|reflexivity|vm_compute; reflexivity|vm_compute; discriminate].
Defined.

(** * The forecast normalizer *)

Lemma StronglySorted_lt_NoDup (l : list Z) : StronglySorted Z.lt l -> NoDup l.
Proof.
  induction 1 as [|x l Hs IH Hall]; constructor; [|exact IH].
  intros Hin. rewrite Forall_forall in Hall. specialize (Hall x Hin). lia.
Qed.

(** C1.  For a forecast whose entries all carry a timestamp and a weather
    element, the daily output has one entry per UTC date of the payload, in
    ascending date order ([days] lists the dates); the entry of a date
    [summarizes] the payload's entries of that date: [d_min] and [d_max] are
    the least and the greatest of their temperatures that are not null
    ([None] when there is none), and timestamp and weather are those of the
    entry at index [count / 2].  A payload that spans [n] distinct dates
    yields [n] entries. *)
Theorem daily_groups_by_utc_day (now : Z) (fr : forecast_payload) :
  forallb well_formed (forecast_items fr) = true ->
  exists days ds,
    build_daily now fr = Ok ds
    /\ StronglySorted Z.lt days
    /\ (forall day, In day days <->
          exists it, In it (forecast_items fr) /\ item_day it = Some day)
    /\ Forall2 (fun day d =>
                  summarizes (filter (on_day day) (forecast_items fr)) d)
               days ds
    /\ forall distinct,
         NoDup distinct ->
         (forall day, In day distinct <->
            exists it, In it (forecast_items fr) /\ item_day it = Some day) ->
         List.length ds = List.length distinct.
Proof.
  intros Hwf.
  destruct (build_daily_spec now fr Hwf) as (days & ds & Hds & Hs & Hin & HF).
  exists days, ds. repeat split; try assumption; try (now apply Hin).
  intros distinct Hnd Hd.
  rewrite <- (Forall2_length HF).
  apply Permutation_length, NoDup_Permutation;
    [now apply StronglySorted_lt_NoDup|exact Hnd|].
  intros day. now rewrite Hin, Hd.
Qed.

(** 30 entries three hours apart from midnight span four dates. *)
Lemma daily_groups_by_utc_day_witness :
  exists ds,
    build_daily 0 (sample_forecast 30) = Ok ds /\ List.length ds = 4%nat.
Proof.
  destruct (daily_groups_by_utc_day 0 (sample_forecast 30) Logic.eq_refl)
    as (days & ds & Hds & _ & _ & _ & Hcount).
  exists ds. split; [exact Hds|].
  apply (Hcount [19676; 19677; 19678; 19679]).
  - repeat constructor; simpl; intuition discriminate.
  - intros day. split.
    + intros [<-|[<-|[<-|[<-|[]]]]].
      * exists (sample_item 1700006400 0 (-1) 1). split; [now left|reflexivity].
      * exists (sample_item (1700006400 + 10800 * 8) 8 7 9).
        split; [|reflexivity]. do 8 right. now left.
      * exists (sample_item (1700006400 + 10800 * 16) 16 15 17).
        split; [|reflexivity]. do 16 right. now left.
      * exists (sample_item (1700006400 + 10800 * 24) 24 23 25).
        split; [|reflexivity]. do 24 right. now left.
    + intros (it & Hit & Hday).
      cbv [sample_forecast forecast_items fr_list seq map] in Hit.
      repeat (destruct Hit as [<-|Hit];
              [vm_compute in Hday; injection Hday as <-; simpl; tauto|]).
      destruct Hit.
Defined.



(** * The data source adapter *)

(** C7.  [fetch_onecall] sends exactly one request to the primary endpoint,
    before anything else.  On status 200 it returns the payload as it is and
    sends nothing more.  On any other status, or when the request raises a
    transport failure, the request that follows is the fallback's /weather
    request and the result is the fallback's; the primary is not asked
    again.  (On a status other than 200 a fallback run that raises a
    RequestException is followed by a second fallback run.) *)
Theorem primary_once_then_fallback (lat lon : option Q) (units : string)
  (env : environment) (w : world) :
  let primary := onecall_api env (sent w) lat lon units in
  let w1 := send w (GetOneCall lat lon units) in
  let fallback := fetch_weather_and_forecast lat lon units env in
  let out := fetch_onecall lat lon units env w in
  (exists rest,
      sent (snd out) = sent w ++ GetOneCall lat lon units :: rest
      /\ Forall (fun r => is_onecall r = false) rest)
  /\ (forall r, primary = Responded r -> status_code r = 200 ->
        out = (Ok (json r), w1))
  /\ (forall r, primary = Responded r -> status_code r <> 200 ->
        (exists rest, sent (snd out)
                      = sent w ++ GetOneCall lat lon units
                               :: GetWeather lat lon units :: rest)
        /\ (raises_RequestException (fst (fallback w1)) = false ->
            out = fallback w1)
        /\ (raises_RequestException (fst (fallback w1)) = true ->
            out = fallback (snd (fallback w1))))
  /\ (forall msg, primary = Failed msg ->
        out = fallback w1
        /\ exists rest, sent (snd out)
                        = sent w ++ GetOneCall lat lon units
                                 :: GetWeather lat lon units :: rest).
Proof.
  cbv zeta.
  destruct (fetch_onecall_primary_once lat lon units env w) as (rest & Hs & Hn & Hfb).
  split; [exists rest; auto|].
  rewrite fetch_onecall_cases in *. cbv zeta in *.
  split; [|split].
  - intros r Hr E. rewrite Hr. apply Z.eqb_eq in E. now rewrite E.
  - intros r Hr E. rewrite Hr in *. apply Z.eqb_neq in E. rewrite E in *.
    split; [|split].
    + destruct (Hfb Logic.eq_refl) as (rest' & ->). eauto.
    + destruct (fetch_weather_and_forecast lat lon units env _) as [[a|e] w2];
        cbn [fst snd raises_RequestException]; [reflexivity|].
      intros ->. reflexivity.
    + destruct (fetch_weather_and_forecast lat lon units env _) as [[a|e] w2];
        cbn [fst snd raises_RequestException]; [discriminate|].
      intros ->. reflexivity.
  - intros msg Hr. rewrite Hr in *. split; [reflexivity|].
    destruct (Hfb Logic.eq_refl) as (rest' & ->). eauto.
Qed.

(** OneCall answers 401: the fallback is asked next and its result is
    returned. *)
Lemma primary_once_then_fallback_witness :
  fetch_onecall None None "metric" sample_env start
  = fetch_weather_and_forecast None None "metric" sample_env
      (send start (GetOneCall None None "metric"))
  /\ sent (snd (fetch_onecall None None "metric" sample_env start))
     = [GetOneCall None None "metric"; GetWeather None None "metric";
        GetForecast None None "metric"].
Proof.
  destruct (primary_once_then_fallback None None "metric" sample_env start)
    as (_ & _ & H & _).
  destruct (H {| status_code := 401; error_text := "401 Client Error";
                 json := onecall_without_numbers |})
    as (_ & H1 & _); [reflexivity|discriminate|].
  split; [apply H1; reflexivity|reflexivity].
Defined.

(** C8.  When the geocoder answers with an empty list, [geocode_owm] raises
    ValueError "City not found" after that one request; [main] then prints
    the single line "Error: City not found", sends no further request and
    calls no renderer, in both variants.  When the list is not empty, the
    latitude, longitude, name and country of its first element are
    returned (the queried city and the empty string standing in for a name
    or country that the element lacks). *)
Theorem geocode_first_match_or_not_found
  (render_owm : owm_data -> string -> string -> io unit)
  (render_wttr : string -> string -> string -> io unit)
  (coords_text : option Q -> option Q -> string)
  (env : environment) (w : world) (city : string) (r : response (list geo_match))
  (lat lon : option Q) (place_label units : string) :
  geocode_api env (sent w) city = Responded r ->
  http_ok r = true ->
  city <> EmptyString ->
  (json r = [] ->
     geocode_owm city env w
     = (Raise (Exn ValueError "City not found"), send w (GetGeocode city))
     /\ Spark.main_fetch_render render_owm render_wttr coords_text true
          (Some city) lat lon place_label units env w
        = (Ok tt, {| sent := sent w ++ [GetGeocode city];
                     printed := printed w ++ ["Error: City not found"%string] |})
     /\ Rich.main_fetch_render render_owm render_wttr true
          (Some city) place_label units env w
        = (Ok tt, {| sent := sent w ++ [GetGeocode city];
                     printed := printed w ++ ["Error: City not found"%string] |}))
  /\ (forall it rest la lo,
        json r = it :: rest -> g_lat it = Val la -> g_lon it = Val lo ->
        geocode_owm city env w
        = (Ok (Some la, Some lo, get_or (g_name it) city,
               get_or (g_country it) EmptyString),
           send w (GetGeocode city))
        /\ forall name country,
             g_name it = Val name -> g_country it = Val country ->
             geocode_owm city env w
             = (Ok (Some la, Some lo, Some name, Some country),
                send w (GetGeocode city))).
Proof.
  intros Hapi Hok Hcity.
  assert (Hgeo : forall (B : Type) (k : response (list geo_match) -> io B),
            bind (http_get (GetGeocode city) (fun env h => geocode_api env h city))
                 (fun r => bind (raise_for_status r) (fun _ => k r)) env w
            = k r env (send w (GetGeocode city))).
  { intros B k. unfold bind, http_get, raise_for_status. rewrite Hapi.
    unfold http_ok in Hok. apply negb_true_iff in Hok. rewrite Hok. reflexivity. }
  split.
  - intros Hj.
    assert (G : geocode_owm city env w
                = (Raise (Exn ValueError "City not found"), send w (GetGeocode city))).
    { unfold geocode_owm. rewrite Hgeo. rewrite Hj. reflexivity. }
    split; [exact G|]. split.
    + unfold Spark.main_fetch_render, report_errors, try_except.
      rewrite (truthy_nonempty city Hcity). cbn [andb str_or_None].
      unfold bind at 1. rewrite G. reflexivity.
    + unfold Rich.main_fetch_render, Rich.report_errors.
      rewrite (truthy_nonempty city Hcity). cbn [andb str_or_None].
      unfold bind at 1. rewrite G. reflexivity.
  - intros it rest la lo Hj Hla Hlo.
    assert (G : geocode_owm city env w
                = (Ok (Some la, Some lo, get_or (g_name it) city,
                       get_or (g_country it) EmptyString),
                   send w (GetGeocode city))).
    { unfold geocode_owm. rewrite Hgeo. rewrite Hj, Hla, Hlo. reflexivity. }
    split; [exact G|].
    intros name country Hn Hc. rewrite G, Hn, Hc. reflexivity.
Qed.

(** The geocoder of [sample_env] knows no city. *)
Lemma geocode_first_match_or_not_found_witness :
  Spark.main_fetch_render (fun _ _ _ => print "rendered") (fun _ _ _ => print "rendered")
    (fun _ _ => EmptyString) true (Some "Atlantis"%string) None None
    "Atlantis" "metric" sample_env start
  = (Ok tt, {| sent := [GetGeocode "Atlantis"];
               printed := ["Error: City not found"%string] |}).
Proof.
  destruct (geocode_first_match_or_not_found
              (fun _ _ _ => print "rendered") (fun _ _ _ => print "rendered")
              (fun _ _ => EmptyString) sample_env start "Atlantis"
              {| status_code := 200; error_text := EmptyString; json := [] |}
              None None "Atlantis" "metric") as (H & _);
    [reflexivity|reflexivity|discriminate|].
  destruct H as (_ & H & _); [reflexivity|exact H].
Defined.

(** * The presentation layer *)

Section Rendering.
Variable capitalize : string -> string.
Variable strftime_minutes : Z -> string.
Variables place units : string.

(** C9 does not hold of a snapshot built by the fallback normalizer.  A
    /weather payload without "temp" is normalized to a snapshot that binds
    "temp" to [None]; the default 0 of [cur.get('temp',0)] stands in only
    for an absent key, so [round] is applied to [None] and raises TypeError:
    the plain renderer stops after the description line, the rich one after
    the panel, and [main] reports the error instead of a temperature. *)
Theorem render_null_temperature_raises :
  normalize (time_now sample_env) weather_without_temp (sample_forecast 0)
  = Ok snapshot_without_temp
  /\ Spark.render_owm_current capitalize strftime_minutes snapshot_without_temp
       place units sample_env start
     = (Raise (Exn TypeError "type NoneType doesn't define __round__ method"),
        {| sent := [];
           printed :=
             ["================================================";
              " Quick Weather — CLI with hourly sparkline";
              "================================================";
              "Location: " ++ place;
              "Time: " ++ strftime_minutes 1700006400;
              EmptyString;
              "🌧️ " ++ capitalize "light rain"]%string |})
  /\ Rich.render_rich_owm_current capitalize strftime_minutes snapshot_without_temp
       place units sample_env start
     = (Raise (Exn TypeError "type NoneType doesn't define __round__ method"),
        {| sent := [];
           printed :=
             [place ++ "  " ++ strftime_minutes 1700006400]%string |})
  /\ printed (snd (Spark.main_fetch_render
                     (Spark.render_owm_current capitalize strftime_minutes)
                     (fun _ _ _ => ret tt) (fun _ _ => EmptyString) true
                     None (Some 51.5%Q) (Some (-0.1)%Q) place units
                     sample_env start))
     = ["================================================";
        " Quick Weather — CLI with hourly sparkline";
        "================================================";
        "Location: " ++ place;
        "Time: " ++ strftime_minutes 1700006400;
        EmptyString;
        "🌧️ " ++ capitalize "light rain";
        "Error: type NoneType doesn't define __round__ method"]%string.
Proof. repeat split; vm_compute; reflexivity. Qed.

(** When the keys are absent from the "current" object, as a OneCall
    payload may have it, the defaults apply: temperature, feels-like and
    wind show as 0 and humidity as a dash, with the suffixes of the unit
    system. *)
Lemma render_absent_keys_defaults :
  printed (snd (Spark.render_owm_current capitalize strftime_minutes
                  onecall_without_numbers place "metric" sample_env start))
  = ["================================================";
     " Quick Weather — CLI with hourly sparkline";
     "================================================";
     "Location: " ++ place;
     "Time: " ++ strftime_minutes 1700006400;
     EmptyString;
     "🌧️ " ++ capitalize "light rain";
     "Temp: 0°C  Feels: 0°C";
     "Humidity: —%  Wind: 0 m/s"]%string
  /\ printed (snd (Spark.render_owm_current capitalize strftime_minutes
                     onecall_without_numbers place "imperial" sample_env start))
     = ["================================================";
        " Quick Weather — CLI with hourly sparkline";
        "================================================";
        "Location: " ++ place;
        "Time: " ++ strftime_minutes 1700006400;
        EmptyString;
        "🌧️ " ++ capitalize "light rain";
        "Temp: 0°F  Feels: 0°F";
        "Humidity: —%  Wind: 0 mph"]%string
  /\ fst (Rich.render_rich_owm_current capitalize strftime_minutes
             onecall_without_numbers place "metric" sample_env start)
     = Ok [("Condition", "🌧️ " ++ capitalize "light rain");
           ("Temp", "0°C (feels 0°C)");
           ("Humidity", "—%");
           ("Wind", "0 m/s")]%string.
Proof. repeat split; vm_compute; reflexivity. Qed.

End Rendering.

(** * Further properties *)

(** ** The quantizer: widths that are not positive *)

Lemma range_nonpos (W : Z) : W <= 0 -> range W = [].
Proof. intros H. unfold range. now replace (Z.to_nat W) with 0%nat by lia. Qed.

Lemma len_pos {X} (l : list X) : l <> [] -> 0 < len l.
Proof. destruct l; [congruence|]. intros _. unfold len. simpl. lia. Qed.

Lemma resample_negative_width (A : Arith) (values : list (num A)) (W : Z) step :
  values <> [] -> W < 0 -> num_true_div A (len values) W = Ok step ->
  resample A values W = Ok [].
Proof.
  intros Hne HW Hs. unfold resample. pose proof (len_pos values Hne).
  replace (W <? len values) with true by (symmetry; apply Z.ltb_lt; lia).
  rewrite Hs. cbn [rbind]. rewrite range_nonpos by lia. reflexivity.
Qed.

(** Under any arithmetic whose [/] on ints raises on a zero divisor and on
    no other. *)
Lemma sparkline_width_le_0 (A : Arith) (values : list (num A)) (W : Z) :
  (forall n, exists e, num_true_div A n 0 = Raise e
                       /\ exn_cls e = ZeroDivisionError) ->
  (forall n d, d <> 0 -> exists s, num_true_div A n d = Ok s) ->
  values <> [] -> W <= 0 ->
  exists e,
    Spark.sparkline A values W = Raise e
    /\ Rich.sparkline A values W = Raise e
    /\ exn_cls e = (if W =? 0 then ZeroDivisionError else ValueError).
Proof.
  intros Hz Hnz Hne HW. unfold Spark.sparkline, Rich.sparkline.
  destruct values as [|x values]; [congruence|].
  destruct (W =? 0) eqn:E.
  - apply Z.eqb_eq in E. subst W. unfold resample.
    pose proof (len_pos (x :: values) Hne).
    replace (0 <? len (x :: values)) with true by (symmetry; apply Z.ltb_lt; lia).
    destruct (Hz (len (x :: values))) as (e & -> & He). cbn [rbind]. eauto.
  - apply Z.eqb_neq in E.
    destruct (Hnz (len (x :: values)) W E) as (s & Hs).
    rewrite (resample_negative_width A (x :: values) W s Hne) by (lia || exact Hs).
    cbn [rbind py_min]. eexists. repeat split.
Qed.

(** X2.  A width that is not positive, with samples that are not empty:
    width 0 raises ZeroDivisionError (the stride divides by it); a negative
    width leaves no position to fill, so [min] is applied to an empty list
    and raises ValueError.  Both variants, exact and binary64 samples. *)
Theorem sparkline_nonpositive_width (A : Arith) (values : list (num A)) (W : Z) :
  A = exact \/ A = binary64 -> values <> [] -> W <= 0 ->
  exists e,
    Spark.sparkline A values W = Raise e
    /\ Rich.sparkline A values W = Raise e
    /\ exn_cls e = (if W =? 0 then ZeroDivisionError else ValueError).
Proof.
  intros HA. apply sparkline_width_le_0.
  - intros n. destruct HA as [-> | ->]; eexists; split; reflexivity.
  - intros n d Hd. apply Z.eqb_neq in Hd.
    destruct HA as [-> | ->]; cbn [num_true_div exact binary64];
      unfold Qtrue_div, float_true_div; rewrite Hd; eauto.
Qed.

Lemma sparkline_nonpositive_width_witness :
  exists e,
    Spark.sparkline binary64 [1; 2; 3]%float (-2) = Raise e
    /\ Rich.sparkline binary64 [1; 2; 3]%float (-2) = Raise e
    /\ exn_cls e = ValueError.
Proof.
  apply (sparkline_nonpositive_width binary64 [1; 2; 3]%float (-2));
    [right; reflexivity|discriminate|lia].
Defined.

(** ** The quantizer: padding *)

Lemma Qlt_bool_irrefl (x : Q) : Qlt_bool x x = false.
Proof. apply Qlt_bool_false. apply Qle_refl. Qed.

Lemma mapM_app {X Y} (f : X -> result Y) (l l' : list X) :
  mapM f (l ++ l')
  = rbind (mapM f l) (fun a => rbind (mapM f l') (fun b => Ok (a ++ b))).
Proof.
  induction l as [|x l IH]; cbn [mapM app rbind].
  - destruct (mapM f l'); reflexivity.
  - destruct (f x); cbn [rbind]; [|reflexivity]. rewrite IH.
    destruct (mapM f l); cbn [rbind]; [|reflexivity].
    destruct (mapM f l'); reflexivity.
Qed.

Lemma mapM_repeat {X Y} (f : X -> result Y) (x : X) (y : Y) (k : nat) :
  f x = Ok y -> mapM f (repeat x k) = Ok (repeat y k).
Proof.
  intros H. induction k as [|k IH]; [reflexivity|].
  cbn [repeat mapM]. rewrite H, IH. reflexivity.
Qed.

Lemma mapM_last {X Y} (f : X -> result Y) (l : list X) (out : list Y) dx dy :
  l <> [] -> mapM f l = Ok out -> f (List.last l dx) = Ok (List.last out dy).
Proof.
  revert out. induction l as [|x l IH]; intros out Hne H; [congruence|].
  cbn [mapM] in H. destruct (f x) as [y|e] eqn:Ex; cbn [rbind] in H; [|discriminate].
  destruct (mapM f l) as [ys|e] eqn:El; cbn [rbind] in H; [|discriminate].
  injection H as <-.
  destruct l as [|x' l'].
  - simpl in El. injection El as <-. exact Ex.
  - destruct ys as [|y' ys']; [apply mapM_length in El; discriminate|].
    change (List.last (x :: x' :: l') dx) with (List.last (x' :: l') dx).
    change (List.last (y :: y' :: ys') dy) with (List.last (y' :: ys') dy).
    apply IH; [discriminate|reflexivity].
Qed.

Lemma mapM_padded {X} (f : X -> result char) (l : list X) (d : X) (k : nat) :
  l <> [] ->
  mapM f (l ++ repeat (List.last l d) k)
  = rbind (mapM f l) (fun out => Ok (pad_glyphs k out)).
Proof.
  intros Hne. rewrite mapM_app.
  destruct (mapM f l) as [out|e] eqn:E; cbn [rbind]; [|reflexivity].
  rewrite (mapM_repeat f _ _ k (mapM_last f l out d lowest_glyph Hne E)).
  reflexivity.
Qed.

Section Padding.
Variable A : Arith.
Hypothesis lt_irrefl : forall x : num A, num_lt A x x = false.

(** After a fold over a list, its last item is not below the minimum kept
    (nor above the maximum), so folding more copies of it changes nothing. *)
Lemma fold_min_last (l : list (num A)) (m d : num A) :
  l <> [] ->
  num_lt A (List.last l d)
    (fold_left (fun m v => if num_lt A v m then v else m) l m) = false.
Proof.
  revert m. induction l as [|v l IH]; intros m Hne; [congruence|].
  destruct l as [|v' l'].
  - cbn [fold_left List.last].
    destruct (num_lt A v m) eqn:E; [apply lt_irrefl|exact E].
  - change (List.last (v :: v' :: l') d) with (List.last (v' :: l') d).
    cbn [fold_left] in *. apply IH. discriminate.
Qed.

Lemma fold_max_last (l : list (num A)) (m d : num A) :
  l <> [] ->
  num_lt A (fold_left (fun m v => if num_lt A m v then v else m) l m)
    (List.last l d) = false.
Proof.
  revert m. induction l as [|v l IH]; intros m Hne; [congruence|].
  destruct l as [|v' l'].
  - cbn [fold_left List.last].
    destruct (num_lt A m v) eqn:E; [apply lt_irrefl|exact E].
  - change (List.last (v :: v' :: l') d) with (List.last (v' :: l') d).
    cbn [fold_left] in *. apply IH. discriminate.
Qed.

Lemma fold_min_repeat (l : list (num A)) (x : num A) (k : nat) :
  fold_left (fun m v => if num_lt A v m then v else m)
    (l ++ repeat (List.last (x :: l) x) k) x
  = fold_left (fun m v => if num_lt A v m then v else m) l x.
Proof.
  rewrite fold_left_app.
  set (m := fold_left _ l x).
  assert (Hm : num_lt A (List.last (x :: l) x) m = false).
  { subst m. destruct l as [|v l]; [apply lt_irrefl|].
    change (List.last (x :: v :: l) x) with (List.last (v :: l) x).
    apply fold_min_last. discriminate. }
  induction k as [|k IH]; [reflexivity|]. cbn [repeat fold_left]. now rewrite Hm.
Qed.

Lemma fold_max_repeat (l : list (num A)) (x : num A) (k : nat) :
  fold_left (fun m v => if num_lt A m v then v else m)
    (l ++ repeat (List.last (x :: l) x) k) x
  = fold_left (fun m v => if num_lt A m v then v else m) l x.
Proof.
  rewrite fold_left_app.
  set (m := fold_left _ l x).
  assert (Hm : num_lt A m (List.last (x :: l) x) = false).
  { subst m. destruct l as [|v l]; [apply lt_irrefl|].
    change (List.last (x :: v :: l) x) with (List.last (v :: l) x).
    apply fold_max_last. discriminate. }
  induction k as [|k IH]; [reflexivity|]. cbn [repeat fold_left]. now rewrite Hm.
Qed.

Lemma sparkline_padding (values : list (num A)) (W : Z) :
  values <> [] -> len values <= W ->
  let k := Z.to_nat (W - len values) in
  Spark.sparkline A values W
  = rbind (Spark.sparkline A values (len values)) (fun out => Ok (pad_glyphs k out))
  /\ Rich.sparkline A values W
     = rbind (Rich.sparkline A values (len values)) (fun out => Ok (pad_glyphs k out)).
Proof.
  intros Hne HW k. unfold Spark.sparkline, Rich.sparkline.
  destruct values as [|x values]; [congruence|].
  rewrite (resample_pad A (x :: values) W x Hne HW).
  rewrite (resample_pad A (x :: values) (len (x :: values)) x Hne (Z.le_refl _)).
  rewrite Z.sub_diag. cbn [Z.to_nat repeat]. rewrite app_nil_r.
  fold k. cbn [rbind]. cbn [app py_min py_max].
  rewrite (fold_min_repeat values x k).
  rewrite (fold_max_repeat values x k).
  cbn [rbind].
  change (x :: values ++ repeat (List.last (x :: values) x) k)
    with ((x :: values) ++ repeat (List.last (x :: values) x) k).
  destruct (num_eq A _ _); split; apply mapM_padded; exact Hne.
Qed.

End Padding.

(** X3.  Padding keeps the scale: when the samples are not more than the
    width, the output is the sparkline the samples give at their own
    length, followed by copies of its last glyph (an exception is the same
    one).  Both variants, exact and binary64 samples. *)
Theorem sparkline_pads_with_last_glyph (A : Arith) (values : list (num A))
  (W : Z) :
  A = exact \/ A = binary64 -> values <> [] -> len values <= W ->
  Spark.sparkline A values W
  = rbind (Spark.sparkline A values (len values))
          (fun out => Ok (pad_glyphs (Z.to_nat (W - len values)) out))
  /\ Rich.sparkline A values W
     = rbind (Rich.sparkline A values (len values))
             (fun out => Ok (pad_glyphs (Z.to_nat (W - len values)) out)).
Proof.
  intros [-> | ->] Hne HW.
  - exact (sparkline_padding exact Qlt_bool_irrefl values W Hne HW).
  - exact (sparkline_padding binary64 float_ltb_irrefl values W Hne HW).
Qed.

Lemma sparkline_pads_with_last_glyph_witness :
  Spark.sparkline binary64 [10; 20; 30]%float 6
  = rbind (Spark.sparkline binary64 [10; 20; 30]%float 3)
          (fun out => Ok (pad_glyphs 3 out))
  /\ Rich.sparkline binary64 [10; 20; 30]%float 6
     = rbind (Rich.sparkline binary64 [10; 20; 30]%float 3)
             (fun out => Ok (pad_glyphs 3 out)).
Proof.
  apply (sparkline_pads_with_last_glyph binary64 [10; 20; 30]%float 6);
    [right; reflexivity|discriminate|discriminate].
Defined.

(** ** The quantizer: order *)

Lemma SPARK_nth (k : Z) :
  0 <= k <= 7 -> nth (Z.to_nat k) SPARK 0%N = (0x2581 + Z.to_N k)%N.
Proof.
  intros Hk.
  assert (C : k = 0 \/ k = 1 \/ k = 2 \/ k = 3 \/ k = 4 \/ k = 5 \/ k = 6 \/ k = 7)
    by lia.
  repeat (destruct C as [->|C]; [reflexivity|]). subst. reflexivity.
Qed.

(** The palette position of a sample between distinct bounds. *)
Lemma level_exact_value (lo hi v : Q) :
  (lo <= v)%Q -> (v <= hi)%Q -> Qeq_bool hi lo = false ->
  level exact lo hi v = Ok (Qfloor ((v - lo) / (hi - lo) * 7))
  /\ 0 <= Qfloor ((v - lo) / (hi - lo) * 7) <= 7.
Proof.
  intros Hlo Hhi Hne.
  destruct (level_exact_range lo hi v Hlo Hhi Hne) as (k & Hk & Hr).
  assert (Hd : (0 < hi - lo)%Q)
    by (apply Qlt_of_le_neq; [eapply Qle_trans; eauto|exact Hne]).
  assert (E : level exact lo hi v = Ok (Qfloor ((v - lo) / (hi - lo) * 7))).
  { unfold level. cbn [num_div num_sub num_mul num_of_int num_to_int exact].
    rewrite Qdiv_checked_pos by exact Hd. cbn [rbind].
    change (inject_Z (len SPARK - 1)) with 7%Q.
    rewrite Qtrunc_nonneg; [reflexivity|].
    apply Qmult_le_0_compat; [|discriminate].
    apply Qle_shift_div_l; [exact Hd|]. rewrite Qmult_0_l.
    unfold Qminus. now apply Qle_minus_iff in Hlo. }
  split; [exact E|]. rewrite E in Hk. injection Hk as <-. exact Hr.
Qed.

Lemma level_exact_mono (lo hi u v : Q) :
  (lo < hi)%Q -> (u <= v)%Q ->
  Qfloor ((u - lo) / (hi - lo) * 7) <= Qfloor ((v - lo) / (hi - lo) * 7).
Proof.
  intros Hd Huv. apply Qfloor_resp_le.
  apply Qmult_le_compat_r; [|discriminate].
  assert (Hp : (0 < hi - lo)%Q) by (unfold Qminus; now apply Qlt_minus_iff in Hd).
  apply Qle_shift_div_l; [exact Hp|].
  assert (E : ((u - lo) / (hi - lo) * (hi - lo) == u - lo)%Q).
  { field. intros C. rewrite C in Hp. discriminate. }
  rewrite E. unfold Qminus. now apply Qplus_le_l.
Qed.

(** On exact samples the output is the working set mapped, sample by
    sample, by a function that keeps the order. *)
Lemma sparkline_exact_as_map (values : list Q) (W : Z) :
  values <> [] -> 0 < W ->
  exists (vals : list Q) (g : Q -> char),
    resample exact values W = Ok vals
    /\ Rich.sparkline exact values W = Ok (map g vals)
    /\ (forall u v, In u vals -> In v vals -> (u <= v)%Q -> (g u <= g v)%N)
    /\ (forall u, In u vals -> (forall v, In v vals -> (u <= v)%Q) ->
          g u = 0x2581%N)
    /\ (forall u, In u vals -> (forall v, In v vals -> (v <= u)%Q) ->
          (exists v, In v vals /\ ~ (v == u)%Q) -> g u = 0x2588%N).
Proof.
  intros Hne HW.
  destruct (resample_exact values W Hne HW) as (vals & Hvals & Hlen & _).
  exists vals. unfold Rich.sparkline.
  destruct values as [|x0 values]; [congruence|]. rewrite Hvals. cbn [rbind].
  change (num exact) with Q in *.
  assert (Hv : vals <> []) by (destruct vals; [simpl in Hlen; lia|discriminate]).
  destruct (py_min_nonempty Qlt_bool vals Hv) as (lo & Emin).
  destruct (py_max_nonempty Qlt_bool vals Hv) as (hi & Emax).
  cbn [num_lt num_eq exact]. rewrite Emin, Emax. cbn [rbind].
  pose proof (py_min_le vals lo Emin) as Hlo.
  pose proof (py_max_ge vals hi Emax) as Hhi.
  pose proof (py_min_In _ _ _ Emin) as Ilo.
  pose proof (py_max_In _ _ _ Emax) as Ihi.
  destruct (Qeq_bool hi lo) eqn:Eeq.
  - (* all samples equal *)
    apply Qeq_bool_iff in Eeq. exists (fun _ => lowest_glyph).
    rewrite flat_glyphs, map_const_repeat.
    split; [reflexivity|]. split; [reflexivity|]. split; [|split].
    + intros. reflexivity.
    + intros. reflexivity.
    + intros u Hu Hmax (v & Hv' & Hneq). exfalso. apply Hneq.
      apply Qle_antisym; [auto|].
      eapply Qle_trans; [apply (Hhi u Hu)|]. rewrite Eeq. auto.
  - set (pos := fun v : Q => Qfloor ((v - lo) / (hi - lo) * 7)).
    set (g := fun v : Q => nth (Z.to_nat (pos v)) SPARK 0%N).
    assert (Hlt : (lo < hi)%Q).
    { apply Qeq_bool_neq in Eeq. destruct (Qle_lt_or_eq _ _ (Hlo hi Ihi)) as [H|H];
        [exact H|]. exfalso. apply Eeq. now symmetry. }
    assert (Hpos : forall v, In v vals -> 0 <= pos v <= 7).
    { intros v Hin. apply (level_exact_value lo hi v (Hlo v Hin) (Hhi v Hin) Eeq). }
    assert (Hg : forall v, In v vals ->
              rbind (level exact lo hi v) (fun idx => str_getitem SPARK idx) = Ok (g v)).
    { intros v Hin.
      destruct (level_exact_value lo hi v (Hlo v Hin) (Hhi v Hin) Eeq) as [-> Hr].
      cbn [rbind]. apply str_getitem_nth. change (len SPARK) with 8. unfold pos. lia. }
    assert (Hgv : forall v, In v vals -> g v = (0x2581 + Z.to_N (pos v))%N).
    { intros v Hin. unfold g. apply SPARK_nth. auto. }
    exists g. rewrite (mapM_total _ g) by exact Hg.
    split; [reflexivity|]. split; [reflexivity|]. split; [|split].
    + intros u v Iu Iv Huv. rewrite (Hgv u Iu), (Hgv v Iv).
      pose proof (level_exact_mono lo hi u v Hlt Huv) as Hm. fold (pos u) (pos v) in Hm.
      pose proof (Hpos u Iu). pose proof (Hpos v Iv). lia.
    + intros u Iu Hmin. rewrite (Hgv u Iu).
      assert (E : (u == lo)%Q) by (apply Qle_antisym; auto).
      assert (P : pos u = 0).
      { unfold pos. rewrite (Qfloor_comp _ 0%Q); [reflexivity|].
        rewrite E. unfold Qminus. rewrite Qplus_opp_r. reflexivity. }
      rewrite P. reflexivity.
    + intros u Iu Hmax _. rewrite (Hgv u Iu).
      assert (E : (u == hi)%Q) by (apply Qle_antisym; auto).
      assert (P : pos u = 7).
      { unfold pos. rewrite (Qfloor_comp _ 7%Q); [reflexivity|].
        rewrite E. field. intros C.
        assert (Hp : (0 < hi - lo)%Q) by (unfold Qminus; now apply Qlt_minus_iff in Hlt).
        rewrite C in Hp. discriminate. }
      rewrite P. reflexivity.
Qed.

(** X4.  Order is kept, on exact samples: of two positions the one with
    the smaller sample has the lower (or the same) glyph; the least sample
    is drawn with the lowest glyph and, unless all samples are equal, the
    greatest with the full block. *)
Theorem sparkline_keeps_order (values : list Q) (W : Z) :
  values <> [] -> 0 < W ->
  exists vals out,
    resample exact values W = Ok vals
    /\ Spark.sparkline exact values W = Ok out
    /\ Rich.sparkline exact values W = Ok out
    /\ (forall i j u v a b,
          nth_error vals i = Some u -> nth_error out i = Some a ->
          nth_error vals j = Some v -> nth_error out j = Some b ->
          (u <= v)%Q -> (a <= b)%N)
    /\ (forall i u a,
          nth_error vals i = Some u -> nth_error out i = Some a ->
          ((forall v, In v vals -> (u <= v)%Q) -> a = 0x2581%N)
          /\ ((forall v, In v vals -> (v <= u)%Q) ->
              (exists v, In v vals /\ ~ (v == u)%Q) -> a = 0x2588%N)).
Proof.
  intros Hne HW. rewrite sparkline_exact_agree.
  destruct (sparkline_exact_as_map values W Hne HW)
    as (vals & g & Hvals & Hout & Hmono & Hlow & Hhigh).
  exists vals, (map g vals).
  assert (Hnth : forall i u a, nth_error vals i = Some u ->
            nth_error (map g vals) i = Some a -> a = g u /\ In u vals).
  { intros i u a Hu Ha. rewrite nth_error_map, Hu in Ha. injection Ha as <-.
    split; [reflexivity|]. eapply nth_error_In; eauto. }
  split; [exact Hvals|]. split; [exact Hout|]. split; [exact Hout|]. split.
  - intros i j u v a b Hu Ha Hv Hb Huv.
    destruct (Hnth i u a Hu Ha) as [-> Iu]. destruct (Hnth j v b Hv Hb) as [-> Iv].
    apply Hmono; assumption.
  - intros i u a Hu Ha. destruct (Hnth i u a Hu Ha) as [-> Iu]. split.
    + intros Hmin. apply Hlow; assumption.
    + intros Hmax Hex. apply Hhigh; assumption.
Qed.

Lemma sparkline_keeps_order_witness :
  exists vals out,
    resample exact [3; 1; 2; 5; 4]%Q 36 = Ok vals
    /\ Spark.sparkline exact [3; 1; 2; 5; 4]%Q 36 = Ok out
    /\ Rich.sparkline exact [3; 1; 2; 5; 4]%Q 36 = Ok out.
Proof.
  destruct (sparkline_keeps_order [3; 1; 2; 5; 4]%Q 36)
    as (vals & out & H1 & H2 & H3 & _); [discriminate|reflexivity|].
  exists vals, out. auto.
Defined.

(** ** The quantizer: strides *)

Lemma resample_strides (A : Arith) (values : list (num A)) (W : Z)
  (idxs : list Z) (d : num A) :
  W < len values -> strides A (len values) W = Ok idxs ->
  Forall (fun k => 0 <= k < len values) idxs ->
  resample A values W = Ok (map (fun k => nth (Z.to_nat k) values d) idxs).
Proof.
  intros HW Hs Hall. unfold resample, strides in *.
  replace (W <? len values) with true by (symmetry; apply Z.ltb_lt; exact HW).
  destruct (num_true_div A (len values) W) as [step|e]; cbn [rbind] in *; [|discriminate].
  revert idxs Hs Hall. induction (range W) as [|i l IH]; intros idxs Hs Hall.
  - injection Hs as <-. reflexivity.
  - cbn [mapM] in *.
    destruct (num_to_int A _) as [k|e]; cbn [rbind] in *; [|discriminate].
    destruct (mapM _ l) as [ks|e] eqn:El; cbn [rbind] in *; [|discriminate].
    injection Hs as <-. inversion Hall as [|? ? Hk Hks]; subst.
    rewrite (py_getitem_nth values k d Hk). cbn [rbind].
    rewrite (IH ks Logic.eq_refl Hks). reflexivity.
Qed.

Lemma Forall2_In_r {X Y} (R : X -> Y -> Prop) (l : list X) (l' : list Y) (y : Y) :
  Forall2 R l l' -> In y l' -> exists x, In x l /\ R x y.
Proof.
  induction 1 as [|x y' l l' HR HF IH]; intros Hy; [destruct Hy|].
  destruct Hy as [->|Hy]; [exists x; split; [now left|exact HR]|].
  destruct (IH Hy) as (x' & Hx' & HR'). exists x'. split; [now right|exact HR'].
Qed.

(** X19.  With more samples than the width, up to 2^49 of them, the
    downsampling step on floats returns: every position takes a sample of
    the input, at an index from 0 to the last, and position 0 takes the
    first sample. *)
Theorem downsample_binary64_in_range (samples : list float) (W : Z) (d : float) :
  0 < W < len samples -> len samples <= 2 ^ 49 ->
  exists idxs,
    strides binary64 (len samples) W = Ok idxs
    /\ resample binary64 samples W
       = Ok (map (fun k => nth (Z.to_nat k) samples d) idxs)
    /\ len idxs = W
    /\ nth_error idxs 0 = Some 0
    /\ Forall (fun k => 0 <= k < len samples) idxs.
Proof.
  intros HW Hn.
  destruct (strides_binary64_returns (len samples) W HW Hn) as (idxs & Es & F2).
  assert (Hall : Forall (fun k => 0 <= k < len samples) idxs).
  { apply Forall_forall. intros k Hk.
    destruct (Forall2_In_r _ _ _ k F2 Hk) as (i & _ & Hr & _). exact Hr. }
  assert (Hlen : List.length idxs = Z.to_nat W).
  { rewrite <- (Forall2_length F2). apply range_length. }
  exists idxs. split; [exact Es|]. split; [|split; [unfold len; lia|split]].
  - exact (resample_strides binary64 samples W idxs d (proj2 HW) Es Hall).
  - destruct idxs as [|k idxs']; [simpl in Hlen; lia|].
    unfold range in F2.
    destruct (Z.to_nat W) as [|w] eqn:Ew; [lia|].
    cbn [seq map] in F2. inversion F2 as [|? ? ? ? [_ H0] _]; subst.
    cbn [nth_error]. f_equal. apply H0. reflexivity.
  - exact Hall.
Qed.

(** A hundred samples at the width 36 of the renderers. *)
Lemma downsample_binary64_in_range_witness :
  exists idxs,
    strides binary64 100 36 = Ok idxs
    /\ len idxs = 36
    /\ nth_error idxs 0 = Some 0
    /\ Forall (fun k => 0 <= k < 100) idxs.
Proof.
  destruct (downsample_binary64_in_range (repeat 0%float 100) 36 0%float)
    as (idxs & Hs & _ & Hlen & H0 & Hall); [split; reflexivity|discriminate|].
  exists idxs. split; [exact Hs|]. split; [exact Hlen|]. split; [exact H0|].
  exact Hall.
Defined.

Lemma stride_grid :
  forallb (fun n => forallb (stride_check n) (zrange 1 (n - 1))) (zrange 2 64) = true.
Proof. vm_compute. reflexivity. Qed.

Lemma firstn_seq (n start k : nat) :
  firstn n (seq start k) = seq start (Nat.min n k).
Proof.
  revert start k. induction n as [|n IH]; intros start [|k]; cbn; try reflexivity.
  now rewrite IH.
Qed.

Lemma table_from_zero (W : Z) :
  0 <= W <= 129 ->
  firstn (Z.to_nat W) (skipn 128 sample_floats)
  = map (fun i => (i, float_of_Z i)) (range W).
Proof.
  intros HW. rewrite sample_floats_eq. unfold float_table, zrange, range.
  rewrite !skipn_map, !firstn_map, skipn_seq, firstn_seq, !map_map.
  replace (Nat.min (Z.to_nat W) (Z.to_nat (128 - -128 + 1) - 128)) with (Z.to_nat W) by lia.
  assert (G : forall k b, map (fun x => (-128 + Z.of_nat x, float_of_Z (-128 + Z.of_nat x)))
                            (seq (b + 128) k)
                        = map (fun x => (Z.of_nat x, float_of_Z (Z.of_nat x))) (seq b k)).
  { induction k as [|k IH]; intros b; [reflexivity|]. cbn [seq map].
    rewrite <- (IH (S b)). cbn [Nat.add].
    replace (-128 + Z.of_nat (b + 128)) with (Z.of_nat b) by lia. reflexivity. }
  rewrite <- G. reflexivity.
Qed.

Lemma table_strides_eq (n W : Z) :
  0 < W < n -> n <= 128 -> table_strides n W = strides binary64 n W.
Proof.
  intros HW Hn. unfold table_strides, strides.
  cbn [num_true_div binary64]. unfold float_true_div.
  replace (W =? 0) with false by (symmetry; apply Z.eqb_neq; lia). cbn [rbind].
  rewrite table_from_zero by lia. rewrite mapM_map.
  rewrite sample_floats_eq. rewrite !float_at_spec by lia. reflexivity.
Qed.

Lemma strides_near_spec (n W : Z) (ks : list Z) (i prev : Z) :
  strides_near n W i prev ks = true ->
  Forall (fun k => prev < k < n - 1) ks
  /\ StronglySorted Z.lt ks
  /\ Forall2 (fun j k => k = j * n / W \/ k = j * n / W - 1)
             (map (fun j => i + Z.of_nat j) (seq 0 (List.length ks))) ks.
Proof.
  revert i prev. induction ks as [|k ks IH]; intros i prev H; cbn [strides_near] in H.
  - repeat split; constructor.
  - rewrite !andb_true_iff in H. destruct H as [[[H1 H2] H3] H4].
    apply Z.ltb_lt in H1, H2. destruct (IH _ _ H4) as (A1 & A2 & A3).
    assert (B : Forall (fun k' => k < k') ks).
    { eapply Forall_impl; [|exact A1]. cbn. intros; lia. }
    split; [|split].
    + constructor; [lia|]. eapply Forall_impl; [|exact A1]. cbn. intros; lia.
    + constructor; assumption.
    + cbn [List.length seq map]. constructor.
      * rewrite Z.add_0_r. apply orb_true_iff in H3.
        destruct H3 as [H3|H3]; apply Z.eqb_eq in H3; auto.
      * rewrite <- seq_shift, map_map.
        erewrite map_ext; [exact A3|]. intros j. cbn. lia.
Qed.

(** X6.  On floats, for up to 64 samples and fewer positions: the samples
    taken are again at indices that start at 0, rise strictly and stop
    short of the last sample; each index is the exact quotient or, through
    rounding, the one before. *)
Theorem downsample_binary64_indices (samples : list float) (W : Z) (d : float) :
  0 < W < len samples -> len samples <= 64 ->
  exists idxs,
    resample binary64 samples W
    = Ok (map (fun k => nth (Z.to_nat k) samples d) idxs)
    /\ strides binary64 (len samples) W = Ok idxs
    /\ len idxs = W
    /\ nth_error idxs 0 = Some 0
    /\ StronglySorted Z.lt idxs
    /\ Forall (fun k => 0 <= k < len samples - 1) idxs
    /\ Forall2 (fun i k => k = i * len samples / W \/ k = i * len samples / W - 1)
               (range W) idxs.
Proof.
  intros HW Hn. set (n := len samples) in *.
  pose proof stride_grid as G. rewrite forallb_forall in G.
  assert (In2 : In n (zrange 2 64)) by (apply zrange_In; lia).
  specialize (G n In2). rewrite forallb_forall in G.
  assert (In1 : In W (zrange 1 (n - 1))) by (apply zrange_In; lia).
  specialize (G W In1). unfold stride_check in G.
  rewrite table_strides_eq in G by lia.
  destruct (strides binary64 n W) as [idxs|e] eqn:Es; [|discriminate].
  destruct (strides_near_spec n W idxs 0 (-1) G) as (A1 & A2 & A3).
  assert (Hlen : List.length idxs = Z.to_nat W).
  { unfold strides in Es. destruct (num_true_div binary64 n W); cbn [rbind] in Es;
      [|discriminate].
    apply mapM_length in Es. now rewrite Es, range_length. }
  assert (Hall : Forall (fun k => 0 <= k < n - 1) idxs).
  { eapply Forall_impl; [|exact A1]. cbn. intros; lia. }
  exists idxs.
  split; [|split; [reflexivity|split; [unfold len; lia|split;
    [|split; [exact A2|split; [exact Hall|]]]]]].
  - subst n. apply (resample_strides binary64 samples W idxs d);
      [exact (proj2 HW)|exact Es|].
    change (num binary64) with float.
    eapply Forall_impl; [|exact Hall]. cbn. intros; lia.
  - destruct idxs as [|k idxs']; [simpl in Hlen; lia|].
    inversion A3 as [|? ? ? ? Hk _]; subst. inversion A1 as [|? ? Hk' _]; subst.
    cbn [nth_error]. f_equal.
    change (0 + Z.of_nat 0) with 0 in Hk. rewrite Z.mul_0_l, Z.div_0_l in Hk by lia.
    lia.
  - rewrite Hlen in A3. unfold range.
    erewrite map_ext; [exact A3|]. intros j. cbn. reflexivity.
Qed.

(** Thirty samples at width 22: position 11 takes sample 14, where the
    exact quotient is 15. *)
Lemma downsample_binary64_indices_witness :
  exists idxs,
    strides binary64 30 22 = Ok idxs
    /\ nth_error idxs 11 = Some 14
    /\ 11 * 30 / 22 = 15
    /\ StronglySorted Z.lt idxs.
Proof.
  destruct (downsample_binary64_indices (repeat 0%float 30) 22 0%float)
    as (idxs & _ & Hs & _ & _ & Hsorted & _); [split; reflexivity|discriminate|].
  exists idxs. split; [exact Hs|]. split; [|split; [reflexivity|exact Hsorted]].
  change (len (repeat 0%float 30)) with 30 in Hs.
  assert (E : strides binary64 30 22
              = Ok [0; 1; 2; 4; 5; 6; 8; 9; 10; 12; 13; 14; 16; 17; 19; 20; 21;
                    23; 24; 25; 27; 28])
    by (vm_compute; reflexivity).
  rewrite E in Hs. injection Hs as <-. reflexivity.
Defined.

(** X20.  On floats, samples that are all equal (and not NaN), up to 2^49
    of them, give [W] times the lowest glyph at every positive width [W],
    also when there are more samples than the width and the stride picks
    among them. *)
Theorem sparkline_flat_binary64 (samples : list float) (y : float) (W : Z) :
  samples <> [] -> (forall v, In v samples -> v = y) ->
  PrimFloat.eqb y y = true -> 0 < W -> len samples <= 2 ^ 49 ->
  Spark.sparkline binary64 samples W = Ok (repeat lowest_glyph (Z.to_nat W))
  /\ Rich.sparkline binary64 samples W = Ok (repeat lowest_glyph (Z.to_nat W)).
Proof.
  intros Hne Hflat Heq HW Hn.
  destruct (resample_binary64_returns samples W Hne HW Hn) as [vals Hr].
  destruct (resample_shape binary64 samples W vals HW Hr) as [Hlen Hin].
  rewrite <- Hlen.
  apply (quantize_flat binary64 samples vals y); auto.
  destruct vals; [simpl in Hlen; lia|discriminate].
Qed.

(** A hundred samples of 5.0 at the width 36 of the renderers. *)
Lemma sparkline_flat_binary64_witness :
  Spark.sparkline binary64 (repeat 5%float 100) 36 = Ok (repeat lowest_glyph 36)
  /\ Rich.sparkline binary64 (repeat 5%float 100) 36
     = Ok (repeat lowest_glyph 36).
Proof.
  apply (sparkline_flat_binary64 (repeat 5%float 100) 5%float 36).
  - discriminate.
  - intros v Hv. exact (repeat_spec _ _ _ Hv).
  - reflexivity.
  - reflexivity.
  - discriminate.
Defined.

(** ** The normalizer: entries the daily loop rejects *)

Lemma ill_formed_step (it : fitem) (rest : list fitem) (m : daily_map_t) :
  well_formed it = false ->
  daily_map_loop (it :: rest) m = Raise (rejection it).
Proof.
  unfold well_formed, item_day, item_weather, rejection. cbn [daily_map_loop].
  destruct (f_dt it) as [| |dt]; cbn [rbind]; try reflexivity.
  destruct (utc_date dt) as [day|e]; cbn [rbind opt_of]; [|reflexivity].
  destruct (f_weather it) as [[|w ws]|]; try discriminate. reflexivity.
Qed.

Lemma daily_map_loop_rejects (good rest : list fitem) (bad : fitem) (m : daily_map_t) :
  forallb well_formed good = true -> well_formed bad = false ->
  daily_map_loop (good ++ bad :: rest) m = Raise (rejection bad).
Proof.
  revert m. induction good as [|it good IH]; intros m Hg Hb.
  - apply ill_formed_step. exact Hb.
  - cbn [forallb] in Hg. apply andb_true_iff in Hg. destruct Hg as [Hit Hg].
    destruct (well_formed_step it Hit) as (day & _ & Hdt & Hutc & Hw).
    cbn [app daily_map_loop]. rewrite Hdt. cbn [rbind]. rewrite Hutc. cbn [rbind].
    rewrite Hw. cbn [rbind]. apply IH; assumption.
Qed.

Lemma first_ill_formed (items : list fitem) :
  forallb well_formed items = false ->
  exists good bad rest,
    items = good ++ bad :: rest
    /\ forallb well_formed good = true /\ well_formed bad = false.
Proof.
  induction items as [|it items IH]; cbn [forallb]; [discriminate|].
  destruct (well_formed it) eqn:E; cbn [andb].
  - intros H. destruct (IH H) as (good & bad & rest & -> & Hg & Hb).
    exists (it :: good), bad, rest. cbn [forallb]. rewrite E, Hg. auto.
  - intros _. exists [], it, items. auto.
Qed.

Lemma build_daily_rejects (now : Z) (fr : forecast_payload)
  (good rest : list fitem) (bad : fitem) :
  forecast_items fr = good ++ bad :: rest ->
  forallb well_formed good = true -> well_formed bad = false ->
  build_daily now fr = Raise (rejection bad).
Proof.
  intros E Hg Hb. unfold build_daily.
  rewrite E, (daily_map_loop_rejects good rest bad [] Hg Hb). reflexivity.
Qed.

Lemma build_daily_returns (now : Z) (fr : forecast_payload) :
  (exists ds, build_daily now fr = Ok ds)
  <-> forallb well_formed (forecast_items fr) = true.
Proof.
  split.
  - intros (ds & Hds).
    destruct (forallb well_formed (forecast_items fr)) eqn:E; [reflexivity|].
    destruct (first_ill_formed _ E) as (good & bad & rest & E' & Hg & Hb).
    rewrite (build_daily_rejects now fr good rest bad E' Hg Hb) in Hds. discriminate.
  - intros H. destruct (build_daily_spec now fr H) as (days & ds & Hds & _). eauto.
Qed.

Lemma timestamp_error_class (dt : Z) :
  In (exn_cls (timestamp_error dt)) [ValueError; OSError; OverflowError].
Proof.
  unfold timestamp_error.
  destruct ((dt <? - 2 ^ 63) || (2 ^ 63 <=? dt)); [cbn; auto|].
  destruct ((dt <? -67768040609740800) || (67768036191676799 <? dt)); cbn; auto.
Qed.

(** X7.  The daily summary exists exactly when every forecast entry has a
    timestamp that [utcfromtimestamp] accepts and a "weather" array that is
    absent or not empty.  Otherwise the first entry that has not makes the
    whole normalizer raise, the hourly list it built before being lost:
    TypeError for a timestamp that is missing or null, ValueError, OSError
    or OverflowError for one that [utcfromtimestamp] does not accept, and
    IndexError for an empty array. *)
Theorem daily_needs_well_formed_entries (now : Z) (fr : forecast_payload) :
  ((exists ds, build_daily now fr = Ok ds)
   <-> forallb well_formed (forecast_items fr) = true)
  /\ forall good bad rest,
       forecast_items fr = good ++ bad :: rest ->
       forallb well_formed good = true -> well_formed bad = false ->
       exists e,
         build_daily now fr = Raise e
         /\ (forall cur, normalize now cur fr = Raise e)
         /\ (get (f_dt bad) = None -> exn_cls e = TypeError)
         /\ (forall dt, f_dt bad = Val dt -> returns (utc_date dt) = false ->
               In (exn_cls e) [ValueError; OSError; OverflowError])
         /\ (forall dt day, f_dt bad = Val dt -> utc_date dt = Ok day ->
               f_weather bad = Some [] /\ exn_cls e = IndexError).
Proof.
  split; [apply build_daily_returns|].
  intros good bad rest E Hg Hb.
  pose proof (build_daily_rejects now fr good rest bad E Hg Hb) as R.
  exists (rejection bad).
  split; [exact R|]. split; [|split; [|split]].
  - intros cur. unfold normalize. rewrite R. reflexivity.
  - unfold rejection. destruct (f_dt bad); [reflexivity|reflexivity|discriminate].
  - intros dt Hdt Hr. unfold rejection. rewrite Hdt.
    unfold utc_date in *.
    destruct ((-62135596800 <=? dt) && (dt <=? 253402300799)); [discriminate|].
    apply timestamp_error_class.
  - intros dt day Hdt Hday. unfold rejection. rewrite Hdt, Hday.
    split; [|reflexivity].
    unfold well_formed, item_day, item_weather in Hb. rewrite Hdt, Hday in Hb.
    cbn [opt_of] in Hb. destruct (f_weather bad) as [[|w ws]|]; try discriminate.
    reflexivity.
Qed.

(** A forecast whose second entry has an empty "weather" array. *)
Lemma daily_needs_well_formed_entries_witness :
  let fr := {| fr_list := Some [sample_item 1700006400 1 0 2;
                                item_without_weather;
                                sample_item 1700028000 3 2 4] |} in
  exists e,
    build_daily 0 fr = Raise e
    /\ normalize 0 sample_weather fr = Raise e
    /\ exn_cls e = IndexError.
Proof.
  cbv zeta.
  destruct (daily_needs_well_formed_entries 0
              {| fr_list := Some [sample_item 1700006400 1 0 2;
                                  item_without_weather;
                                  sample_item 1700028000 3 2 4] |}) as [_ H].
  destruct (H [sample_item 1700006400 1 0 2] item_without_weather
              [sample_item 1700028000 3 2 4])
    as (e & H1 & H2 & _ & _ & H5); [reflexivity|reflexivity|reflexivity|].
  exists e. split; [exact H1|]. split; [exact (H2 sample_weather)|].
  exact (proj2 (H5 1700017200 _ Logic.eq_refl Logic.eq_refl)).
Defined.

(** ** The adapter: requests and reports *)

(** [fetch_weather_and_forecast], case by case on what the two endpoints
    do. *)
Lemma fallback_cases (lat lon : option Q) (units : string)
  (env : environment) (w : world) :
  let w1 := send w (GetWeather lat lon units) in
  let w2 := send w1 (GetForecast lat lon units) in
  fetch_weather_and_forecast lat lon units env w
  = match weather_api env (sent w) lat lon units with
    | Failed msg => (Raise (Exn RequestException msg), w1)
    | Responded rc =>
        if http_ok rc then
          match forecast_api env (sent w1) lat lon units with
          | Failed msg => (Raise (Exn RequestException msg), w2)
          | Responded rf =>
              if http_ok rf
              then (normalize (time_now env) (json rc) (json rf), w2)
              else (Raise (Exn HTTPError (error_text rf)), w2)
          end
        else (Raise (Exn HTTPError (error_text rc)), w1)
    end.
Proof.
  cbv zeta.
  unfold fetch_weather_and_forecast, bind, http_get, raise_for_status, lift,
    raise, ret, http_ok, send.
  destruct (weather_api env (sent w) lat lon units) as [rc|msg];
    cbn [sent printed]; [|reflexivity].
  destruct ((400 <=? status_code rc) && (status_code rc <? 600));
    cbn [negb sent printed]; [reflexivity|].
  destruct (forecast_api env (sent w ++ [GetWeather lat lon units]) lat lon units)
    as [rf|msg]; cbn [sent printed]; [|reflexivity].
  destruct ((400 <=? status_code rf) && (status_code rf <? 600)); reflexivity.
Qed.

Lemma fallback_world (lat lon : option Q) (units : string)
  (env : environment) (w : world) :
  let w1 := send w (GetWeather lat lon units) in
  snd (fetch_weather_and_forecast lat lon units env w)
  = if passes (weather_api env (sent w) lat lon units)
    then send w1 (GetForecast lat lon units) else w1.
Proof.
  cbv zeta. rewrite fallback_cases. cbv zeta. unfold passes.
  destruct (weather_api env (sent w) lat lon units) as [rc|msg]; [|reflexivity].
  destruct (http_ok rc); [|reflexivity].
  destruct (forecast_api env _ lat lon units) as [rf|msg]; [|reflexivity].
  destruct (http_ok rf); reflexivity.
Qed.

(** X8.  The fallback asks /weather, then /forecast, and the latter only
    when the former answered with a passing status; it returns a snapshot
    only after both requests, the one the normalizer makes of the two
    payloads, and it prints nothing. *)
Theorem fallback_asks_weather_then_forecast (lat lon : option Q) (units : string)
  (env : environment) (w : world) :
  let out := fetch_weather_and_forecast lat lon units env w in
  let w1 := send w (GetWeather lat lon units) in
  let w2 := send w1 (GetForecast lat lon units) in
  printed (snd out) = printed w
  /\ snd out = (if passes (weather_api env (sent w) lat lon units)
                then w2 else w1)
  /\ (forall data, fst out = Ok data ->
        snd out = w2
        /\ exists rc rf,
             weather_api env (sent w) lat lon units = Responded rc
             /\ forecast_api env (sent w1) lat lon units = Responded rf
             /\ normalize (time_now env) (json rc) (json rf) = Ok data)
  /\ (forall rc, weather_api env (sent w) lat lon units = Responded rc ->
        http_ok rc = false ->
        out = (Raise (Exn HTTPError (error_text rc)), w1))
  /\ (forall msg, weather_api env (sent w) lat lon units = Failed msg ->
        out = (Raise (Exn RequestException msg), w1)).
Proof.
  cbv zeta. pose proof (fallback_world lat lon units env w) as Hw. cbv zeta in Hw.
  split; [|split; [exact Hw|]].
  - rewrite Hw. destruct (passes _); reflexivity.
  - rewrite fallback_cases. cbv zeta.
    destruct (weather_api env (sent w) lat lon units) as [rc|msg].
    + destruct (http_ok rc) eqn:Ec.
      * split; [|split; [intros rc' [= <-] H; rewrite Ec in H; discriminate H
                        |intros m H; discriminate H]].
        intros data Hd.
        destruct (forecast_api env _ lat lon units) as [rf|msg];
          [|discriminate Hd].
        destruct (http_ok rf); [|discriminate Hd].
        split; [reflexivity|]. exists rc, rf. auto.
      * split; [intros data H; discriminate H|].
        split; [intros rc' [= <-] _; reflexivity|intros m H; discriminate H].
    + split; [intros data H; discriminate H|].
      split; [intros rc H; discriminate H|intros m [= <-]; reflexivity].
Qed.

(** X9.  [fetch_onecall] prints nothing and sends at most five requests:
    the primary one, then /weather and /forecast requests only.  Nothing
    follows the primary request exactly when it was answered with status
    200; after a transport failure of the primary at most two requests
    follow. *)
Theorem fetch_onecall_request_budget (lat lon : option Q) (units : string)
  (env : environment) (w : world) :
  let out := fetch_onecall lat lon units env w in
  printed (snd out) = printed w
  /\ exists rest,
       sent (snd out) = sent w ++ GetOneCall lat lon units :: rest
       /\ (List.length rest <= 4)%nat
       /\ Forall (fun r => r = GetWeather lat lon units
                           \/ r = GetForecast lat lon units) rest
       /\ (rest = [] <->
           exists r, onecall_api env (sent w) lat lon units = Responded r
                     /\ status_code r = 200)
       /\ (forall msg, onecall_api env (sent w) lat lon units = Failed msg ->
             (List.length rest <= 2)%nat).
Proof.
  cbv zeta. rewrite fetch_onecall_cases. cbv zeta.
  set (GO := GetOneCall lat lon units). set (GW := GetWeather lat lon units).
  set (GF := GetForecast lat lon units).
  set (w1 := send w GO).
  assert (F : forall w0,
            exists more,
              snd (fetch_weather_and_forecast lat lon units env w0)
              = {| sent := sent w0 ++ GW :: more; printed := printed w0 |}
              /\ (more = [] \/ more = [GF])).
  { intros w0. rewrite fallback_world. cbv zeta.
    destruct (passes _); unfold send; cbn [sent printed].
    - exists [GF]. rewrite <- app_assoc. auto.
    - exists []. auto. }
  assert (W1 : sent w1 = sent w ++ [GO]) by reflexivity.
  assert (P1 : printed w1 = printed w) by reflexivity.
  destruct (F w1) as (m1 & H1 & C1).
  rewrite W1, <- app_assoc, P1 in H1. cbn [app] in H1.
  destruct (onecall_api env (sent w) lat lon units) as [r|msg].
  - destruct (status_code r =? 200) eqn:E.
    + cbn [snd]. split; [reflexivity|]. exists [].
      split; [exact W1|]. split; [cbn; lia|]. split; [constructor|]. split.
      * split; [intros _|reflexivity]. exists r. apply Z.eqb_eq in E. auto.
      * intros msg H. discriminate H.
    + assert (N : ~ exists r0, Responded r = Responded r0 /\ status_code r0 = 200).
      { intros (r0 & [= <-] & H). apply Z.eqb_neq in E. contradiction. }
      destruct (fetch_weather_and_forecast lat lon units env w1) as [[a|e] w2] eqn:Ef;
        cbn [snd] in H1.
      * cbn [snd]. subst w2. cbn [sent printed]. split; [reflexivity|].
        exists (GW :: m1). split; [reflexivity|].
        split; [destruct C1 as [->| ->]; cbn; lia|].
        split; [destruct C1 as [->| ->];
                repeat first [apply Forall_nil|apply Forall_cons; [auto|]]|].
        split; [split; [discriminate|intros H; contradiction]|].
        intros msg H. discriminate H.
      * destruct (is_RequestException (exn_cls e)).
        -- destruct (F w2) as (m2 & H2 & C2). rewrite H2. subst w2.
           cbn [sent printed]. split; [reflexivity|].
           exists (GW :: m1 ++ GW :: m2). rewrite <- app_assoc. cbn [app].
           split; [reflexivity|].
           split; [destruct C1 as [->| ->], C2 as [->| ->]; cbn; lia|].
           split; [destruct C1 as [->| ->], C2 as [->| ->];
                   repeat first [apply Forall_nil|apply Forall_cons; [auto|]]|].
           split; [split; [discriminate|intros H; contradiction]|].
           intros msg H. discriminate H.
        -- cbn [snd]. subst w2. cbn [sent printed]. split; [reflexivity|].
           exists (GW :: m1). split; [reflexivity|].
           split; [destruct C1 as [->| ->]; cbn; lia|].
           split; [destruct C1 as [->| ->];
                   repeat first [apply Forall_nil|apply Forall_cons; [auto|]]|].
           split; [split; [discriminate|intros H; contradiction]|].
           intros msg H. discriminate H.
  - rewrite H1. cbn [sent printed]. split; [reflexivity|].
    exists (GW :: m1). split; [reflexivity|].
    split; [destruct C1 as [->| ->]; cbn; lia|].
    split; [destruct C1 as [->| ->];
            repeat first [apply Forall_nil|apply Forall_cons; [auto|]]|].
    split; [split; [discriminate|intros (r & H & _); discriminate H]|].
    intros _ _. destruct C1 as [->| ->]; cbn; lia.
Qed.

Lemma report_errors_cases (body : io unit) (env : environment) (w : world) :
  report_errors body env w
  = match body env w with
    | (Ok _, w') => (Ok tt, w')
    | (Raise e, w') =>
        (Ok tt,
         reported w' ((if is_HTTPError (exn_cls e)
                       then "Network/API error: " else "Error: ")
                      ++ exn_msg e))
    end.
Proof.
  unfold report_errors, try_except, print, reported.
  destruct (body env w) as [[[]|e] w']; [reflexivity|].
  destruct (is_HTTPError (exn_cls e)); reflexivity.
Qed.

Lemma has_tag_app (a b : string) :
  Rich.has_tag (a ++ b) = Rich.has_tag a || Rich.has_tag b.
Proof.
  induction a as [|c a IH]; [reflexivity|].
  cbn [String.append Rich.has_tag]. rewrite IH. apply orb_assoc.
Qed.

(** [console.print] of a text: the text is recorded, unless rich finds a
    tag in it that it rejects. *)
Lemma console_print_cases (text : string) (env : environment) (w : world) :
  Rich.console_print text env w
  = if Rich.has_tag text then
      match markup_error env [text] with
      | Some msg => (Raise (Exn MarkupError msg), w)
      | None => (Ok tt, reported w text)
      end
    else (Ok tt, reported w text).
Proof.
  unfold Rich.console_print, Rich.console_check, bind, print, reported.
  cbn [existsb]. rewrite orb_false_r.
  destruct (Rich.has_tag text); [|reflexivity].
  destruct (markup_error env [text]); reflexivity.
Qed.

Lemma console_print_outcome (text : string) (env : environment) (w : world) :
  (Rich.has_tag text = false ->
   Rich.console_print text env w = (Ok tt, reported w text))
  /\ (forall e, fst (Rich.console_print text env w) = Raise e ->
        exn_cls e = MarkupError /\ snd (Rich.console_print text env w) = w)
  /\ (fst (Rich.console_print text env w) = Ok tt ->
      snd (Rich.console_print text env w) = reported w text).
Proof.
  rewrite console_print_cases. split; [|split].
  - intros ->. reflexivity.
  - intros e. destruct (Rich.has_tag text); [|discriminate].
    destruct (markup_error env [text]); [|discriminate].
    cbn [fst snd]. intros H. injection H as <-. split; reflexivity.
  - destruct (Rich.has_tag text); [|reflexivity].
    destruct (markup_error env [text]); [discriminate|reflexivity].
Qed.

Section MainTry.
Variable owm_renderer : owm_data -> string -> string -> io unit.
Variable wttr_renderer : string -> string -> string -> io unit.
Variable coords_text : option Q -> option Q -> string.
Variables (env : environment) (w : world).
Variables (city : string) (lat lon : option Q) (place_label units : string).

Lemma main_after_geocode :
  city <> EmptyString ->
  Spark.main_fetch_render owm_renderer wttr_renderer coords_text true
    (Some city) lat lon place_label units env w
  = report_errors
      (geo <~ geocode_owm city ;;
       let '(la, lo, name, country) := geo in
       data <~ fetch_onecall la lo units ;;
       owm_renderer data (place_of name country) units) env w
  /\ Rich.main_fetch_render owm_renderer wttr_renderer true
       (Some city) place_label units env w
     = Rich.report_errors
         (geo <~ geocode_owm city ;;
          let '(la, lo, name, country) := geo in
          data <~ fetch_onecall la lo units ;;
          owm_renderer data (place_of name country) units) env w.
Proof.
  intros Hc. unfold Spark.main_fetch_render, Rich.main_fetch_render.
  rewrite (truthy_nonempty city Hc). cbn [andb str_or_None]. split; reflexivity.
Qed.

Lemma geocode_unreachable (msg : string) :
  geocode_api env (sent w) city = Failed msg ->
  geocode_owm city env w
  = (Raise (Exn RequestException msg), send w (GetGeocode city)).
Proof.
  intros Hg. unfold geocode_owm. unfold bind at 1. unfold http_get.
  rewrite Hg. reflexivity.
Qed.

Lemma geocode_error_status (r : response (list geo_match)) :
  geocode_api env (sent w) city = Responded r -> http_ok r = false ->
  geocode_owm city env w
  = (Raise (Exn HTTPError (error_text r)), send w (GetGeocode city)).
Proof.
  intros Hg Hs. unfold geocode_owm. unfold bind at 1. unfold http_get.
  rewrite Hg. unfold bind at 1. unfold raise_for_status.
  unfold http_ok in Hs. apply negb_false_iff in Hs. rewrite Hs. reflexivity.
Qed.

(** X11.  The plain [main]'s [try] statement ends normally whatever is
    raised inside.  A geocoder that cannot be reached is reported on one
    line, "Error: " and the message; a geocoder that answers with an error
    status on the line "Network/API error: " and the text of the HTTPError;
    nothing else was requested and no renderer ran.  The plain variant
    prints the line.  The rich variant hands the same line to
    [console.print]: it is shown and [main] ends normally when the message
    has no "[", and otherwise unless rich rejects a tag in it, in which
    case MarkupError leaves [main] with nothing shown. *)
Theorem main_reports_geocoder_failure :
  city <> EmptyString ->
  let spark_main :=
    Spark.main_fetch_render owm_renderer wttr_renderer coords_text true
      (Some city) lat lon place_label units env w in
  let rich_main :=
    Rich.main_fetch_render owm_renderer wttr_renderer true
      (Some city) place_label units env w in
  let asked := send w (GetGeocode city) in
  fst spark_main = Ok tt
  /\ (forall msg, geocode_api env (sent w) city = Failed msg ->
        let line := ("Error: " ++ msg)%string in
        spark_main = (Ok tt, reported asked line)
        /\ rich_main = Rich.console_print line env asked
        /\ (Rich.has_tag msg = false -> rich_main = (Ok tt, reported asked line))
        /\ (fst rich_main = Ok tt -> snd rich_main = reported asked line)
        /\ (forall e, fst rich_main = Raise e ->
              exn_cls e = MarkupError /\ snd rich_main = asked))
  /\ (forall r, geocode_api env (sent w) city = Responded r -> http_ok r = false ->
        let line := ("Network/API error: " ++ error_text r)%string in
        spark_main = (Ok tt, reported asked line)
        /\ rich_main = Rich.console_print line env asked
        /\ (Rich.has_tag (error_text r) = false ->
            rich_main = (Ok tt, reported asked line))
        /\ (fst rich_main = Ok tt -> snd rich_main = reported asked line)
        /\ (forall e, fst rich_main = Raise e ->
              exn_cls e = MarkupError /\ snd rich_main = asked)).
Proof.
  intros Hc. cbv zeta. destruct (main_after_geocode Hc) as [E1 E2].
  split; [|split].
  - rewrite E1, report_errors_cases. destruct (bind _ _ env w) as [[[]|e] w']; reflexivity.
  - intros msg Hg.
    assert (R : Rich.main_fetch_render owm_renderer wttr_renderer true
                  (Some city) place_label units env w
                = Rich.console_print ("Error: " ++ msg) env (send w (GetGeocode city))).
    { rewrite E2. unfold Rich.report_errors. unfold bind at 1.
      rewrite (geocode_unreachable msg Hg). reflexivity. }
    split.
    { rewrite E1, report_errors_cases. unfold bind at 1.
      rewrite (geocode_unreachable msg Hg). reflexivity. }
    rewrite R. split; [reflexivity|].
    destruct (console_print_outcome ("Error: " ++ msg) env (send w (GetGeocode city)))
      as (O1 & O2 & O3).
    split; [|split; [exact O3|exact O2]].
    intros Ht. apply O1. rewrite has_tag_app, Ht. reflexivity.
  - intros r Hg Hs.
    assert (R : Rich.main_fetch_render owm_renderer wttr_renderer true
                  (Some city) place_label units env w
                = Rich.console_print ("Network/API error: " ++ error_text r) env
                    (send w (GetGeocode city))).
    { rewrite E2. unfold Rich.report_errors. unfold bind at 1.
      rewrite (geocode_error_status r Hg Hs). reflexivity. }
    split.
    { rewrite E1, report_errors_cases. unfold bind at 1.
      rewrite (geocode_error_status r Hg Hs). reflexivity. }
    rewrite R. split; [reflexivity|].
    destruct (console_print_outcome ("Network/API error: " ++ error_text r) env
                (send w (GetGeocode city))) as (O1 & O2 & O3).
    split; [|split; [exact O3|exact O2]].
    intros Ht. apply O1. rewrite has_tag_app, Ht. reflexivity.
Qed.

(** X12.  When the geocoder's first match has coordinates, weather is
    fetched for these (not for coordinates given to [main]) and the
    renderer is called with the label made of the match's name and country,
    the label given to [main] being dropped; each variant then reports with
    its own handlers what the fetch or the renderer raises. *)
Theorem main_renders_first_match (r : response (list geo_match))
  (it : geo_match) (rest : list geo_match) (la lo : Q) :
  city <> EmptyString ->
  geocode_api env (sent w) city = Responded r -> http_ok r = true ->
  json r = it :: rest -> g_lat it = Val la -> g_lon it = Val lo ->
  let label := place_of (get_or (g_name it) city)
                        (get_or (g_country it) EmptyString) in
  Spark.main_fetch_render owm_renderer wttr_renderer coords_text true
    (Some city) lat lon place_label units env w
  = report_errors
      (data <~ fetch_onecall (Some la) (Some lo) units ;;
       owm_renderer data label units)
      env (send w (GetGeocode city))
  /\ Rich.main_fetch_render owm_renderer wttr_renderer true
       (Some city) place_label units env w
     = Rich.report_errors
         (data <~ fetch_onecall (Some la) (Some lo) units ;;
          owm_renderer data label units)
         env (send w (GetGeocode city))
  /\ (forall name country,
        g_name it = Val name -> g_country it = Val country ->
        country <> EmptyString -> label = (name ++ ", " ++ country)%string)
  /\ (forall name, g_name it = Val name -> g_country it = Absent -> label = name)
  /\ (g_name it = Absent -> g_country it = Absent -> label = city).
Proof.
  intros Hc Hg Hok Hj Hla Hlo label.
  destruct (main_after_geocode Hc) as [E1 E2].
  assert (G : geocode_owm city env w
              = (Ok (Some la, Some lo, get_or (g_name it) city,
                     get_or (g_country it) EmptyString),
                 send w (GetGeocode city))).
  { unfold geocode_owm, bind, http_get, raise_for_status. rewrite Hg.
    unfold http_ok in Hok. apply negb_true_iff in Hok. rewrite Hok.
    cbn [ret]. rewrite Hj, Hla, Hlo. reflexivity. }
  split; [|split].
  - rewrite E1. unfold report_errors, try_except. unfold bind at 1.
    rewrite G. reflexivity.
  - rewrite E2. unfold Rich.report_errors. unfold bind at 1.
    rewrite G. reflexivity.
  - subst label. unfold place_of. split; [|split].
    + intros name country -> -> Hn. cbn [get_or].
      rewrite (truthy_nonempty country Hn). reflexivity.
    + intros name -> ->. reflexivity.
    + intros -> ->. reflexivity.
Qed.

End MainTry.

Lemma main_reports_geocoder_failure_witness :
  Spark.main_fetch_render (fun _ _ _ => print "rendered")
    (fun _ _ _ => print "rendered") (fun _ _ => EmptyString) true
    (Some "London"%string) None None "London" "metric" offline_env start
  = (Ok tt, {| sent := [GetGeocode "London"];
               printed := ["Error: connection timed out"%string] |})
  /\ Rich.main_fetch_render (fun _ _ _ => print "rendered")
       (fun _ _ _ => print "rendered") true
       (Some "London"%string) "London" "metric" offline_env start
     = (Ok tt, {| sent := [GetGeocode "London"];
                  printed := ["Error: connection timed out"%string] |}).
Proof.
  destruct (main_reports_geocoder_failure
              (fun _ _ _ => print "rendered") (fun _ _ _ => print "rendered")
              (fun _ _ => EmptyString) offline_env start "London" None None
              "London" "metric") as (_ & H & _); [discriminate|].
  destruct (H "connection timed out"%string Logic.eq_refl) as (H1 & _ & H3 & _).
  split; [exact H1|exact (H3 Logic.eq_refl)].
Defined.

(** The user asks for "london"; the request goes out for the coordinates of
    the match and the label is "London, GB". *)
Lemma main_renders_first_match_witness :
  Spark.main_fetch_render (fun _ label _ => print label)
    (fun _ _ _ => print "wttr") (fun _ _ => EmptyString) true
    (Some "london"%string) None None "london" "metric" known_city_env start
  = (Ok tt,
     {| sent := [GetGeocode "london";
                 GetOneCall (Some (103 # 2)) (Some (-1 # 10)) "metric";
                 GetWeather (Some (103 # 2)) (Some (-1 # 10)) "metric";
                 GetForecast (Some (103 # 2)) (Some (-1 # 10)) "metric"];
        printed := ["London, GB"%string] |}).
Proof.
  destruct (main_renders_first_match
              (fun _ label _ => print label) (fun _ _ _ => print "wttr")
              (fun _ _ => EmptyString) known_city_env start "london" None None
              "london" "metric"
              {| status_code := 200; error_text := EmptyString;
                 json := [{| g_lat := Val (103 # 2); g_lon := Val (-1 # 10);
                             g_name := Val "London"%string;
                             g_country := Val "GB"%string |}] |}
              {| g_lat := Val (103 # 2); g_lon := Val (-1 # 10);
                 g_name := Val "London"%string; g_country := Val "GB"%string |}
              [] (103 # 2) (-1 # 10)) as (H & _);
    [discriminate|reflexivity|reflexivity|reflexivity|reflexivity|reflexivity|].
  rewrite H. vm_compute. reflexivity.
Defined.

(** ** The presentation layer: the forecast block *)

Lemma skipn_nth {X} (a : nat) (l : list X) (d : X) :
  (a < List.length l)%nat -> skipn a l = nth a l d :: skipn (S a) l.
Proof.
  revert l. induction a as [|a IH]; intros [|x l] H; simpl in *; try lia.
  - reflexivity.
  - apply IH. lia.
Qed.

Lemma consecutive_step (a k : nat) :
  map (fun j => Z.of_nat (a + j)) (seq 0 (S k))
  = Z.of_nat a :: map (fun j => Z.of_nat (S a + j)) (seq 0 k).
Proof.
  cbn [seq map]. rewrite Nat.add_0_r. f_equal.
  rewrite <- seq_shift, map_map. apply map_ext. intros j. f_equal. lia.
Qed.


Section Forecast.
Variable capitalize : string -> string.
Variable strftime_day : Z -> string.
Variables (tz : option Z) (units : string) (daily : list daily_entry).

(** The loop over [k] indices from [a] on reads the slice [daily[a:a+k]]. *)
Lemma forecast_rows_slice (k a : nat) :
  Rich.forecast_rows capitalize strftime_day tz units (Some daily)
    (map (fun j => Z.of_nat (a + j)) (seq 0 k))
  = mapM (Rich.forecast_row capitalize strftime_day tz units)
         (firstn k (skipn a daily)).
Proof.
  revert a. induction k as [|k IH]; intros a; [reflexivity|].
  rewrite consecutive_step. cbn [Rich.forecast_rows len_daily rbind].
  destruct (len daily <=? Z.of_nat a) eqn:E.
  - apply Z.leb_le in E. rewrite skipn_all2 by (unfold len in E; lia).
    reflexivity.
  - apply Z.leb_gt in E.
    destruct daily as [|d0 ds] eqn:Ed; [unfold len in E; simpl in E; lia|].
    rewrite <- Ed in *.
    rewrite (py_getitem_nth daily (Z.of_nat a) d0) by lia.
    rewrite (skipn_nth a daily d0) by (unfold len in E; lia).
    cbn [rbind firstn mapM]. rewrite Nat2Z.id, IH. reflexivity.
Qed.

Lemma forecast_lines_slice (k a : nat) (env : environment) (w : world) :
  Spark.forecast_lines capitalize strftime_day tz units (Some daily)
    (map (fun j => Z.of_nat (a + j)) (seq 0 k)) env w
  = print_each (map (Spark.forecast_line capitalize strftime_day tz units)
                    (firstn k (skipn a daily))) env w.
Proof.
  revert a w. induction k as [|k IH]; intros a w; [reflexivity|].
  rewrite consecutive_step. cbn [Spark.forecast_lines len_daily].
  unfold bind at 1, lift at 1.
  destruct (len daily <=? Z.of_nat a) eqn:E.
  - apply Z.leb_le in E. rewrite skipn_all2 by (unfold len in E; lia).
    reflexivity.
  - apply Z.leb_gt in E.
    destruct daily as [|d0 ds] eqn:Ed; [unfold len in E; simpl in E; lia|].
    rewrite <- Ed in *.
    rewrite (py_getitem_nth daily (Z.of_nat a) d0) by lia.
    rewrite (skipn_nth a daily d0) by (unfold len in E; lia).
    cbn [firstn map print_each]. rewrite Nat2Z.id.
    unfold bind at 1, lift at 1. unfold bind at 1 3, lift at 1 2.
    destruct (Spark.forecast_line _ _ _ _ _) as [line|e]; [|reflexivity].
    unfold bind, print. apply IH.
Qed.

(** X13.  The forecast is made of the entries at positions 1, 2 and 3 of
    [daily], as many as there are: the first entry and those from position
    4 on are not read.  The rich loop builds one row for each; the plain
    loop prints one line for each and stops, with the lines before it
    printed, at the first that raises. *)
Theorem forecast_takes_entries_1_to_3 :
  Rich.forecast_rows capitalize strftime_day tz units (Some daily)
    (range_from 1 4)
  = mapM (Rich.forecast_row capitalize strftime_day tz units)
         (firstn 3 (skipn 1 daily))
  /\ (forall env w,
        Spark.forecast_lines capitalize strftime_day tz units (Some daily)
          (range_from 1 4) env w
        = print_each (map (Spark.forecast_line capitalize strftime_day tz units)
                          (firstn 3 (skipn 1 daily))) env w)
  /\ List.length (firstn 3 (skipn 1 daily))
     = Nat.min 3 (List.length daily - 1).
Proof.
  split; [|split].
  - exact (forecast_rows_slice 3 1).
  - intros env w. exact (forecast_lines_slice 3 1 env w).
  - rewrite length_firstn, length_skipn. reflexivity.
Qed.


End Forecast.


(** ** The presentation layer: the hourly row *)

Lemma somes_length {X} (l : list (option X)) :
  (List.length (somes l) <= List.length l)%nat.
Proof.
  unfold somes. induction l as [|[x|] l IH]; cbn [flat_map app List.length]; lia.
Qed.

Lemma temps24_length (hourly : list hourly_entry) :
  (List.length (temps24 hourly) <= 24)%nat.
Proof.
  unfold temps24. eapply Nat.le_trans; [apply somes_length|].
  rewrite length_map, length_firstn. lia.
Qed.

Lemma last_app_repeat {X} (l : list X) (x d : X) (k : nat) :
  (0 < k)%nat -> List.last (l ++ repeat x k) d = x.
Proof.
  intros Hk. destruct k as [|k]; [lia|].
  replace (repeat x (S k)) with (repeat x k ++ [x]) by (symmetry; apply repeat_cons).
  rewrite app_assoc. apply last_last.
Qed.

Lemma finite_of_difference (x y : float) :
  finite (PrimFloat.sub x y) = true -> finite x = true /\ finite y = true.
Proof. unfold finite. rewrite sub_spec. apply SFsub_finite_args. Qed.

Lemma float_round_finite (x : float) :
  finite x = true -> exists z, float_round x = Ok z.
Proof.
  unfold finite, float_round.
  destruct (Prim2SF x); cbn [zero_or_finite]; try discriminate; eauto.
Qed.

(** The string that the rich variant makes of floats that are not more
    than the width, when it makes one: glyphs of the palette, the same
    from the last sample on. *)
Lemma sparkline_padded_tail (temps : list float) (W : Z) (glyphs : list char) :
  temps <> [] -> len temps <= W ->
  Rich.sparkline binary64 temps W = Ok glyphs ->
  List.length glyphs = Z.to_nat W
  /\ Forall (fun c => In c SPARK) glyphs
  /\ skipn (List.length temps - 1) glyphs
     = repeat (List.last glyphs lowest_glyph)
              (Z.to_nat W - List.length temps + 1).
Proof.
  intros Hne HW H.
  assert (Hn : 0 < len temps).
  { unfold len. destruct temps; [congruence|]. cbn [List.length]. lia. }
  destruct (sparkline_shape_any binary64 temps W glyphs Hne ltac:(lia)
              (or_intror H)) as [Hlen Hpal].
  split; [unfold len in Hlen; lia|]. split; [exact Hpal|].
  destruct (sparkline_padding binary64 float_ltb_irrefl temps W Hne HW)
    as [_ Hrich].
  cbv zeta in Hrich. change (num binary64) with float in Hrich.
  rewrite H in Hrich.
  destruct (Rich.sparkline binary64 temps (len temps)) as [own|e] eqn:Eown;
    cbn [rbind] in Hrich; [|discriminate].
  injection Hrich as ->.
  destruct (sparkline_shape_any binary64 temps (len temps) own Hne Hn
              (or_intror Eown)) as [Hownlen _].
  set (k := Z.to_nat (W - len temps)) in *.
  assert (Hownlen' : List.length own = List.length temps)
    by (unfold len in Hownlen; lia).
  destruct (exists_last (l := own)) as (l' & a' & E).
  { intros ->. destruct temps; [congruence|discriminate]. }
  assert (Hlast : List.last (pad_glyphs k own) lowest_glyph = a').
  { unfold pad_glyphs. rewrite E, last_last.
    destruct k as [|k']; [rewrite app_nil_r; apply last_last|].
    apply last_app_repeat. lia. }
  rewrite Hlast. unfold pad_glyphs. rewrite E in *. rewrite last_last.
  rewrite length_app in Hownlen'. cbn [List.length] in Hownlen'.
  rewrite <- app_assoc.
  replace (List.length temps - 1)%nat with (List.length l') by lia.
  rewrite skipn_app, skipn_all, Nat.sub_diag.
  cbn [app skipn].
  replace (Z.to_nat W - List.length temps + 1)%nat with (S k)
    by (unfold k, len; lia).
  reflexivity.
Qed.

Lemma next_24h_row_cons (t : Q) (ts : list Q) (units : string) :
  let temps := map float_of_Q (t :: ts) in
  Rich.next_24h_row (t :: ts) units
  = (spark <- Rich.sparkline binary64 temps 36 ;;
     lo <- py_min PrimFloat.ltb temps ;;
     mn <- float_round lo ;;
     hi <- py_max PrimFloat.ltb temps ;;
     mx <- float_round hi ;;
     Ok ("Next 24h",
         text_of spark ++ "  min " ++ string_of_Z mn
         ++ unit_sym units ++ " max " ++ string_of_Z mx
         ++ unit_sym units)%string).
Proof. reflexivity. Qed.

(** The row is made when no two temperatures are too far apart. *)
Lemma next_24h_row_returns (temps24 : list Q) (units : string) :
  (List.length temps24 <= 24)%nat ->
  differences_finite (map float_of_Q temps24) = true ->
  exists row, Rich.next_24h_row temps24 units = Ok row.
Proof.
  intros Hlen Hd. destruct temps24 as [|t ts]; [cbn; eauto|].
  rewrite next_24h_row_cons. cbv zeta.
  set (temps := map float_of_Q (t :: ts)) in *.
  assert (Hne : temps <> []) by discriminate.
  assert (Hn : len temps <= 2 ^ 49).
  { unfold len, temps. rewrite length_map.
    assert (2 ^ 49 = 562949953421312) by reflexivity. lia. }
  destruct (sparkline_binary64_total temps 36 Hne Logic.eq_refl Hd Hn)
    as (glyphs & _ & -> & _).
  cbn [rbind].
  destruct (py_min_nonempty PrimFloat.ltb temps Hne) as (lo & Emin).
  destruct (py_max_nonempty PrimFloat.ltb temps Hne) as (hi & Emax).
  rewrite Emin. cbn [rbind].
  pose proof (py_min_In _ _ _ Emin) as Ilo.
  pose proof (py_max_In _ _ _ Emax) as Ihi.
  destruct (finite_of_difference lo lo (differences_finite_In _ _ _ Hd Ilo Ilo))
    as [Flo _].
  destruct (finite_of_difference hi hi (differences_finite_In _ _ _ Hd Ihi Ihi))
    as [Fhi _].
  destruct (float_round_finite lo Flo) as (mn & ->). cbn [rbind].
  rewrite Emax. cbn [rbind].
  destruct (float_round_finite hi Fhi) as (mx & ->). cbn [rbind]. eauto.
Qed.

(** What the row holds when it is made of at least one temperature. *)
Lemma next_24h_row_inv (temps24 : list Q) (units : string)
  (row : string * string) :
  temps24 <> [] -> (List.length temps24 <= 24)%nat ->
  Rich.next_24h_row temps24 units = Ok row ->
  let temps := map float_of_Q temps24 in
  exists glyphs lo hi mn mx,
    row = ("Next 24h",
           text_of glyphs ++ "  min " ++ string_of_Z mn
           ++ unit_sym units ++ " max " ++ string_of_Z mx
           ++ unit_sym units)%string
    /\ Rich.sparkline binary64 temps 36 = Ok glyphs
    /\ List.length glyphs = 36%nat
    /\ Forall (fun c => In c SPARK) glyphs
    /\ In lo temps /\ In hi temps
    /\ (forall t, In t temps ->
          PrimFloat.ltb t lo = false /\ PrimFloat.ltb hi t = false)
    /\ float_round lo = Ok mn /\ float_round hi = Ok mx
    /\ skipn (List.length temps - 1) glyphs
       = repeat (List.last glyphs lowest_glyph) (37 - List.length temps).
Proof.
  intros Hne Hlen H. destruct temps24 as [|t ts]; [congruence|].
  rewrite next_24h_row_cons in H. cbv zeta in *.
  set (temps := map float_of_Q (t :: ts)) in *.
  assert (Hl : List.length temps = List.length (t :: ts))
    by (unfold temps; apply length_map).
  destruct (Rich.sparkline binary64 temps 36) as [glyphs|e] eqn:Es;
    cbn [rbind] in H; [|discriminate].
  destruct (py_min PrimFloat.ltb temps) as [lo|e] eqn:Emin;
    cbn [rbind] in H; [|discriminate].
  destruct (float_round lo) as [mn|e] eqn:Emn; cbn [rbind] in H; [|discriminate].
  destruct (py_max PrimFloat.ltb temps) as [hi|e] eqn:Emax;
    cbn [rbind] in H; [|discriminate].
  destruct (float_round hi) as [mx|e] eqn:Emx; cbn [rbind] in H; [|discriminate].
  injection H as <-.
  destruct (sparkline_padded_tail temps 36 glyphs ltac:(discriminate)
              ltac:(unfold len; lia) Es) as (G1 & G2 & G3).
  exists glyphs, lo, hi, mn, mx.
  split; [reflexivity|]. split; [reflexivity|]. split; [exact G1|].
  split; [exact G2|]. split; [eapply py_min_In; eauto|].
  split; [eapply py_max_In; eauto|]. split.
  - intros v Hv. split;
      [exact (py_min_floor temps lo Emin v Hv)
      |exact (py_max_ceiling temps hi Emax v Hv)].
  - split; [exact Emn|]. split; [exact Emx|].
    rewrite G3. f_equal. change (Z.to_nat 36) with 36%nat. lia.
Qed.

(** X15.  The "Next 24h" row of the rich renderer.  It reads the
    temperatures that are not [None] among the first 24 hourly entries, as
    the floats they are.  With none, the row shows a dash.  With some, no
    two of them too far apart for their difference to be a float, the row
    is made.  Whenever it is made of some temperatures it shows 36 glyphs
    of the palette and the rounded least and greatest temperature; as
    there are at most 24 temperatures, the sparkline never strides: its
    glyphs from the last temperature on, 13 or more, are all the same. *)
Theorem next_24h_row_shape (hourly : list hourly_entry) (units : string) :
  let temps := map float_of_Q (temps24 hourly) in
  (List.length temps <= 24)%nat
  /\ (temps = [] ->
      Rich.next_24h_row (temps24 hourly) units = Ok ("Next 24h", "—")%string)
  /\ (differences_finite temps = true ->
      returns (Rich.next_24h_row (temps24 hourly) units) = true)
  /\ (forall row,
        temps <> [] -> Rich.next_24h_row (temps24 hourly) units = Ok row ->
        exists glyphs lo hi mn mx,
          row = ("Next 24h",
                 text_of glyphs ++ "  min " ++ string_of_Z mn
                 ++ unit_sym units ++ " max " ++ string_of_Z mx
                 ++ unit_sym units)%string
          /\ Rich.sparkline binary64 temps 36 = Ok glyphs
          /\ List.length glyphs = 36%nat
          /\ Forall (fun c => In c SPARK) glyphs
          /\ In lo temps /\ In hi temps
          /\ (forall t, In t temps ->
                PrimFloat.ltb t lo = false /\ PrimFloat.ltb hi t = false)
          /\ float_round lo = Ok mn /\ float_round hi = Ok mx
          /\ skipn (List.length temps - 1) glyphs
             = repeat (List.last glyphs lowest_glyph)
                      (37 - List.length temps)).
Proof.
  cbv zeta. pose proof (temps24_length hourly) as Hlen.
  split; [rewrite length_map; exact Hlen|]. split; [|split].
  - intros E. apply map_eq_nil in E. rewrite E. reflexivity.
  - intros Hd.
    destruct (next_24h_row_returns (temps24 hourly) units Hlen Hd) as (row & ->).
    reflexivity.
  - intros row Hne H. apply next_24h_row_inv; try assumption.
    intros E. apply Hne. rewrite E. reflexivity.
Qed.

(** The temperatures 32, 33.8 and 44.6: the row is made, and its first
    three glyphs are the lowest, the lowest and the full block (in exact
    arithmetic the second would be the next to lowest). *)
Lemma next_24h_row_shape_witness :
  returns (Rich.next_24h_row (temps24 three_hours) "imperial") = true
  /\ Rich.sparkline binary64 (map float_of_Q (temps24 three_hours)) 3
     = Ok [0x2581; 0x2581; 0x2588]%N
  /\ Rich.sparkline exact (temps24 three_hours) 3
     = Ok [0x2581; 0x2582; 0x2588]%N.
Proof.
  split; [|split; vm_compute; reflexivity].
  apply (proj1 (proj2 (proj2 (next_24h_row_shape three_hours "imperial")))).
  vm_compute. reflexivity.
Defined.

(** ** The presentation layer: the current block *)

Section CurrentBlock.
Variable capitalize : string -> string.
Variable strftime_minutes : Z -> string.
Variables place units : string.
Variables (env : environment) (w : world).







(** X1.  When "temp", "feels_like", "humidity" and "wind_speed" are absent
    from the "current" object (or there is no such object), the defaults
    stand in: the plain renderer prints 0 for the three numbers and a dash
    for the humidity, and so do the rows of the rich renderer. *)
Theorem absent_keys_show_defaults (data : owm_data) (cur : current_obj)
  (tz : option Z) (icon icon' : string) (desc : option string)
  (time time' : string) :
  render_prelude Spark.ICON data = Ok (cur, tz, icon, desc) ->
  render_prelude Rich.ICON data = Ok (cur, tz, icon', desc) ->
  Spark.human_time strftime_minutes (get_or (cur_dt cur) (time_now env)) tz
  = Ok time ->
  Rich.human_time strftime_minutes (time_now env)
    (get_or (cur_dt cur) (time_now env)) tz = Ok time' ->
  cur_temp cur = Absent -> cur_feels_like cur = Absent ->
  cur_humidity cur = Absent -> cur_wind_speed cur = Absent ->
  Spark.render_owm_current capitalize strftime_minutes data place units env w
  = (Ok tt,
     {| sent := sent w;
        printed :=
          printed w
          ++ ["================================================";
              " Quick Weather — CLI with hourly sparkline";
              "================================================";
              "Location: " ++ place;
              "Time: " ++ time;
              EmptyString;
              icon ++ " " ++ cap capitalize desc;
              "Temp: 0" ++ unit_sym units ++ "  Feels: 0" ++ unit_sym units;
              "Humidity: —%  Wind: 0 " ++ speed_sym units]%string |})
  /\ Rich.render_rich_owm_current capitalize strftime_minutes data place units
       env w
     = (Ok [("Condition", icon' ++ " " ++ cap capitalize desc);
            ("Temp", "0" ++ unit_sym units ++ " (feels 0" ++ unit_sym units ++ ")");
            ("Humidity", "—%");
            ("Wind", "0 " ++ speed_sym units)]%string,
        {| sent := sent w;
           printed := printed w ++ [(place ++ "  " ++ time')%string] |}).
Proof.
  intros Hp Hp' Ht Ht' H1 H2 H3 H4. split.
  - unfold Spark.render_owm_current. unfold bind at 1, lift at 1. rewrite Hp.
    unfold Spark.print_banner, bind, print, lift.
    rewrite Ht, H1, H2, H3, H4. cbn [sent printed get_or round_text humidity_text].
    rewrite <- !app_assoc. reflexivity.
  - unfold Rich.render_rich_owm_current. unfold bind at 1, lift at 1. rewrite Hp'.
    unfold bind, print, lift.
    rewrite Ht', H1, H2, H3, H4. reflexivity.
Qed.

End CurrentBlock.


Lemma absent_keys_show_defaults_witness :
  printed (snd (Spark.render_owm_current (fun s => s)
                  (fun _ => "2023-11-15 00:00"%string)
                  onecall_without_numbers "London" "imperial" sample_env start))
  = ["================================================";
     " Quick Weather — CLI with hourly sparkline";
     "================================================";
     "Location: London";
     "Time: 2023-11-15 00:00";
     EmptyString;
     "🌧️ light rain";
     "Temp: 0°F  Feels: 0°F";
     "Humidity: —%  Wind: 0 mph"]%string.
Proof.
  destruct (absent_keys_show_defaults (fun s => s)
              (fun _ => "2023-11-15 00:00"%string) "London" "imperial"
              sample_env start onecall_without_numbers
              {| cur_dt := Val 1700006400; cur_temp := Absent;
                 cur_feels_like := Absent; cur_humidity := Absent;
                 cur_wind_speed := Absent;
                 cur_weather := Val [{| w_main := Val "Rain"%string;
                                        w_description := Val "light rain"%string |}] |}
              (Some 0) "🌧️" "🌧️" (Some "light rain"%string)
              "2023-11-15 00:00" "2023-11-15 00:00") as [H _];
    [reflexivity|reflexivity|reflexivity|reflexivity
    |reflexivity|reflexivity|reflexivity|reflexivity|].
  rewrite H. reflexivity.
Defined.

(** ** The presentation layer: the rich renderer on a fallback snapshot *)



Section RichFallback.
Variable capitalize : string -> string.
Variable strftime_minutes : Z -> string.
Variable strftime_day : Z -> string.
Variables place units : string.
Variables (env : environment) (w : world).


End RichFallback.


(** ** The normalizer and the quantizer: a short forecast *)

Lemma somes_all_some {X Y} (f : X -> option Y) (l : list X) :
  (forall x, In x l -> exists y, f x = Some y) ->
  List.length (somes (map f l)) = List.length l.
Proof.
  unfold somes. induction l as [|x l IH]; intros H; [reflexivity|].
  cbn [map flat_map]. destruct (H x (or_introl Logic.eq_refl)) as (y & ->).
  cbn [app List.length]. f_equal. apply IH. intros; apply H; now right.
Qed.

Lemma somes_app {X} (l l' : list (option X)) :
  somes (l ++ l') = somes l ++ somes l'.
Proof. unfold somes. apply flat_map_app. Qed.

Lemma somes_repeat {X} (x : X) (k : nat) :
  somes (repeat (Some x) k) = repeat x k.
Proof.
  unfold somes. induction k as [|k IH]; [reflexivity|].
  cbn [repeat flat_map app]. now rewrite IH.
Qed.

(** With up to 24 forecast entries, each with a temperature, the hourly
    temperatures end with [25 - n] copies of the last entry's. *)
Lemma temps24_short_forecast (fr : forecast_payload) (d : fitem) (t : Q) :
  (1 <= List.length (forecast_items fr) <= 24)%nat ->
  (forall it, In it (forecast_items fr) -> exists q, item_temp it = Some q) ->
  item_temp (List.last (forecast_items fr) d) = Some t ->
  exists head,
    temps24 (build_hourly fr)
    = head ++ repeat t (25 - List.length (forecast_items fr))
    /\ List.length head = (List.length (forecast_items fr) - 1)%nat.
Proof.
  intros Hn Hall Hlast. unfold temps24. rewrite build_hourly_spec.
  destruct (forecast_items fr) as [|i0 items'] eqn:Ei; [simpl in Hn; lia|].
  rewrite <- Ei in *. set (items := forecast_items fr) in *.
  assert (Hne : items <> []) by (rewrite Ei; discriminate).
  rewrite (firstn_all2 (n := 24) items) by lia.
  rewrite firstn_all2 by (rewrite length_app, length_map, repeat_length; lia).
  rewrite map_app, map_map, map_repeat.
  change (fun x => h_temp (hourly_of_item x)) with item_temp.
  change (h_temp (hourly_of_item (List.last items i0)))
    with (item_temp (List.last items i0)).
  destruct (exists_last Hne) as (l' & a' & El). rewrite El in *.
  rewrite !last_last in *. rewrite Hlast.
  rewrite length_app in *. cbn [List.length] in *.
  rewrite map_app. cbn [map]. rewrite Hlast.
  exists (somes (map item_temp l')). split.
  - rewrite <- app_assoc, !somes_app, somes_repeat. f_equal.
    change (somes [Some t]) with [t]. cbn [app].
    replace (25 - (List.length l' + 1))%nat with (S (24 - (List.length l' + 1))) by lia.
    reflexivity.
  - rewrite somes_all_some; [lia|].
    intros x Hx. apply Hall. apply in_or_app. now left.
Qed.

(** With the samples in hand, the rich variant maps each one to its
    glyph. *)
Lemma sparkline_rich_mapM (A : Arith) (values vals : list (num A)) (W : Z) :
  values <> [] -> resample A values W = Ok vals -> vals <> [] ->
  exists f : num A -> result char, Rich.sparkline A values W = mapM f vals.
Proof.
  intros Hne Hv Hvals. destruct values as [|x xs]; [congruence|].
  rewrite sparkline_rich_cons, Hv. cbn [rbind].
  destruct (py_min_nonempty (num_lt A) vals Hvals) as [lo ->].
  destruct (py_max_nonempty (num_lt A) vals Hvals) as [hi ->]. cbn [rbind].
  destruct (num_eq A hi lo); eauto.
Qed.

Lemma mapM_repeat_tail {X Y} (f : X -> result Y) (l : list X) (x : X)
  (k : nat) (out : list Y) :
  mapM f (l ++ repeat x (S k)) = Ok out ->
  exists y, skipn (List.length l) out = repeat y (S k).
Proof.
  rewrite mapM_app. intros H.
  destruct (mapM f l) as [a|e] eqn:Ea; cbn [rbind] in H; [|discriminate].
  destruct (f x) as [y|e] eqn:Ex.
  - rewrite (mapM_repeat f x y (S k) Ex) in H. cbn [rbind] in H.
    injection H as <-. exists y.
    rewrite <- (mapM_length f l a Ea), skipn_app, skipn_all, Nat.sub_diag.
    reflexivity.
  - cbn [repeat mapM] in H. rewrite Ex in H. cbn [rbind] in H. discriminate.
Qed.

(** X18.  A short forecast composes two paddings: the normalizer fills the
    hourly list up to 24 with its last entry and the sparkline fills the
    24 temperatures up to 36 with the last one.  With [n] forecast entries
    (at most 24, each with a temperature) the rich variant's sparkline of
    the hourly temperatures, as floats, is made when no two of them are too
    far apart for their difference to be a float, and whenever it is made
    its glyphs from position [n - 1] on, [37 - n] of them, are one and the
    same. *)
Theorem short_forecast_flat_tail (fr : forecast_payload) :
  (1 <= List.length (forecast_items fr) <= 24)%nat ->
  (forall it, In it (forecast_items fr) -> exists q, item_temp it = Some q) ->
  let temps := map float_of_Q (temps24 (build_hourly fr)) in
  List.length temps = 24%nat
  /\ (differences_finite temps = true ->
      returns (Rich.sparkline binary64 temps 36) = true)
  /\ forall glyphs,
       Rich.sparkline binary64 temps 36 = Ok glyphs ->
       List.length glyphs = 36%nat
       /\ exists g,
            skipn (List.length (forecast_items fr) - 1) glyphs
            = repeat g (37 - List.length (forecast_items fr)).
Proof.
  intros Hn Hall. cbv zeta.
  destruct (forecast_items fr) as [|i0 items'] eqn:Ei; [simpl in Hn; lia|].
  rewrite <- Ei in *. set (items := forecast_items fr) in *.
  assert (Hin : In (List.last items i0) items).
  { destruct (exists_last (l := items)) as (l' & a' & ->); [rewrite Ei; discriminate|].
    rewrite last_last. apply in_or_app. right. now left. }
  destruct (Hall _ Hin) as (t & Ht).
  destruct (temps24_short_forecast fr i0 t Hn Hall Ht) as (head & Htemps & Hhead).
  fold items in Htemps, Hhead.
  set (n := List.length items) in *.
  set (temps := map float_of_Q (temps24 (build_hourly fr))) in *.
  assert (Htf : temps = map float_of_Q head ++ repeat (float_of_Q t) (25 - n)).
  { unfold temps. rewrite Htemps, map_app, map_repeat. reflexivity. }
  assert (Hlen : List.length temps = 24%nat).
  { rewrite Htf, length_app, length_map, repeat_length. lia. }
  assert (Hne : temps <> []) by (intros C; rewrite C in Hlen; discriminate).
  split; [exact Hlen|]. split.
  - intros Hd.
    destruct (sparkline_binary64_total temps 36 Hne Logic.eq_refl Hd)
      as (out & _ & -> & _); [|reflexivity].
    unfold len. rewrite Hlen. discriminate.
  - intros glyphs Hg.
    assert (Hle : len temps <= 36) by (unfold len; lia).
    destruct (sparkline_padded_tail temps 36 glyphs Hne Hle Hg) as (G1 & _ & _).
    split; [exact G1|].
    pose proof (resample_pad binary64 temps 36 (float_of_Q t) Hne Hle) as Hvals.
    change (num binary64) with float in *.
    assert (K : Z.to_nat (36 - len temps) = 12%nat) by (unfold len; lia).
    rewrite K in Hvals.
    assert (Hlast : List.last temps (float_of_Q t) = float_of_Q t).
    { rewrite Htf. apply last_app_repeat. lia. }
    rewrite Hlast in Hvals.
    assert (Hv2 : temps ++ repeat (float_of_Q t) 12
                  = map float_of_Q head ++ repeat (float_of_Q t) (S (36 - n))).
    { rewrite Htf, <- app_assoc, <- repeat_app. f_equal. f_equal. lia. }
    rewrite Hv2 in Hvals.
    destruct (sparkline_rich_mapM binary64 temps _ 36 Hne Hvals) as (f & Ef).
    { destruct (map float_of_Q head); discriminate. }
    change (num binary64) with float in *.
    rewrite Ef in Hg.
    destruct (mapM_repeat_tail f _ _ _ _ Hg) as (g & Hgl).
    exists g. rewrite length_map, Hhead in Hgl.
    replace (37 - n)%nat with (S (36 - n)) by lia. exact Hgl.
Qed.

(** Five forecast entries: the glyphs from the fifth on, 32 of them, are
    the same. *)
Lemma short_forecast_flat_tail_witness :
  exists glyphs g,
    Rich.sparkline binary64
      (map float_of_Q (temps24 (build_hourly (sample_forecast 5)))) 36
    = Ok glyphs
    /\ List.length glyphs = 36%nat
    /\ skipn 4 glyphs = repeat g 32.
Proof.
  destruct (short_forecast_flat_tail (sample_forecast 5)) as (_ & H2 & H3).
  - cbn. lia.
  - intros it Hit. unfold sample_forecast, forecast_items in Hit.
    cbn [fr_list] in Hit. apply in_map_iff in Hit. destruct Hit as (i & <- & _).
    eexists. reflexivity.
  - cbv zeta in H2, H3.
    destruct (Rich.sparkline binary64
                (map float_of_Q (temps24 (build_hourly (sample_forecast 5)))) 36)
      as [glyphs|e] eqn:E.
    + destruct (H3 glyphs Logic.eq_refl) as (G1 & g & G2).
      exists glyphs, g. split; [reflexivity|]. split; [exact G1|exact G2].
    + specialize (H2 ltac:(vm_compute; reflexivity)). discriminate.
Defined.
